(** * ldap-pg: the entry-insertion protocol of the repository layer

    A shallow embedding of the two insertion paths found in the sources,

    - [Part000]    : src/unnamed/part_000  (ldap_tree carries a materialized
                     [path]; the parent is promoted after its child is in);
    - [RepoCreate] : src/repo_create.go    (ldap_tree carries [parent_path];
                     the parent is looked up first, members are attached),

    over an explicit model of the relational store: tables are lists of
    rows, a transaction is a working copy next to the snapshot it started
    from, and every Go function that returns [error] becomes a computation
    in a state-and-error monad over the transaction.  One transaction runs
    at a time: there are no interleavings and no locks in this model, and
    the log lines of the Go code have no part in it.

    The file has the model first ([Part000], [RepoCreate]), then a sample
    directory to run it on ([Sample]), then the notions the statements use
    ([Part000Spec], [RepoCreateSpec]), then the proofs. *)

From Stdlib Require Import ZArith String List Bool Lia.
From stdpp Require Import base option list strings pretty gmap.

(** ** Errors and outcomes *)

(** What the database driver can hand back instead of rows. *)
Inductive DriverError : Type :=
  | PqError (code : string)      (* *pq.Error, with its SQLSTATE *)
  | ErrNoRows                    (* sql.ErrNoRows *)
  | ErrDriver (msg : string).    (* any other failure of the driver *)

(** The [error] values that travel through the Go code. *)
Inductive error : Type :=
  | AlreadyExists                          (* NewAlreadyExists()   *)
  | NoSuchObject                           (* NewNoSuchObject()    *)
  | InvalidDNSyntax                        (* NewInvalidDNSyntax() *)
  | Unavailable                            (* NewUnavailable()     *)
  | Errorf (msg : string)                  (* xerrors.Errorf, nothing wrapped *)
  | Wrapf (msg : string) (cause : error)   (* xerrors.Errorf(".. %w", err) *)
  | Driver (e : DriverError)               (* an error of the driver, as is *)
  | External (msg : string).               (* an error made by a collaborator *)

(** A Go call returns normally with a value, returns a non-nil [error], or
    panics (a method called through a nil pointer, an index out of range,
    a [Must...] helper). *)
Inductive outcome (A : Type) : Type :=
  | Ok (a : A)
  | Err (e : error)
  | Panic (msg : string).
Arguments Ok {A} a.
Arguments Err {A} e.
Arguments Panic {A} msg.

(** Collaborators outside the sources answer with a value or a message. *)
Definition external {A : Type} (x : string + A) : outcome A :=
  match x with
  | inl msg => Err (External msg)
  | inr a => Ok a
  end.

(** ** The state-and-error monad *)

Definition M (S A : Type) : Type := S -> S * outcome A.

Definition ret {S A : Type} (a : A) : M S A := fun s => (s, Ok a).
Definition fail {S A : Type} (e : error) : M S A := fun s => (s, Err e).
Definition lift {S A : Type} (o : outcome A) : M S A := fun s => (s, o).

Definition bind {S A B : Type} (c : M S A) (k : A -> M S B) : M S B :=
  fun s =>
    match c s with
    | (s', Ok a) => k a s'
    | (s', Err e) => (s', Err e)
    | (s', Panic msg) => (s', Panic msg)
    end.

Notation "x <- c1 ;; c2" := (bind c1 (fun x => c2))
  (at level 100, c1 at next level, right associativity).

(** [p.Method()] through a pointer that may be nil. *)
Definition deref {S A : Type} (p : option A) : M S A :=
  match p with
  | Some a => ret a
  | None => lift (Panic "nil pointer dereference")
  end.

(** [f(...)] with the returned error dropped on the floor: the effects on
    the transaction stay, the error does not reach the caller. *)
Definition discard {S A : Type} (c : M S A) : M S unit :=
  fun s =>
    match c s with
    | (s', Ok _) => (s', Ok tt)
    | (s', Err _) => (s', Ok tt)
    | (s', Panic msg) => (s', Panic msg)
    end.

(** [for _, x := range xs { body }], leaving at the first error. *)
Fixpoint forM_ {S A : Type} (xs : list A) (body : A -> M S unit) : M S unit :=
  match xs with
  | [] => ret tt
  | x :: xs' => _ <- body x ;; forM_ xs' body
  end.

(** ** Names: the DN service

    Modelled from the spec: the types DN, AddEntry and MemberEntry are not
    in the sources.  A [DN] value carries the answers of the accessors the
    insertion code calls on it; [ParentDN] is a pointer and may be nil. *)
#[local] Set Warnings "-register-all".
Inductive DN : Type := mkDN {
  IsRoot : bool;
  IsDC : bool;
  RDNNormStr : string;
  RDNOrigStr : string;
  DNNormStr : string;
  DNOrigStr : string;
  ParentPath : string;
  ParentDN : option DN
}.

Record MemberEntry : Type := mkMemberEntry {
  AttrNameNorm : string;
  MemberOfDNNorm : string
}.

(** The accessors of AddEntry delegate to the entry's DN. *)
Record AddEntry : Type := mkAddEntry {
  entry_DN : DN;
  entry_Member : list MemberEntry;
  entry_attributes : list (string * list string)
}.

Definition entry_ParentDN (entry : AddEntry) : option DN := ParentDN (entry_DN entry).
Definition entry_RDNNorm (entry : AddEntry) : string := RDNNormStr (entry_DN entry).
Definition entry_RDNOrig (entry : AddEntry) : string := RDNOrigStr (entry_DN entry).
Definition entry_IsDC (entry : AddEntry) : bool := IsDC (entry_DN entry).

Inductive TxStatus : Type := TxOpen | TxCommitted | TxRolledBack.

(** * src/unnamed/part_000 *)
Module Part000.

(** ** The store *)

Record EntryRow : Type := mkEntryRow {
  entry_id : Z;
  entry_parent_id : option Z;     (* NULL for a root entry *)
  entry_rdn_norm : string;
  entry_rdn_orig : string;
  entry_attrs_norm : string;
  entry_attrs_orig : string
}.

Record TreeRow : Type := mkTreeRow {
  tree_id : Z;
  tree_path : string
}.

Record Tables : Type := mkTables {
  ldap_entry : list EntryRow;
  ldap_tree : list TreeRow
}.

(** Modelled from the spec: the schema is not in the sources; an entry's id
    is "assigned on insert", here from a sequence.  A sequence is not
    transactional: a rollback does not take its values back. *)
Record Database : Type := mkDatabase {
  db_tables : Tables;
  db_entry_seq : Z
}.

Record Tx : Type := mkTx {
  tx_begin : Tables;       (* what the database holds outside the transaction *)
  tx_work : Tables;        (* what the statements of the transaction see *)
  tx_entry_seq : Z;
  tx_status : TxStatus
}.

(** The calls to the driver, each of which may fail. *)
Inductive Site : Type :=
  | SitePrepareInsertEntry | SiteQueryInsertEntry | SiteScanInsertEntry
  | SitePrepareInsertTree | SiteQueryInsertTree | SiteScanInsertTree
  | SitePrepareInsertRoot | SiteQueryInsertRoot | SiteScanInsertRoot
  | SiteCommit.

Record DBEntry : Type := mkDBEntry {
  AttrsNorm : string;
  AttrsOrig : string
}.

Record FindOption : Type := mkFindOption { Lock : bool }.

(** The receiver [r *Repository] together with the package-level
    collaborators that are not in the sources:
    - [mapper.AddEntryToDBEntry(tx, entry)];
    - [createFindBasePathByDNSQL(dn, opt)] with the parameters of
      [createFindTreePathByDNParams(dn)]: the sub-select that resolves the DN
      of the parent to its row, read here as the id it selects, if any;
    - the failures of the driver, per call. *)
Record Repository : Type := mkRepository {
  AddEntryToDBEntry : Tables -> AddEntry -> string + DBEntry;
  createFindBasePathByDNSQL : option DN -> FindOption -> string + (Tables -> option Z);
  fault : Site -> option DriverError
}.

(** [r.db.MustBegin()], for a database that lets a transaction begin. *)
Definition MustBegin (db : Database) : Tx :=
  {| tx_begin := db_tables db; tx_work := db_tables db;
     tx_entry_seq := db_entry_seq db; tx_status := TxOpen |}.

(** [tx.Commit()]: the working copy becomes the database, or the driver
    fails and it does not. *)
Definition Commit (r : Repository) (tx : Tx) : Tx * option DriverError :=
  match fault r SiteCommit with
  | Some e => (tx, Some e)
  | None => ({| tx_begin := tx_begin tx; tx_work := tx_work tx;
                tx_entry_seq := tx_entry_seq tx; tx_status := TxCommitted |}, None)
  end.

(** [rollback(tx)]: back to the snapshot. *)
Definition rollback (tx : Tx) : Tx :=
  {| tx_begin := tx_begin tx; tx_work := tx_begin tx;
     tx_entry_seq := tx_entry_seq tx; tx_status := TxRolledBack |}.

(** What the database holds once the transaction is over. *)
Definition database_after (tx : Tx) : Database :=
  {| db_tables := match tx_status tx with
                  | TxCommitted => tx_work tx
                  | _ => tx_begin tx
                  end;
     db_entry_seq := tx_entry_seq tx |}.

(** [tx.PrepareNamed(q)] and [rows.Scan(...)]: nothing but a possible
    failure, wrapped by the caller. *)
Definition driver_call (r : Repository) (site : Site) (msg : string) : M Tx unit :=
  match fault r site with
  | Some e => fail (Wrapf msg (Driver e))
  | None => ret tt
  end.

(** [tx.NamedStmt(stmt).Queryx(params)] for a statement with RETURNING. *)
Definition queryx {Row : Type} (r : Repository) (site : Site) (msg : string)
    (stmt : Tx -> Tx * list Row) : M Tx (list Row) :=
  match fault r site with
  | Some e => fail (Wrapf msg (Driver e))
  | None => fun tx => let (tx', rows) := stmt tx in (tx', Ok rows)
  end.

Definition with_work (tx : Tx) (tb : Tables) (seq : Z) : Tx :=
  {| tx_begin := tx_begin tx; tx_work := tb; tx_entry_seq := seq; tx_status := tx_status tx |}.

(** ** The statements *)

(** [SELECT id FROM ldap_entry WHERE parent_id = p.id AND rdn_norm = :rdn_norm] *)
Definition sibling_exists (tb : Tables) (pid : Z) (rdn : string) : bool :=
  existsb (fun e => bool_decide (entry_parent_id e = Some pid)
                    && bool_decide (entry_rdn_norm e = rdn)) (ldap_entry tb).

(** [INSERT INTO ldap_entry (...) SELECT p.id AS parent_id, ... FROM (%s) p
     WHERE NOT EXISTS (...) RETURNING id, parent_id] *)
Definition insertEntryStmt (findParentDNByDN : Tables -> option Z)
    (rdn_norm rdn_orig attrs_norm attrs_orig : string) (tx : Tx) : Tx * list (Z * Z) :=
  let tb := tx_work tx in
  match findParentDNByDN tb with
  | None => (tx, [])
  | Some pid =>
      if sibling_exists tb pid rdn_norm then (tx, [])
      else
        let id := tx_entry_seq tx in
        let row := mkEntryRow id (Some pid) rdn_norm rdn_orig attrs_norm attrs_orig in
        (with_work tx (mkTables (ldap_entry tb ++ [row]) (ldap_tree tb)) (id + 1),
         [(id, pid)])
  end.

(** [SELECT id FROM ldap_tree WHERE id = :id] *)
Definition tree_exists (tb : Tables) (id : Z) : bool :=
  existsb (fun t => bool_decide (tree_id t = id)) (ldap_tree tb).

(** [SELECT t.id, t.path FROM ldap_tree t, ldap_entry e
     WHERE e.id = :id AND e.parent_id = t.id] *)
Definition parent_tree_rows (tb : Tables) (id : Z) : list TreeRow :=
  t ← ldap_tree tb;
  e ← ldap_entry tb;
  if bool_decide (entry_id e = id) && bool_decide (entry_parent_id e = Some (tree_id t))
  then [t] else [].

(** [INSERT INTO ldap_tree (id, path) SELECT :id, :id as path
     WHERE NOT EXISTS (...) RETURNING id, path] *)
Definition insertRootTreeStmt (id : Z) (tx : Tx) : Tx * list (Z * string) :=
  let tb := tx_work tx in
  if tree_exists tb id then (tx, [])
  else
    let row := mkTreeRow id (pretty id) in
    (with_work tx (mkTables (ldap_entry tb) (ldap_tree tb ++ [row])) (tx_entry_seq tx),
     [(id, pretty id)]).

(** [INSERT INTO ldap_tree (id, path) SELECT :id, p.path || :id as path
     FROM (...) p WHERE NOT EXISTS (...) RETURNING id, path] *)
Definition insertChildTreeStmt (id : Z) (tx : Tx) : Tx * list (Z * string) :=
  let tb := tx_work tx in
  if tree_exists tb id then (tx, [])
  else
    let rows := map (fun p => mkTreeRow id (tree_path p +:+ pretty id)) (parent_tree_rows tb id) in
    (with_work tx (mkTables (ldap_entry tb) (ldap_tree tb ++ rows)) (tx_entry_seq tx),
     map (fun t => (tree_id t, tree_path t)) rows).

(** [SELECT id FROM ldap_entry WHERE parent_id IS NULL AND rdn_norm = :rdn_norm] *)
Definition root_exists (tb : Tables) (rdn : string) : bool :=
  existsb (fun e => bool_decide (entry_parent_id e = None)
                    && bool_decide (entry_rdn_norm e = rdn)) (ldap_entry tb).

(** [INSERT INTO ldap_entry (...) SELECT NULL as parent_id, ...
     WHERE NOT EXISTS (...) RETURNING id] *)
Definition insertRootEntryStmt (rdn_norm rdn_orig attrs_norm attrs_orig : string)
    (tx : Tx) : Tx * list Z :=
  let tb := tx_work tx in
  if root_exists tb rdn_norm then (tx, [])
  else
    let id := tx_entry_seq tx in
    let row := mkEntryRow id None rdn_norm rdn_orig attrs_norm attrs_orig in
    (with_work tx (mkTables (ldap_entry tb ++ [row]) (ldap_tree tb)) (id + 1), [id]).

(** ** The functions *)

Definition insertEntry (r : Repository) (entry : AddEntry) : M Tx (Z * Z) :=
  if IsRoot (entry_DN entry) then
    fail (Errorf "Invalid entry, it should not be root DN.")
  else
    dbEntry <- (fun tx => (tx, external (AddEntryToDBEntry r (tx_work tx) entry))) ;;
    findParentDNByDN <-
      match createFindBasePathByDNSQL r (entry_ParentDN entry) {| Lock := true |} with
      | inl msg => fail (Wrapf "Failed to create findTreePathByDN sql" (External msg))
      | inr q => ret q
      end ;;
    _ <- driver_call r SitePrepareInsertEntry "Failed to prepare insert query." ;;
    rows <- queryx r SiteQueryInsertEntry "Failed to insert entry record."
              (insertEntryStmt findParentDNByDN (entry_RDNNorm entry) (entry_RDNOrig entry)
                 (AttrsNorm dbEntry) (AttrsOrig dbEntry)) ;;
    match rows with
    | (id, parentId) :: _ =>
        _ <- driver_call r SiteScanInsertEntry "Failed to scan." ;;
        ret (id, parentId)
    | [] => fail AlreadyExists
    end.

Definition insertTree (r : Repository) (id : Z) (isRoot : bool) : M Tx unit :=
  let q := if isRoot then insertRootTreeStmt id else insertChildTreeStmt id in
  _ <- driver_call r SitePrepareInsertTree "Failed to prepare insert tree entry query." ;;
  rows <- queryx r SiteQueryInsertTree "Failed to insert tree entry record." q ;;
  match rows with
  | _ :: _ => driver_call r SiteScanInsertTree "Failed to scan."
  | [] => ret tt
  end.

Definition insertEntryAndTree (r : Repository) (entry : AddEntry) : M Tx (Z * Z) :=
  if IsRoot (entry_DN entry) then
    fail (Errorf "Invalid entry, it should not be root DN.")
  else
    ids <- insertEntry r entry ;;
    let (newID, parentId) := ids in
    parentDN <- deref (entry_ParentDN entry) ;;
    _ <- insertTree r parentId (IsRoot parentDN) ;;
    ret (newID, parentId).

Definition insertRootEntry (r : Repository) (entry : AddEntry) : M Tx Z :=
  if negb (IsRoot (entry_DN entry)) then
    fail (Errorf "Invalid entry, it should be root DN.")
  else
    dbEntry <- (fun tx => (tx, external (AddEntryToDBEntry r (tx_work tx) entry))) ;;
    _ <- driver_call r SitePrepareInsertRoot "Failed to prepare insert root query." ;;
    rows <- queryx r SiteQueryInsertRoot "Failed to insert root entry record."
              (insertRootEntryStmt (entry_RDNNorm entry) (entry_RDNOrig entry)
                 (AttrsNorm dbEntry) (AttrsOrig dbEntry)) ;;
    match rows with
    | id :: _ =>
        _ <- driver_call r SiteScanInsertRoot "Failed to scan result of the new root entry." ;;
        ret id
    | [] => fail AlreadyExists
    end.

Definition insertWithTx (r : Repository) (entry : AddEntry) : M Tx Z :=
  fun tx =>
    let step :=
      if IsRoot (entry_DN entry) then insertRootEntry r entry
      else ids <- insertEntryAndTree r entry ;; ret (fst ids) in
    match step tx with
    | (tx1, Err err) => (rollback tx1, Err err)
    | (tx1, Panic msg) => (tx1, Panic msg)
    | (tx1, Ok newID) =>
        match Commit r tx1 with
        | (tx2, Some _) => (rollback tx2, Err Unavailable)
        | (tx2, None) => (tx2, Ok newID)
        end
    end.

(** [Insert] hands back the transaction it opened next to what the Go
    function returns; [database_after] reads the database off it. *)
Definition Insert (r : Repository) (entry : AddEntry) (db : Database) : Tx * outcome Z :=
  let tx := MustBegin db in
  insertWithTx r entry tx.

End Part000.

(** * src/repo_create.go

    [hasParent] is left out: nothing on the path of [Insert] calls it. *)
Module RepoCreate.

(** ** The store *)

Record EntryRow : Type := mkEntryRow {
  entry_id : Z;
  entry_parent_id : Z;
  entry_rdn_norm : string;
  entry_rdn_orig : string;
  entry_uuid : string;
  entry_created : string;
  entry_updated : string;
  entry_attrs_norm : string;
  entry_attrs_orig : string
}.

Record TreeRow : Type := mkTreeRow {
  tree_id : Z;
  tree_parent_path : string;
  tree_parent_dn_orig : string
}.

(** [INSERT INTO ldap_member VALUES (subjectID, :a_i, :o_i)]: three columns,
    by position. *)
Record MemberRow : Type := mkMemberRow {
  member_subject_id : Z;
  member_attr_name_norm : string;
  member_object_id : Z
}.

Record Tables : Type := mkTables {
  ldap_entry : list EntryRow;
  ldap_tree : list TreeRow;
  ldap_member : list MemberRow
}.

Record Database : Type := mkDatabase {
  db_tables : Tables;
  db_entry_seq : Z
}.

Record Tx : Type := mkTx {
  tx_begin : Tables;
  tx_work : Tables;
  tx_entry_seq : Z;
  tx_status : TxStatus
}.

Inductive Site : Type :=
  | SitePrepareFind | SiteGetFind
  | SitePrepareFindDC | SiteGetFindDC
  | SitePrepareInsertEntry | SiteQueryInsertEntry
  | SiteQueryInsertDC | SiteScanInsertDC
  | SiteQueryInsertUnderDC | SiteScanInsertUnderDC
  | SiteExecInsertTree
  | SiteQueryCollect | SiteRowsErrCollect
  | SiteFetchMembers | SiteScanMembers | SiteInsertMembers
  | SiteCommit.

Record DBEntry : Type := mkDBEntry {
  EntryUUID : string;
  Created : string;
  Updated : string;
  AttrsNorm : string;
  AttrsOrig : string
}.

Record DBEntryRecord : Type := mkDBEntryRecord {
  ID : Z;
  ParentID : Z;
  RDNOrig : string;
  ParentDNOrig : string;      (* no real column in the table *)
  HasSubordinates : string    (* no real column in the table *)
}.

Record nordNorm : Type := mkNordNorm {
  node_ID : Z;
  node_DNNorm : string
}.

(** What [getDCDNOrig(tx)] returns: the fields [ID] and [DNOrig] are read. *)
Record DCRecord : Type := mkDCRecord {
  dc_ID : Z;
  dc_DNOrig : string
}.

(** The receiver [r *Repository] with [r.server], and the package-level
    names that are not in the sources: the constant [ROOT_ID],
    [NormalizeDN(nil, s)], [mapper.AddEntryToDBEntry(entry)],
    [getDCDNOrig(tx)], the rows of the prepared statement
    [collectNodeNormByParentIDStmt], and the failures of the driver. *)
Record Repository : Type := mkRepository {
  ROOT_ID : Z;
  server_GetSuffix : string;
  server_NormalizeDN : string -> string + DN;
  NormalizeDN : string -> string + DN;
  AddEntryToDBEntry : AddEntry -> string + DBEntry;
  getDCDNOrig : Tables -> string + DCRecord;
  collectNodeNormByParentIDStmt : Tables -> Z -> list nordNorm;
  fault : Site -> option DriverError
}.

(** [r.db.MustBegin()], for a database that lets a transaction begin. *)
Definition MustBegin (db : Database) : Tx :=
  {| tx_begin := db_tables db; tx_work := db_tables db;
     tx_entry_seq := db_entry_seq db; tx_status := TxOpen |}.

(** [tx.Commit()]: the working copy becomes the database, or the driver
    fails and it does not. *)
Definition Commit (r : Repository) (tx : Tx) : Tx * option DriverError :=
  match fault r SiteCommit with
  | Some e => (tx, Some e)
  | None => ({| tx_begin := tx_begin tx; tx_work := tx_work tx;
                tx_entry_seq := tx_entry_seq tx; tx_status := TxCommitted |}, None)
  end.

(** [tx.Rollback()]: back to the snapshot. *)
Definition Rollback (tx : Tx) : Tx :=
  {| tx_begin := tx_begin tx; tx_work := tx_begin tx;
     tx_entry_seq := tx_entry_seq tx; tx_status := TxRolledBack |}.

Definition database_after (tx : Tx) : Database :=
  {| db_tables := match tx_status tx with
                  | TxCommitted => tx_work tx
                  | _ => tx_begin tx
                  end;
     db_entry_seq := tx_entry_seq tx |}.

Definition driver_call (r : Repository) (site : Site) (msg : string) : M Tx unit :=
  match fault r site with
  | Some e => fail (Wrapf msg (Driver e))
  | None => ret tt
  end.

Definition queryx {Row : Type} (r : Repository) (site : Site) (msg : string)
    (stmt : Tx -> Tx * list Row) : M Tx (list Row) :=
  match fault r site with
  | Some e => fail (Wrapf msg (Driver e))
  | None => fun tx => let (tx', rows) := stmt tx in (tx', Ok rows)
  end.

(** [stmt.Get(&dest, params)]: the first row, or [sql.ErrNoRows]. *)
Definition get {Row : Type} (r : Repository) (site : Site)
    (stmt : Tables -> list Row) : Tx -> DriverError + Row :=
  fun tx =>
    match fault r site with
    | Some e => inl e
    | None =>
        match stmt (tx_work tx) with
        | row :: _ => inr row
        | [] => inl ErrNoRows
        end
    end.

Definition with_work (tx : Tx) (tb : Tables) (seq : Z) : Tx :=
  {| tx_begin := tx_begin tx; tx_work := tb; tx_entry_seq := seq; tx_status := tx_status tx |}.

Definition add_entry (tb : Tables) (row : EntryRow) : Tables :=
  mkTables (ldap_entry tb ++ [row]) (ldap_tree tb) (ldap_member tb).

(** ** The statements *)

(** The LEFT JOIN of one row with the rows that match it. *)
Definition left_join {A : Type} (matching : list A) : list (option A) :=
  match matching with
  | [] => [None]
  | _ => map Some matching
  end.

(** The SELECT of [findDBEntryRecord].  [hassubordinates] is the CASE on
    [e.id], a column of the table the FROM starts from. *)
Definition findDBEntryRecordStmt (grand_parent_path parent_rdn_norm rdn_norm : string)
    (tb : Tables) : list DBEntryRecord :=
  e ← ldap_entry tb;
  pt ← filter (fun pt => tree_id pt = entry_parent_id e) (ldap_tree tb);
  pe ← filter (fun pe => tree_id pt = entry_id pe) (ldap_entry tb);
  t ← left_join (filter (fun t => tree_id t = entry_id e) (ldap_tree tb));
  if bool_decide (tree_parent_path pt = grand_parent_path)
     && bool_decide (entry_rdn_norm pe = parent_rdn_norm)
     && bool_decide (entry_rdn_norm e = rdn_norm)
  then
    let e_id : option Z := Some (entry_id e) in
    [ {| ID := entry_id e;
         ParentID := entry_parent_id e;
         RDNOrig := entry_rdn_orig e;
         ParentDNOrig := entry_rdn_orig pe +:+ "," +:+ tree_parent_dn_orig pt;
         HasSubordinates := match e_id with None => "FALSE" | Some _ => "TRUE" end |} ]
  else [].

(** The SELECT of [findDCDBEntryRecord]. *)
Definition findDCDBEntryRecordStmt (root_id : Z) (rdn_orig parent_dn_orig : string)
    (tb : Tables) : list DBEntryRecord :=
  e ← filter (fun e => entry_parent_id e = root_id) (ldap_entry tb);
  [ {| ID := entry_id e; ParentID := root_id; RDNOrig := rdn_orig;
       ParentDNOrig := parent_dn_orig; HasSubordinates := "TRUE" |} ].

Definition sibling_exists (tb : Tables) (pid : Z) (rdn : string) : bool :=
  existsb (fun e => bool_decide (entry_parent_id e = pid)
                    && bool_decide (entry_rdn_norm e = rdn)) (ldap_entry tb).

(** [INSERT INTO ldap_entry (...) VALUES (...) RETURNING id, parent_id].
    Modelled from the spec: the schema is not in the sources; the entry
    table has "a uniqueness constraint on (parent_id, rdn_norm)", which the
    store answers with SQLSTATE 23505, and ids come from a sequence. *)
Definition insertEntryStmt (parent_id : Z) (rdn_norm rdn_orig : string) (dbEntry : DBEntry)
    (tx : Tx) : Tx * (DriverError + list (Z * Z)) :=
  let tb := tx_work tx in
  if sibling_exists tb parent_id rdn_norm then (tx, inl (PqError "23505"))
  else
    let id := tx_entry_seq tx in
    let row := mkEntryRow id parent_id rdn_norm rdn_orig (EntryUUID dbEntry)
                 (Created dbEntry) (Updated dbEntry) (AttrsNorm dbEntry) (AttrsOrig dbEntry) in
    (with_work tx (add_entry tb row) (id + 1), inr [(id, parent_id)]).

(** Modelled from the spec: the prepared statement [insertDCStmt] is not in
    the sources.  "Attempt a conditional insert guarded by: no row already
    exists with parent NULL and this rdn_norm", the parent of the
    domain-component entry being [ROOT_ID] here. *)
Definition insertDCStmt (root_id : Z) (rdn_norm rdn_orig : string) (dbEntry : DBEntry)
    (tx : Tx) : Tx * list Z :=
  let tb := tx_work tx in
  if sibling_exists tb root_id rdn_norm then (tx, [])
  else
    let id := tx_entry_seq tx in
    let row := mkEntryRow id root_id rdn_norm rdn_orig (EntryUUID dbEntry)
                 (Created dbEntry) (Updated dbEntry) (AttrsNorm dbEntry) (AttrsOrig dbEntry) in
    (with_work tx (add_entry tb row) (id + 1), [id]).

(** Modelled from the spec: the prepared statement [insertUnderDCStmt] is
    not in the sources.  Inserting directly under the domain-component entry
    "uses a specialized path [...] but must still honor sibling-uniqueness",
    by the conditional pattern "insert only if no sibling with the same
    rdn_norm exists under this parent"; the parent is the row whose
    parent_id is [ROOT_ID]. *)
Definition insertUnderDCStmt (root_id : Z) (rdn_norm rdn_orig : string) (dbEntry : DBEntry)
    (tx : Tx) : Tx * list (Z * Z) :=
  let tb := tx_work tx in
  match filter (fun e => entry_parent_id e = root_id) (ldap_entry tb) with
  | [] => (tx, [])
  | dc :: _ =>
      if sibling_exists tb (entry_id dc) rdn_norm then (tx, [])
      else
        let id := tx_entry_seq tx in
        let row := mkEntryRow id (entry_id dc) rdn_norm rdn_orig (EntryUUID dbEntry)
                     (Created dbEntry) (Updated dbEntry) (AttrsNorm dbEntry) (AttrsOrig dbEntry) in
        (with_work tx (add_entry tb row) (id + 1), [(id, entry_id dc)])
  end.

(** Modelled from the spec: the prepared statement [insertTreeStmt] is not
    in the sources.  A TreeNode is "created at most once per entry id [...]
    guarded by a conditional insert". *)
Definition insertTreeStmt (id : Z) (parent_path parent_dn_orig : string) (tx : Tx) : Tx :=
  let tb := tx_work tx in
  if existsb (fun t => bool_decide (tree_id t = id)) (ldap_tree tb) then tx
  else
    with_work tx
      (mkTables (ldap_entry tb) (ldap_tree tb ++ [mkTreeRow id parent_path parent_dn_orig])
         (ldap_member tb))
      (tx_entry_seq tx).

(** [SELECT id, parent_id, rdn_norm FROM ldap_entry WHERE (parent_id = :parent_id_0
     AND rdn_norm = :rdn_norm_0) OR ...] *)
Definition fetchMembersStmt (where_ : list (Z * string)) (tb : Tables) : list (Z * Z * string) :=
  map (fun e => (entry_id e, entry_parent_id e, entry_rdn_norm e))
    (List.filter
       (fun e => existsb (fun w => bool_decide (entry_parent_id e = fst w)
                                   && bool_decide (entry_rdn_norm e = snd w)) where_)
       (ldap_entry tb)).

(** [INSERT INTO ldap_member VALUES (subjectID, :a_0, :o_0), ...] *)
Definition insertMembersStmt (subjectID : Z) (values : list (string * Z)) (tx : Tx) : Tx :=
  let tb := tx_work tx in
  with_work tx
    (mkTables (ldap_entry tb) (ldap_tree tb)
       (ldap_member tb ++ map (fun v => mkMemberRow subjectID (fst v) (snd v)) values))
    (tx_entry_seq tx).

(** ** The functions *)

Definition HasChildren (d : DBEntryRecord) : bool :=
  bool_decide (HasSubordinates d = "TRUE").

Definition DBEntryRecord_ParentDN (r : Repository) (d : DBEntryRecord) : outcome DN :=
  match server_NormalizeDN r (ParentDNOrig d) with
  | inl msg => Err (Wrapf "Failed to normalize parent DN" (External msg))
  | inr parentDN => Ok parentDN
  end.

(** The tail shared by the two finders: [sql.ErrNoRows] is "not found". *)
Definition found_or_nil (res : DriverError + DBEntryRecord) : outcome (option DBEntryRecord) :=
  match res with
  | inr dbEntry => Ok (Some dbEntry)
  | inl ErrNoRows => Ok None
  | inl err => Err (Wrapf "Failed to find DBEntryRecord." (Driver err))
  end.

Definition findDCDBEntryRecord (r : Repository) (dn : DN) : M Tx (option DBEntryRecord) :=
  if negb (IsDC dn) then
    fail (Errorf "Invalid args. DN should be DC's DN")
  else
    let suffix := server_GetSuffix r in
    dcdn <- match NormalizeDN r suffix with
            | inl msg => fail (Wrapf "Failed to normalize DN" (External msg))
            | inr d => ret d
            end ;;
    dcParent <- deref (ParentDN dcdn) ;;
    let parentDNOrig := DNOrigStr dcParent in
    _ <- driver_call r SitePrepareFindDC "Failed to prepare to find DBEntryRecord." ;;
    fun tx =>
      (tx, found_or_nil
             (get r SiteGetFindDC
                (findDCDBEntryRecordStmt (ROOT_ID r) (RDNOrigStr dcdn) parentDNOrig) tx)).

Definition findDBEntryRecord (r : Repository) (dn : option DN) : M Tx (option DBEntryRecord) :=
  dn <- deref dn ;;
  if IsDC dn then findDCDBEntryRecord r dn
  else
    let parentDN := ParentDN dn in
    let grandParentPath := match parentDN with Some p => ParentPath p | None => "/" end in
    let parentRDNNorm := match parentDN with Some p => RDNNormStr p | None => "" end in
    _ <- driver_call r SitePrepareFind "Failed to prepare to find DBEntryRecord." ;;
    fun tx =>
      (tx, found_or_nil
             (get r SiteGetFind
                (findDBEntryRecordStmt grandParentPath parentRDNNorm (RDNNormStr dn)) tx)).

Definition findParent (r : Repository) (dn : DN) : M Tx (option DBEntryRecord) :=
  findDBEntryRecord r (ParentDN dn).

Definition insertUnderDCEntry (r : Repository) (entry : AddEntry) : M Tx (Z * Z) :=
  dbEntry <- lift (external (AddEntryToDBEntry r entry)) ;;
  rows <- queryx r SiteQueryInsertUnderDC "Failed to insert entry record."
            (insertUnderDCStmt (ROOT_ID r) (entry_RDNNorm entry) (entry_RDNOrig entry) dbEntry) ;;
  match rows with
  | (id, parentID) :: _ =>
      _ <- driver_call r SiteScanInsertUnderDC "Failed to scan returning id." ;;
      ret (id, parentID)
  | [] => fail AlreadyExists
  end.

Definition insertEntry (r : Repository) (parent : DBEntryRecord) (entry : AddEntry)
    : M Tx (Z * Z) :=
  parentDN <- deref (entry_ParentDN entry) ;;
  if IsDC parentDN then insertUnderDCEntry r entry
  else
    dbEntry <- lift (external (AddEntryToDBEntry r entry)) ;;
    _ <- driver_call r SitePrepareInsertEntry "Failed to prepare query." ;;
    fun tx =>
      let (tx', res) :=
        match fault r SiteQueryInsertEntry with
        | Some e => (tx, inl e)
        | None => insertEntryStmt (ID parent) (entry_RDNNorm entry) (entry_RDNOrig entry)
                    dbEntry tx
        end in
      match res with
      | inl err =>
          match err with
          | PqError code =>
              (* Duplicate error *)
              if bool_decide (code = "23505") then (tx', Err AlreadyExists)
              else (tx', Err (Wrapf "Failed to insert entry record." (Driver err)))
          | _ => (tx', Err (Wrapf "Failed to insert entry record." (Driver err)))
          end
      | inr ((id, parentID) :: _) => (tx', Ok (id, parentID))
      | inr [] => (tx', Err AlreadyExists)
      end.

Definition insertDCEntry (r : Repository) (entry : AddEntry) : M Tx Z :=
  dbEntry <- lift (external (AddEntryToDBEntry r entry)) ;;
  rows <- queryx r SiteQueryInsertDC "Failed to insert DC entry record."
            (insertDCStmt (ROOT_ID r) (entry_RDNNorm entry) (entry_RDNOrig entry) dbEntry) ;;
  match rows with
  | id :: _ =>
      _ <- driver_call r SiteScanInsertDC "Failed to scan returning id." ;;
      ret id
  | [] => fail AlreadyExists
  end.

Definition insertTree (r : Repository) (id : Z) (parentPath parentDNOrig : string) : M Tx unit :=
  match fault r SiteExecInsertTree with
  | Some e => fail (Wrapf "Failed to insert tree record." (Driver e))
  | None => fun tx => (insertTreeStmt id parentPath parentDNOrig tx, Ok tt)
  end.

Definition collectNodeNormByParentID (r : Repository) (parentID : Z) : M Tx (list nordNorm) :=
  if bool_decide (parentID = ROOT_ID r) then
    fail (Errorf "Invalid parentID")
  else
    list <- queryx r SiteQueryCollect "Failed to fetch child ID by parentID"
              (fun tx => (tx, collectNodeNormByParentIDStmt r (tx_work tx) parentID)) ;;
    match fault r SiteRowsErrCollect with
    | Some err => fail (Driver err)
    | None => ret list
    end.

(** The first loop of [insertSubMembers]: one WHERE clause per member, and
    the cache from ["%d_%s"] of (parentID, rdn_norm), kept here as the pair,
    to the attribute that declared the membership. *)
Fixpoint resolveMemberParents (r : Repository) (dnIDCache : gmap string Z)
    (members : list MemberEntry) (where_ : list (Z * string))
    (memberTypeCache : gmap (Z * string) string)
    : outcome (list (Z * string) * gmap (Z * string) string) :=
  match members with
  | [] => Ok (where_, memberTypeCache)
  | m :: rest =>
      match server_NormalizeDN r (MemberOfDNNorm m) with
      | inl _ => Err InvalidDNSyntax
      | inr dn =>
          match ParentDN dn with
          | None => Panic "nil pointer dereference"
          | Some parent =>
              match dnIDCache !! DNNormStr parent with
              | None => Err InvalidDNSyntax
              | Some parentID =>
                  resolveMemberParents r dnIDCache rest
                    (where_ ++ [(parentID, RDNNormStr dn)])
                    (<[(parentID, RDNNormStr dn) := AttrNameNorm m]> memberTypeCache)
              end
          end
      end
  end.

(** The second loop: [values[count] = ...] over the rows of the lookup;
    [values] was made with [len(where)] slots. *)
Fixpoint collectMemberValues (r : Repository) (memberTypeCache : gmap (Z * string) string)
    (slots : nat) (rows : list (Z * Z * string)) (values : list (string * Z))
    : outcome (list (string * Z)) :=
  match rows with
  | [] => Ok values
  | (id, parentID, rdnNorm) :: rest =>
      match fault r SiteScanMembers with
      | Some err => Err (Wrapf "Failed to scan member's id." (Driver err))
      | None =>
          match memberTypeCache !! (parentID, rdnNorm) with
          | None => Err (Errorf "Failed to fetch member's id.")
          | Some memberType =>
              if length values <? slots then
                collectMemberValues r memberTypeCache slots rest (values ++ [(memberType, id)])
              else Panic "index out of range"
          end
      end
  end.

Definition insertSubMembers (r : Repository) (subjectID : Z) (dn : DN)
    (members : list MemberEntry) (dnIDCache : gmap string Z) : M Tx unit :=
  let dns := map MemberOfDNNorm members in
  resolved <- lift (resolveMemberParents r dnIDCache members [] ∅) ;;
  let (where_, memberTypeCache) := resolved in
  rows <- match where_ with
          | [] => fail (Wrapf "Failed to fetch member's id." (Driver (PqError "42601")))
          | _ => queryx r SiteFetchMembers "Failed to fetch member's id."
                   (fun tx => (tx, fetchMembersStmt where_ (tx_work tx)))
          end ;;
  values <- lift (collectMemberValues r memberTypeCache (length where_) rows []) ;;
  let count := length values in
  (* Not found the member DN *)
  if negb (count =? length dns) then fail InvalidDNSyntax
  else
    match fault r SiteInsertMembers with
    | Some err => fail (Wrapf "Failed to bulk insert members." (Driver err))
    | None => fun tx => (insertMembersStmt subjectID values tx, Ok tt)
    end.

(** [members[lo:hi]] *)
Definition slice {A : Type} (l : list A) (lo hi : nat) : list A :=
  take (hi - lo) (drop lo l).

Definition insertMember (r : Repository) (subjectID : Z) (entry : AddEntry) : M Tx unit :=
  let members := entry_Member entry in
  if length members =? 0 then ret tt
  else
    (* First, cache all parent IDs *)
    dc <- (fun tx => (tx, external (getDCDNOrig r (tx_work tx)))) ;;
    let dnIDCache : gmap string Z := <[dc_DNOrig dc := dc_ID dc]> ∅ in
    nodeNorms <- collectNodeNormByParentID r (dc_ID dc) ;;
    let dnIDCache :=
      foldl (fun cache node => <[node_DNNorm node := node_ID node]> cache) dnIDCache nodeNorms in
    let max := 100 in
    let gcount := length members / max in
    let remain := length members mod max in
    _ <- forM_ (seq 0 gcount) (fun i =>
           let start := i * max in
           let m := slice members start (start + max) in
           discard (insertSubMembers r subjectID (entry_DN entry) m dnIDCache)) ;;
    _ <- (if 0 <? remain then
            let start := gcount * max in
            let m := slice members start (start + remain) in
            discard (insertSubMembers r subjectID (entry_DN entry) m dnIDCache)
          else ret tt) ;;
    ret tt.

Definition insertWithTx (r : Repository) (entry : AddEntry) : M Tx Z :=
  if entry_IsDC entry then
    newID <- insertDCEntry r entry ;;
    (* Always insert tree for DC entry *)
    _ <- insertTree r newID "/" "" ;;
    ret newID
  else
    parent <- findParent r (entry_DN entry) ;;
    match parent with
    | None =>
        (* No system error but can't find the parent *)
        fail NoSuchObject
    | Some parent =>
        (* Promote the parent entry to tree entry if no parent tree yet *)
        _ <- (if negb (HasChildren parent) then
                pp <- lift (DBEntryRecord_ParentDN r parent) ;;
                insertTree r (ID parent) (ParentPath pp) (DNOrigStr pp)
              else ret tt) ;;
        (* After inserted parent tree, insert the entry *)
        ids <- insertEntry r parent entry ;;
        let newID := fst ids in
        (* If the entry holds members, insert them *)
        _ <- insertMember r newID entry ;;
        ret newID
    end.

(** [Insert] hands back the transaction it opened next to what the Go
    function returns; [database_after] reads the database off it. *)
Definition Insert (r : Repository) (entry : AddEntry) (db : Database) : Tx * outcome Z :=
  let tx := MustBegin db in
  match insertWithTx r entry tx with
  | (tx1, Err err) => (Rollback tx1, Err err)
  | (tx1, Panic msg) => (tx1, Panic msg)
  | (tx1, Ok newID) =>
      match Commit r tx1 with
      | (tx2, Some err) => (tx2, Err (Driver err))
      | (tx2, None) => (tx2, Ok newID)
      end
  end.

End RepoCreate.

(** * A sample directory

    dc=example,dc=com with ou=people, ou=groups and a few entries below,
    and collaborators that answer for exactly these names. *)
Module Sample.

Definition comDN : DN :=
  mkDN false false "dc=com" "dc=com" "dc=com" "dc=com" "/" None.

Definition dcDN : DN :=
  mkDN true true "dc=example" "dc=example" "dc=example,dc=com" "dc=example,dc=com" "/"
    (Some comDN).

Definition childDN (rdn : string) (parent : DN) : DN :=
  mkDN false false rdn rdn (rdn +:+ "," +:+ DNNormStr parent) (rdn +:+ "," +:+ DNOrigStr parent)
    (ParentPath parent +:+ RDNNormStr parent +:+ "/") (Some parent).

Definition peopleDN : DN := childDN "ou=people" dcDN.
Definition groupsDN : DN := childDN "ou=groups" dcDN.
Definition aliceDN : DN := childDN "cn=alice" peopleDN.
Definition ghostDN : DN := childDN "cn=ghost" peopleDN.
Definition adminsDN : DN := childDN "cn=admins" groupsDN.

Definition entryOf (dn : DN) : AddEntry := mkAddEntry dn [] [].

Definition known : list DN := [dcDN; peopleDN; groupsDN; aliceDN; ghostDN; adminsDN].

Definition normalize (s : string) : string + DN :=
  match List.find (fun d => bool_decide (DNNormStr d = s)) known with
  | Some d => inr d
  | None => inl "invalid DN"
  end.

(** ** For part_000 *)

Definition is_root_row (e : Part000.EntryRow) : bool :=
  bool_decide (Part000.entry_parent_id e = None).

Definition resolve (dn : option DN) (tb : Part000.Tables) : option Z :=
  match dn with
  | None => None
  | Some dn =>
      Part000.entry_id <$>
        List.find (fun e => bool_decide (Part000.entry_rdn_norm e = RDNNormStr dn)
                            && eqb (is_root_row e) (IsRoot dn)) (Part000.ldap_entry tb)
  end.

Definition part000 (fault : Part000.Site -> option DriverError) : Part000.Repository :=
  {| Part000.AddEntryToDBEntry := fun _ _ => inr (Part000.mkDBEntry "{}" "{}");
     Part000.createFindBasePathByDNSQL := fun dn _ => inr (resolve dn);
     Part000.fault := fault |}.

Definition healthy000 : Part000.Repository := part000 (fun _ => None).

Definition empty000 : Part000.Database :=
  Part000.mkDatabase (Part000.mkTables [] []) 1.

Definition after000 (r : Part000.Repository) (entry : AddEntry) (db : Part000.Database)
    : Part000.Database :=
  Part000.database_after (fst (Part000.Insert r entry db)).

(** dc=example (1), ou=people (2), cn=alice (3). *)
Definition directory000 : Part000.Database :=
  after000 healthy000 (entryOf aliceDN)
    (after000 healthy000 (entryOf peopleDN)
       (after000 healthy000 (entryOf dcDN) empty000)).

(** ** For repo_create.go *)

Definition repo (fault : RepoCreate.Site -> option DriverError) : RepoCreate.Repository :=
  {| RepoCreate.ROOT_ID := 0;
     RepoCreate.server_GetSuffix := "dc=example,dc=com";
     RepoCreate.server_NormalizeDN := normalize;
     RepoCreate.NormalizeDN := normalize;
     RepoCreate.AddEntryToDBEntry :=
       fun _ => inr (RepoCreate.mkDBEntry "uuid" "now" "now" "{}" "{}");
     RepoCreate.getDCDNOrig := fun tb =>
       match List.find (fun e => bool_decide (RepoCreate.entry_parent_id e = 0%Z))
               (RepoCreate.ldap_entry tb) with
       | Some e => inr (RepoCreate.mkDCRecord (RepoCreate.entry_id e) "dc=example,dc=com")
       | None => inl "no DC entry"
       end;
     RepoCreate.collectNodeNormByParentIDStmt := fun tb pid =>
       map (fun e => RepoCreate.mkNordNorm (RepoCreate.entry_id e)
                       (RepoCreate.entry_rdn_norm e +:+ ",dc=example,dc=com"))
         (List.filter (fun e => bool_decide (RepoCreate.entry_parent_id e = pid))
            (RepoCreate.ldap_entry tb));
     RepoCreate.fault := fault |}.

Definition healthy : RepoCreate.Repository := repo (fun _ => None).

Definition commit_fails : RepoCreate.Repository :=
  repo (fun site => match site with
                    | RepoCreate.SiteCommit => Some (ErrDriver "connection reset by peer")
                    | _ => None
                    end).

Definition empty : RepoCreate.Database :=
  RepoCreate.mkDatabase (RepoCreate.mkTables [] [] []) 1.

Definition after (r : RepoCreate.Repository) (entry : AddEntry) (db : RepoCreate.Database)
    : RepoCreate.Database :=
  RepoCreate.database_after (fst (RepoCreate.Insert r entry db)).

(** dc=example (1), ou=people (2), ou=groups (3), cn=alice (4). *)
Definition directory : RepoCreate.Database :=
  after healthy (entryOf aliceDN)
    (after healthy (entryOf groupsDN)
       (after healthy (entryOf peopleDN)
          (after healthy (entryOf dcDN) empty))).

(** cn=admins,ou=groups with one member that is an entry, ... *)
Definition admins_of_alice : AddEntry :=
  mkAddEntry adminsDN [mkMemberEntry "member" "cn=alice,ou=people,dc=example,dc=com"] [].

(** ... and with one member that is no entry of the directory. *)
Definition admins_of_ghost : AddEntry :=
  mkAddEntry adminsDN [mkMemberEntry "member" "cn=ghost,ou=people,dc=example,dc=com"] [].

(** ... and with cn=alice twice, as member and as owner. *)
Definition admins_of_alice_twice : AddEntry :=
  mkAddEntry adminsDN
    [mkMemberEntry "member" "cn=alice,ou=people,dc=example,dc=com";
     mkMemberEntry "owner" "cn=alice,ou=people,dc=example,dc=com"] [].

End Sample.

(** * What is to be shown: the notions the statements use *)

(** [steps R c]: whatever [c] returns, it moves the state along [R]. *)
Definition steps {S A : Type} (R : S -> S -> Prop) (c : M S A) : Prop :=
  forall s, R s (fst (c s)).

(** A computation that leaves the state alone. *)
Definition pure_in {S A : Type} (c : M S A) : Prop := forall s, fst (c s) = s.

(** [raises P c]: every error that [c] returns is one of [P]. *)
Definition raises {S A : Type} (P : error -> Prop) (c : M S A) : Prop :=
  forall s e, snd (c s) = Err e -> P e.

(** ** About part_000 *)
Module Part000Spec.
Import Part000.

(** The frame of a transaction: its snapshot and its status. *)
Definition same_frame (tx tx' : Tx) : Prop :=
  tx_begin tx' = tx_begin tx /\ tx_status tx' = tx_status tx.

(** The row that insertEntry adds, and the one that insertRootEntry adds. *)
Definition child_row (entry : AddEntry) (dbEntry : DBEntry) (id pid : Z) : EntryRow :=
  mkEntryRow id (Some pid) (entry_RDNNorm entry) (entry_RDNOrig entry)
    (AttrsNorm dbEntry) (AttrsOrig dbEntry).

Definition root_row (entry : AddEntry) (dbEntry : DBEntry) (id : Z) : EntryRow :=
  mkEntryRow id None (entry_RDNNorm entry) (entry_RDNOrig entry)
    (AttrsNorm dbEntry) (AttrsOrig dbEntry).

(** A transaction after one more entry, and after more TreeNode rows. *)
Definition with_entry (tx : Tx) (row : EntryRow) : Tx :=
  with_work tx (mkTables (ldap_entry (tx_work tx) ++ [row]) (ldap_tree (tx_work tx)))
    (tx_entry_seq tx + 1).

Definition with_tree_rows (tx : Tx) (rows : list TreeRow) : Tx :=
  with_work tx (mkTables (ldap_entry (tx_work tx)) (ldap_tree (tx_work tx) ++ rows))
    (tx_entry_seq tx).

(** The rows a promotion adds when the node has no TreeNode yet. *)
Definition promoted_rows (tb : Tables) (id : Z) (isRoot : bool) : list TreeRow :=
  if isRoot then [mkTreeRow id (pretty id)]
  else map (fun p => mkTreeRow id (tree_path p +:+ pretty id)) (parent_tree_rows tb id).

(** [Materialized tb id path]: the TreeNode row [(id, path)] is in the
    table, [id] is an entry, and [path] is the path of the TreeNode of its
    parent followed by [id], up to a root entry, whose path is its id. *)
Inductive Materialized (tb : Tables) : Z -> string -> Prop :=
  | Materialized_root e :
      e ∈ ldap_entry tb ->
      entry_parent_id e = None ->
      mkTreeRow (entry_id e) (pretty (entry_id e)) ∈ ldap_tree tb ->
      Materialized tb (entry_id e) (pretty (entry_id e))
  | Materialized_child e pid ppath :
      e ∈ ldap_entry tb ->
      entry_parent_id e = Some pid ->
      Materialized tb pid ppath ->
      mkTreeRow (entry_id e) (ppath +:+ pretty (entry_id e)) ∈ ldap_tree tb ->
      Materialized tb (entry_id e) (ppath +:+ pretty (entry_id e)).

(** The invariant: ids are below the sequence, [id] is a key of both
    tables, and every TreeNode row is materialized. *)
Record wf (tb : Tables) (seq : Z) : Prop := mk_wf {
  wf_fresh : forall e, e ∈ ldap_entry tb -> (entry_id e < seq)%Z;
  wf_entry_ids : NoDup (entry_id <$> ldap_entry tb);
  wf_tree_ids : NoDup (tree_id <$> ldap_tree tb);
  wf_paths : forall t, t ∈ ldap_tree tb -> Materialized tb (tree_id t) (tree_path t)
}.

(** It holds of the snapshot and of the working copy of a transaction, *)
Definition tx_wf (tx : Tx) : Prop :=
  wf (tx_begin tx) (tx_entry_seq tx) /\ wf (tx_work tx) (tx_entry_seq tx).

(** The collaborator that resolves the DN of the parent answers a root DN
    with a root entry of the table. *)
Definition root_resolves_to_root (r : Repository) : Prop :=
  forall pdn opt q tb pid,
    createFindBasePathByDNSQL r (Some pdn) opt = inr q ->
    q tb = Some pid ->
    IsRoot pdn = true ->
    exists e, e ∈ ldap_entry tb /\ entry_id e = pid /\ entry_parent_id e = None.

(** and of a database. *)
Definition db_wf (db : Database) : Prop := wf (db_tables db) (db_entry_seq db).

(** The databases that calls of [Insert] build from an empty one. *)
Inductive reachable (r : Repository) : Database -> Prop :=
  | reachable_empty seq : reachable r (mkDatabase (mkTables [] []) seq)
  | reachable_Insert db entry :
      reachable r db -> reachable r (database_after (fst (Insert r entry db))).

(** What the invariant says about one entry and its TreeNode. *)
Definition path_of_parent (tb : Tables) (e : EntryRow) (t : TreeRow) : Prop :=
  match entry_parent_id e with
  | None => tree_path t = pretty (entry_id e)
  | Some pid =>
      exists pt, pt ∈ ldap_tree tb /\ tree_id pt = pid
                 /\ tree_path t = tree_path pt +:+ pretty (entry_id e)
  end.

(** The number of TreeNode rows of a node. *)
Definition count_tree (tb : Tables) (id : Z) : nat :=
  length (filter (fun t => tree_id t = id) (ldap_tree tb)).

(** No two entries without a parent carry the same rdn_norm. *)
Definition roots_unique (tb : Tables) : Prop :=
  NoDup (entry_rdn_norm <$> filter (fun e => entry_parent_id e = None) (ldap_entry tb)).

Definition tx_roots_unique (tx : Tx) : Prop :=
  roots_unique (tx_begin tx) /\ roots_unique (tx_work tx).

(** The relation "if [P] held before, it holds after". *)
Definition keeps (P : Tx -> Prop) (tx tx' : Tx) : Prop := P tx -> P tx'.

(** The refusals of the guards at the head of the three insert functions. *)
Definition guard_not_root : error := Errorf "Invalid entry, it should not be root DN.".
Definition guard_root : error := Errorf "Invalid entry, it should be root DN.".

(** The step that part_000's insertWithTx runs before it commits. *)
Definition dispatch000 (r : Part000.Repository) (entry : AddEntry) : M Part000.Tx Z :=
  if IsRoot (entry_DN entry) then Part000.insertRootEntry r entry
  else ids <- Part000.insertEntryAndTree r entry ;; ret (fst ids).

(** ** Further notions: siblings, promotion, growth *)

(** What must not repeat among the entries: the parent and the rdn_norm. *)
Definition sibling_key (e : EntryRow) : option Z * string :=
  (entry_parent_id e, entry_rdn_norm e).

Definition siblings_unique (tb : Tables) : Prop :=
  NoDup (sibling_key <$> ldap_entry tb).

(** Every TreeNode belongs to a node with a child, *)
Definition promoted_have_children (tb : Tables) : Prop :=
  forall t, t ∈ ldap_tree tb ->
    exists c, c ∈ ldap_entry tb /\ entry_parent_id c = Some (tree_id t).

(** and every node with a child has a TreeNode. *)
Definition parents_promoted (tb : Tables) : Prop :=
  forall c pid, c ∈ ldap_entry tb -> entry_parent_id c = Some pid ->
    exists t, t ∈ ldap_tree tb /\ tree_id t = pid.

(** The collaborator that resolves the DN of the parent answers with an
    entry of the table, and with one that has a parent when the DN is not
    the root. *)
Definition child_resolves_to_child (r : Repository) : Prop :=
  forall pdn opt q tb pid,
    createFindBasePathByDNSQL r (Some pdn) opt = inr q ->
    q tb = Some pid ->
    IsRoot pdn = false ->
    exists e g, e ∈ ldap_entry tb /\ entry_id e = pid /\ entry_parent_id e = Some g.

(** The tables after a child went in under [pid] and [pid] was promoted. *)
Definition tables_after_child (tb : Tables) (row : EntryRow) (pid : Z) (isRoot : bool)
    : Tables :=
  let tb1 := mkTables (ldap_entry tb ++ [row]) (ldap_tree tb) in
  if tree_exists tb1 pid then tb1
  else mkTables (ldap_entry tb1) (ldap_tree tb1 ++ promoted_rows tb1 pid isRoot).

(** [tb'] has the rows of [tb], in their place, and maybe more after them. *)
Definition extends (tb tb' : Tables) : Prop :=
  ldap_entry tb `prefix_of` ldap_entry tb' /\ ldap_tree tb `prefix_of` ldap_tree tb'.

(** The sequence of ids does not go back. *)
Definition seq_le (tx tx' : Tx) : Prop := (tx_entry_seq tx <= tx_entry_seq tx')%Z.

(** The errors of the taxonomy that part_000 has no statement for. *)
Definition foreign_error (e : error) : Prop :=
  e = NoSuchObject \/ e = InvalidDNSyntax.

Definition not_foreign (e : error) : Prop := ~ foreign_error e.

End Part000Spec.

(** ** About repo_create.go *)
Module RepoCreateSpec.
Import RepoCreate.

(** The frame of a transaction: its snapshot and its status. *)
Definition same_frame (tx tx' : Tx) : Prop :=
  tx_begin tx' = tx_begin tx /\ tx_status tx' = tx_status tx.

(** The slices that insertMember hands to insertSubMembers, in order. *)
Definition memberBatches {A : Type} (members : list A) : list (list A) :=
  let max := 100 in
  let gcount := length members / max in
  let remain := length members mod max in
  map (fun i => RepoCreate.slice members (i * max) (i * max + max)) (seq 0 gcount)
  ++ (if 0 <? remain
      then [RepoCreate.slice members (gcount * max) (gcount * max + remain)]
      else []).

(** insertMember with its two loops read as one loop over the batches. *)
Definition insertMember_by_batches (r : RepoCreate.Repository) (subjectID : Z)
    (entry : AddEntry) : M RepoCreate.Tx unit :=
  let members := entry_Member entry in
  if length members =? 0 then ret tt
  else
    dc <- (fun tx => (tx, external (RepoCreate.getDCDNOrig r (RepoCreate.tx_work tx)))) ;;
    let dnIDCache : gmap string Z := <[RepoCreate.dc_DNOrig dc := RepoCreate.dc_ID dc]> ∅ in
    nodeNorms <- RepoCreate.collectNodeNormByParentID r (RepoCreate.dc_ID dc) ;;
    let dnIDCache :=
      foldl (fun cache node => <[RepoCreate.node_DNNorm node := RepoCreate.node_ID node]> cache)
        dnIDCache nodeNorms in
    _ <- forM_ (memberBatches members) (fun m =>
           discard (RepoCreate.insertSubMembers r subjectID (entry_DN entry) m dnIDCache)) ;;
    ret tt.

(** ** Further notions: growth, edges, what can be found *)

(** [tb'] has the rows of [tb], in their place, and maybe more after them. *)
Definition extends (tb tb' : Tables) : Prop :=
  ldap_entry tb `prefix_of` ldap_entry tb'
  /\ ldap_tree tb `prefix_of` ldap_tree tb'
  /\ ldap_member tb `prefix_of` ldap_member tb'.

(** The working copy grows and the sequence does not go back. *)
Definition grows (tx tx' : Tx) : Prop :=
  extends (tx_work tx) (tx_work tx') /\ (tx_entry_seq tx <= tx_entry_seq tx')%Z.

(** ldap_tree is left as it is. *)
Definition same_tree (tx tx' : Tx) : Prop :=
  ldap_tree (tx_work tx') = ldap_tree (tx_work tx).

(** A reference that the first loop of insertSubMembers gets through: its
    DN normalizes and the DN of its parent is in the cache. *)
Definition member_resolves (r : Repository) (dnIDCache : gmap string Z) (m : MemberEntry)
    (key : Z * string) : Prop :=
  exists dn parent,
    server_NormalizeDN r (MemberOfDNNorm m) = inr dn
    /\ ParentDN dn = Some parent
    /\ dnIDCache !! DNNormStr parent = Some (fst key)
    /\ snd key = RDNNormStr dn.

(** A row of ldap_member as a batch writes it: from the subject, to an
    entry of the table, under the attribute of one of the references. *)
Definition edge_of (subjectID : Z) (members : list MemberEntry) (tb : Tables)
    (row : MemberRow) : Prop :=
  member_subject_id row = subjectID
  /\ (exists e, e ∈ ldap_entry tb /\ entry_id e = member_object_id row)
  /\ (exists m, m ∈ members /\ AttrNameNorm m = member_attr_name_norm row).

(** Nothing but such rows is added. *)
Definition only_edges (subjectID : Z) (members : list MemberEntry) (tx tx' : Tx) : Prop :=
  ldap_entry (tx_work tx') = ldap_entry (tx_work tx)
  /\ ldap_tree (tx_work tx') = ldap_tree (tx_work tx)
  /\ tx_entry_seq tx' = tx_entry_seq tx
  /\ exists edges,
       ldap_member (tx_work tx') = ldap_member (tx_work tx) ++ edges
       /\ Forall (edge_of subjectID members (tx_work tx)) edges.

(** The databases that calls of [Insert] build from an empty one. *)
Inductive reachable (r : Repository) : Database -> Prop :=
  | reachable_empty seq : reachable r (mkDatabase (mkTables [] [] []) seq)
  | reachable_Insert db entry :
      reachable r db -> reachable r (database_after (fst (Insert r entry db))).

(** Every row of ldap_tree belongs to an entry directly under [ROOT_ID]. *)
Definition tree_only_dc (r : Repository) (tb : Tables) : Prop :=
  forall t, t ∈ ldap_tree tb ->
    exists e, e ∈ ldap_entry tb /\ entry_id e = tree_id t
              /\ entry_parent_id e = ROOT_ID r.

(** The errors of the taxonomy that no statement of repo_create.go lets
    out of Insert. *)
Definition kept_in (e : error) : Prop := e = Unavailable \/ e = InvalidDNSyntax.

Definition lets_out (e : error) : Prop := ~ kept_in e.

(** The row that the three inserts into ldap_entry write. *)
Definition new_row (entry : AddEntry) (dbEntry : DBEntry) (id pid : Z) : EntryRow :=
  mkEntryRow id pid (entry_RDNNorm entry) (entry_RDNOrig entry) (EntryUUID dbEntry)
    (Created dbEntry) (Updated dbEntry) (AttrsNorm dbEntry) (AttrsOrig dbEntry).

(** The first entry directly under [ROOT_ID], the one that both
    findDCDBEntryRecord and the insert under the domain component pick. *)
Definition first_dc (r : Repository) (tb : Tables) : option EntryRow :=
  head (filter (fun e => entry_parent_id e = ROOT_ID r) (ldap_entry tb)).

(** What a record that findDBEntryRecord hands back for [dn] stands for:
    an entry of the table, the first one under [ROOT_ID] when [dn] is the
    domain component, and else one of the rdn_norm of [dn] whose parent has
    a row in ldap_tree. *)
Definition found_for (r : Repository) (tb : Tables) (dn : DN) (rec : DBEntryRecord) : Prop :=
  exists e, e ∈ ldap_entry tb /\ entry_id e = ID rec
    /\ if IsDC dn then first_dc r tb = Some e
       else entry_rdn_norm e = RDNNormStr dn
            /\ ParentID rec = entry_parent_id e
            /\ exists pt, pt ∈ ldap_tree tb /\ tree_id pt = entry_parent_id e.

(** [id] is the id of an entry directly under [ROOT_ID]. *)
Definition dc_level (r : Repository) (tb : Tables) (id : Z) : Prop :=
  exists e, e ∈ ldap_entry tb /\ entry_id e = id /\ entry_parent_id e = ROOT_ID r.

(** An entry directly under [ROOT_ID], or one or two levels below such an
    entry. *)
Definition shallow (r : Repository) (tb : Tables) (e : EntryRow) : Prop :=
  entry_parent_id e = ROOT_ID r
  \/ dc_level r tb (entry_parent_id e)
  \/ exists p, p ∈ ldap_entry tb /\ entry_id p = entry_parent_id e
               /\ dc_level r tb (entry_parent_id p).

(** Both ends of a row of ldap_member are entries. *)
Definition between_entries (tb : Tables) (m : MemberRow) : Prop :=
  (exists e, e ∈ ldap_entry tb /\ entry_id e = member_subject_id m)
  /\ (exists e, e ∈ ldap_entry tb /\ entry_id e = member_object_id m).

(** What holds of the tables of every database that Insert builds. *)
Definition db_inv (r : Repository) (tb : Tables) : Prop :=
  tree_only_dc r tb
  /\ (forall e, e ∈ ldap_entry tb -> shallow r tb e)
  /\ (forall m, m ∈ ldap_member tb -> between_entries tb m).

(** What insertWithTx has done when it returns the id [id]. *)
Definition inserted (r : Repository) (entry : AddEntry) (tx tx1 : Tx) (id : Z) : Prop :=
  exists dbEntry pid trees edges,
    id = tx_entry_seq tx
    /\ tx_entry_seq tx1 = (id + 1)%Z
    /\ tx_work tx1
       = mkTables (ldap_entry (tx_work tx) ++ [new_row entry dbEntry id pid])
           (ldap_tree (tx_work tx) ++ trees) (ldap_member (tx_work tx) ++ edges)
    /\ sibling_exists (tx_work tx) pid (entry_RDNNorm entry) = false
    /\ if entry_IsDC entry
       then pid = ROOT_ID r /\ edges = []
            /\ (forall t, t ∈ trees -> t = mkTreeRow id "/" "")
       else trees = []
            /\ Forall (edge_of id (entry_Member entry)
                         (add_entry (tx_work tx) (new_row entry dbEntry id pid))) edges
            /\ exists pdn rec,
                 ParentDN (entry_DN entry) = Some pdn
                 /\ found_for r (tx_work tx) pdn rec /\ pid = ID rec.

End RepoCreateSpec.

(** * Reasoning about computations *)

Lemma steps_ret {S A : Type} (R : S -> S -> Prop) (a : A) :
  Reflexive R -> steps R (ret a).
Proof. intros HR s. apply HR. Qed.

Lemma steps_fail {S A : Type} (R : S -> S -> Prop) (e : error) :
  Reflexive R -> steps R (fail (A := A) e).
Proof. intros HR s. apply HR. Qed.

Lemma steps_lift {S A : Type} (R : S -> S -> Prop) (o : outcome A) :
  Reflexive R -> steps R (lift o).
Proof. intros HR s. apply HR. Qed.

Lemma steps_deref {S A : Type} (R : S -> S -> Prop) (p : option A) :
  Reflexive R -> steps R (deref p).
Proof. intros HR s. destruct p; apply HR. Qed.

Lemma steps_bind {S A B : Type} (R : S -> S -> Prop) (c : M S A) (k : A -> M S B) :
  Transitive R -> steps R c -> (forall a, steps R (k a)) -> steps R (bind c k).
Proof.
  intros HT Hc Hk s. unfold bind. specialize (Hc s).
  destruct (c s) as [s' [a | e | msg]]; simpl in *; auto.
  eapply HT; [exact Hc | apply Hk].
Qed.

Lemma steps_discard {S A : Type} (R : S -> S -> Prop) (c : M S A) :
  steps R c -> steps R (discard c).
Proof.
  intros Hc s. unfold discard. specialize (Hc s).
  destruct (c s) as [s' [a | e | msg]]; simpl in *; auto.
Qed.

Lemma steps_forM_ {S A : Type} (R : S -> S -> Prop) (xs : list A) (body : A -> M S unit) :
  Reflexive R -> Transitive R -> (forall x, steps R (body x)) -> steps R (forM_ xs body).
Proof.
  intros HR HT Hb. induction xs as [| x xs IH]; simpl.
  - apply steps_ret, HR.
  - apply steps_bind; auto.
Qed.

Lemma pure_in_steps {S A : Type} (R : S -> S -> Prop) (c : M S A) :
  Reflexive R -> pure_in c -> steps R c.
Proof. intros HR Hc s. rewrite Hc. apply HR. Qed.

Ltac unfold_monad :=
  unfold bind, ret, fail, lift, deref, discard, external in *.

(** * part_000: the shape of every outcome *)
Module Part000Facts.
Import Part000 Part000Spec.

#[export] Instance same_frame_refl : Reflexive same_frame.
Proof. intros tx. split; reflexivity. Qed.

#[export] Instance same_frame_trans : Transitive same_frame.
Proof. intros a b c [H1 H2] [H3 H4]. split; congruence. Qed.

Lemma driver_call_pure r site msg : pure_in (driver_call r site msg).
Proof. intros tx. unfold driver_call. destruct (fault r site); reflexivity. Qed.

Lemma steps_queryx {Row : Type} (R : Tx -> Tx -> Prop) r site msg (stmt : Tx -> Tx * list Row) :
  Reflexive R -> (forall tx, R tx (fst (stmt tx))) -> steps R (queryx r site msg stmt).
Proof.
  intros HR Hs tx. unfold queryx. destruct (fault r site).
  - apply HR.
  - specialize (Hs tx). destruct (stmt tx). exact Hs.
Qed.

Lemma insertEntryStmt_frame q rn ro an ao tx :
  same_frame tx (fst (insertEntryStmt q rn ro an ao tx)).
Proof.
  unfold insertEntryStmt. destruct (q (tx_work tx)); [| by split].
  destruct (sibling_exists _ _ _); by split.
Qed.

Lemma insertRootEntryStmt_frame rn ro an ao tx :
  same_frame tx (fst (insertRootEntryStmt rn ro an ao tx)).
Proof. unfold insertRootEntryStmt. destruct (root_exists _ _); by split. Qed.

Lemma insertRootTreeStmt_frame id tx : same_frame tx (fst (insertRootTreeStmt id tx)).
Proof. unfold insertRootTreeStmt. destruct (tree_exists _ _); by split. Qed.

Lemma insertChildTreeStmt_frame id tx : same_frame tx (fst (insertChildTreeStmt id tx)).
Proof. unfold insertChildTreeStmt. destruct (tree_exists _ _); by split. Qed.

Lemma mapper_pure r entry :
  pure_in (fun tx : Tx => (tx, external (AddEntryToDBEntry r (tx_work tx) entry))).
Proof. intros tx. reflexivity. Qed.

Lemma insertEntry_steps (R : Tx -> Tx -> Prop) r entry :
  Reflexive R -> Transitive R ->
  (forall q rn ro an ao tx, R tx (fst (insertEntryStmt q rn ro an ao tx))) ->
  steps R (insertEntry r entry).
Proof.
  intros HR HT Hs. unfold insertEntry.
  destruct (IsRoot (entry_DN entry)); [apply steps_fail, HR |].
  apply steps_bind; [exact HT | apply pure_in_steps; [exact HR | apply mapper_pure] |].
  intros dbEntry. apply steps_bind; [exact HT | |].
  { destruct (createFindBasePathByDNSQL _ _ _); [apply steps_fail | apply steps_ret]; exact HR. }
  intros q. apply steps_bind; [exact HT | apply pure_in_steps; [exact HR | apply driver_call_pure] |].
  intros _. apply steps_bind; [exact HT | apply steps_queryx; [exact HR | intros; apply Hs] |].
  intros [| [id pid] rows]; [apply steps_fail, HR |].
  apply steps_bind; [exact HT | apply pure_in_steps; [exact HR | apply driver_call_pure] |].
  intros _. apply steps_ret, HR.
Qed.

Lemma insertRootEntry_steps (R : Tx -> Tx -> Prop) r entry :
  Reflexive R -> Transitive R ->
  (forall rn ro an ao tx, R tx (fst (insertRootEntryStmt rn ro an ao tx))) ->
  steps R (insertRootEntry r entry).
Proof.
  intros HR HT Hs. unfold insertRootEntry.
  destruct (negb (IsRoot (entry_DN entry))); [apply steps_fail, HR |].
  apply steps_bind; [exact HT | apply pure_in_steps; [exact HR | apply mapper_pure] |].
  intros dbEntry.
  apply steps_bind; [exact HT | apply pure_in_steps; [exact HR | apply driver_call_pure] |].
  intros _. apply steps_bind; [exact HT | apply steps_queryx; [exact HR | intros; apply Hs] |].
  intros [| id rows]; [apply steps_fail, HR |].
  apply steps_bind; [exact HT | apply pure_in_steps; [exact HR | apply driver_call_pure] |].
  intros _. apply steps_ret, HR.
Qed.

Lemma insertTree_steps (R : Tx -> Tx -> Prop) r id isRoot :
  Reflexive R -> Transitive R ->
  (forall tx, R tx (fst (insertRootTreeStmt id tx))) ->
  (forall tx, R tx (fst (insertChildTreeStmt id tx))) ->
  steps R (insertTree r id isRoot).
Proof.
  intros HR HT Hroot Hchild. unfold insertTree.
  apply steps_bind; [exact HT | apply pure_in_steps; [exact HR | apply driver_call_pure] |].
  intros _. apply steps_bind; [exact HT | |].
  { apply steps_queryx; [exact HR |]. destruct isRoot; assumption. }
  intros [| row rows]; [apply steps_ret, HR |].
  apply pure_in_steps; [exact HR | apply driver_call_pure].
Qed.

Lemma insertEntryAndTree_frame r entry : steps same_frame (insertEntryAndTree r entry).
Proof.
  unfold insertEntryAndTree.
  destruct (IsRoot (entry_DN entry)); [apply steps_fail; typeclasses eauto |].
  apply steps_bind; [typeclasses eauto | |].
  { apply insertEntry_steps; try typeclasses eauto. apply insertEntryStmt_frame. }
  intros [newID parentId].
  apply steps_bind; [typeclasses eauto | apply steps_deref; typeclasses eauto |].
  intros parentDN. apply steps_bind; [typeclasses eauto | |].
  { apply insertTree_steps; try typeclasses eauto.
    - apply insertRootTreeStmt_frame.
    - apply insertChildTreeStmt_frame. }
  intros _. apply steps_ret. typeclasses eauto.
Qed.

Lemma insertRootEntry_frame r entry : steps same_frame (insertRootEntry r entry).
Proof.
  apply insertRootEntry_steps; try typeclasses eauto. apply insertRootEntryStmt_frame.
Qed.

(** ** What each function can have done to the tables *)

Lemma insertEntry_cases r entry tx :
  (fst (insertEntry r entry tx) = tx /\ forall v, snd (insertEntry r entry tx) <> Ok v)
  \/ exists q pid dbEntry,
       IsRoot (entry_DN entry) = false /\
       createFindBasePathByDNSQL r (entry_ParentDN entry) {| Lock := true |} = inr q /\
       q (tx_work tx) = Some pid /\
       sibling_exists (tx_work tx) pid (entry_RDNNorm entry) = false /\
       fst (insertEntry r entry tx)
         = with_entry tx (child_row entry dbEntry (tx_entry_seq tx) pid) /\
       (snd (insertEntry r entry tx) = Ok (tx_entry_seq tx, pid)
        \/ exists e, snd (insertEntry r entry tx) = Err e).
Proof.
  unfold insertEntry, driver_call, queryx, insertEntryStmt. unfold_monad.
  destruct (IsRoot (entry_DN entry)) eqn:Hroot; [left; split; [done | discriminate] |].
  destruct (AddEntryToDBEntry r (tx_work tx) entry) as [msg | dbEntry];
    [left; split; [done | discriminate] |].
  destruct (createFindBasePathByDNSQL r (entry_ParentDN entry) _) as [msg | q] eqn:Hq;
    [left; split; [done | discriminate] |].
  destruct (fault r SitePrepareInsertEntry); [left; split; [done | discriminate] |].
  destruct (fault r SiteQueryInsertEntry); [left; split; [done | discriminate] |].
  destruct (q (tx_work tx)) as [pid |] eqn:Hpid; [| left; split; [done | discriminate]].
  destruct (sibling_exists (tx_work tx) pid (entry_RDNNorm entry)) eqn:Hsib;
    [left; split; [done | discriminate] |].
  right. exists q, pid, dbEntry. simpl.
  destruct (fault r SiteScanInsertEntry); simpl; eauto 10.
Qed.

Lemma insertRootEntry_cases r entry tx :
  (fst (insertRootEntry r entry tx) = tx /\ forall v, snd (insertRootEntry r entry tx) <> Ok v)
  \/ exists dbEntry,
       IsRoot (entry_DN entry) = true /\
       root_exists (tx_work tx) (entry_RDNNorm entry) = false /\
       fst (insertRootEntry r entry tx)
         = with_entry tx (root_row entry dbEntry (tx_entry_seq tx)) /\
       (snd (insertRootEntry r entry tx) = Ok (tx_entry_seq tx)
        \/ exists e, snd (insertRootEntry r entry tx) = Err e).
Proof.
  unfold insertRootEntry, driver_call, queryx, insertRootEntryStmt. unfold_monad.
  destruct (IsRoot (entry_DN entry)) eqn:Hroot; simpl; [| left; split; [done | discriminate]].
  destruct (AddEntryToDBEntry r (tx_work tx) entry) as [msg | dbEntry];
    [left; split; [done | discriminate] |].
  destruct (fault r SitePrepareInsertRoot); [left; split; [done | discriminate] |].
  destruct (fault r SiteQueryInsertRoot); [left; split; [done | discriminate] |].
  destruct (root_exists (tx_work tx) (entry_RDNNorm entry)) eqn:Hex;
    [left; split; [done | discriminate] |].
  right. exists dbEntry. simpl.
  destruct (fault r SiteScanInsertRoot); simpl; eauto 10.
Qed.

Lemma insertTree_cases r id isRoot tx :
  (fst (insertTree r id isRoot tx) = tx)
  \/ (tree_exists (tx_work tx) id = false /\
      fst (insertTree r id isRoot tx)
        = with_tree_rows tx (promoted_rows (tx_work tx) id isRoot)).
Proof.
  unfold insertTree, driver_call, queryx, promoted_rows. unfold_monad.
  destruct (fault r SitePrepareInsertTree); [by left |].
  destruct (fault r SiteQueryInsertTree); [by left |].
  destruct isRoot; unfold insertRootTreeStmt, insertChildTreeStmt;
    destruct (tree_exists (tx_work tx) id) eqn:Hex; try (by left); right; split; try done.
  - destruct (fault r SiteScanInsertTree); reflexivity.
  - simpl. destruct (map _ (map _ _)); [reflexivity |].
    destruct (fault r SiteScanInsertTree); reflexivity.
Qed.

(** Without a failure of the driver, promotion returns no error. *)
Lemma insertTree_ok r id isRoot tx :
  fault r SitePrepareInsertTree = None ->
  fault r SiteQueryInsertTree = None ->
  fault r SiteScanInsertTree = None ->
  snd (insertTree r id isRoot tx) = Ok tt.
Proof.
  intros H1 H2 H3. unfold insertTree, driver_call, queryx. unfold_monad.
  rewrite H1, H2.
  destruct isRoot; unfold insertRootTreeStmt, insertChildTreeStmt;
    destruct (tree_exists (tx_work tx) id); simpl; try reflexivity.
  - by rewrite H3.
  - destruct (map _ (map _ _)); [reflexivity |]. by rewrite H3.
Qed.

(** ** Keys *)

Lemma NoDup_fmap_eq {A B : Type} (f : A -> B) (l : list A) (x y : A) :
  NoDup (f <$> l) -> x ∈ l -> y ∈ l -> f x = f y -> x = y.
Proof.
  induction l as [| a l IH]; intros Hnd Hx Hy Hf; [by apply elem_of_nil in Hx |].
  rewrite fmap_cons in Hnd. apply NoDup_cons in Hnd as [Hna Hnd].
  apply elem_of_cons in Hx as [-> | Hx]; apply elem_of_cons in Hy as [-> | Hy]; auto.
  - exfalso. apply Hna. rewrite Hf. by apply list_elem_of_fmap_2.
  - exfalso. apply Hna. rewrite <- Hf. by apply list_elem_of_fmap_2.
Qed.

Lemma existsb_false_forall {A : Type} (f : A -> bool) (l : list A) (x : A) :
  existsb f l = false -> x ∈ l -> f x = false.
Proof.
  intros Hex Hx. destruct (f x) eqn:Hfx; [| reflexivity].
  assert (existsb f l = true) as Hex'; [| congruence].
  apply existsb_exists. exists x. split; [by apply list_elem_of_In | exact Hfx].
Qed.

Lemma existsb_true_intro {A : Type} (f : A -> bool) (l : list A) (x : A) :
  x ∈ l -> f x = true -> existsb f l = true.
Proof. intros Hx Hfx. apply existsb_exists. exists x. split; [by apply list_elem_of_In | exact Hfx]. Qed.

Lemma tree_exists_false tb id t :
  tree_exists tb id = false -> t ∈ ldap_tree tb -> tree_id t <> id.
Proof.
  intros Hex Ht Heq. eapply existsb_false_forall in Hex; [| exact Ht].
  simpl in Hex. by rewrite bool_decide_eq_true_2 in Hex.
Qed.

(** The rows of the sub-select of the child promotion: tree rows of the
    parent of the entry [id]. *)
Lemma elem_of_parent_tree_rows tb id p :
  p ∈ parent_tree_rows tb id <->
  p ∈ ldap_tree tb /\
  exists e, e ∈ ldap_entry tb /\ entry_id e = id /\ entry_parent_id e = Some (tree_id p).
Proof.
  unfold parent_tree_rows. rewrite list_elem_of_bind. split.
  - intros (t & Hin & Ht). apply list_elem_of_bind in Hin as (e & Hin & He).
    destruct (bool_decide (entry_id e = id)) eqn:H1; simpl in Hin;
      [| by apply elem_of_nil in Hin].
    destruct (bool_decide (entry_parent_id e = Some (tree_id t))) eqn:H2; simpl in Hin;
      [| by apply elem_of_nil in Hin].
    apply list_elem_of_singleton in Hin as ->.
    apply bool_decide_eq_true_1 in H1. apply bool_decide_eq_true_1 in H2. eauto.
  - intros (Hp & e & He & H1 & H2). exists p. split; [| exact Hp].
    apply list_elem_of_bind. exists e. split; [| exact He].
    rewrite !bool_decide_eq_true_2 by assumption. simpl. by apply list_elem_of_singleton.
Qed.

Lemma bind_nil_forall {A B : Type} (f : A -> list B) (l : list A) :
  (forall x, x ∈ l -> f x = []) -> l ≫= f = [].
Proof.
  induction l as [| a l IH]; intros H; [reflexivity |].
  rewrite bind_cons, (H a) by apply list_elem_of_here. simpl.
  apply IH. intros x Hx. apply H. by apply list_elem_of_further.
Qed.

Lemma parent_tree_rows_length tb id :
  NoDup (entry_id <$> ldap_entry tb) -> NoDup (tree_id <$> ldap_tree tb) ->
  length (parent_tree_rows tb id) <= 1.
Proof.
  intros Hne Hnt.
  pose (inner := fun t : TreeRow =>
    ldap_entry tb ≫= (fun e =>
      if bool_decide (entry_id e = id) && bool_decide (entry_parent_id e = Some (tree_id t))
      then [t] else [])).
  assert (Hinner_len : forall t, length (inner t) <= 1).
  { intros t. unfold inner. clear Hnt inner.
    induction (ldap_entry tb) as [| e l IH]; [simpl; lia |].
    rewrite fmap_cons in Hne. apply NoDup_cons in Hne as [Hna Hne].
    rewrite bind_cons, length_app.
    destruct (bool_decide (entry_id e = id)) eqn:H1; simpl; [| by apply IH].
    apply bool_decide_eq_true_1 in H1.
    rewrite bind_nil_forall.
    - destruct (bool_decide _); simpl; lia.
    - intros x Hx. rewrite bool_decide_eq_false_2; [reflexivity |].
      intros Hid. apply Hna. rewrite H1, <- Hid. by apply list_elem_of_fmap_2. }
  assert (Hinner_in : forall t, inner t <> [] ->
            exists e, e ∈ ldap_entry tb /\ entry_id e = id
                      /\ entry_parent_id e = Some (tree_id t)).
  { intros t Hn. destruct (inner t) as [| x l] eqn:Hx; [done |].
    assert (x ∈ inner t) as Hin by (rewrite Hx; apply list_elem_of_here).
    unfold inner in Hin. apply list_elem_of_bind in Hin as (e & Hin & He).
    destruct (bool_decide (entry_id e = id)) eqn:H1; simpl in Hin;
      [| by apply elem_of_nil in Hin].
    destruct (bool_decide (entry_parent_id e = Some (tree_id t))) eqn:H2; simpl in Hin;
      [| by apply elem_of_nil in Hin].
    apply bool_decide_eq_true_1 in H1. apply bool_decide_eq_true_1 in H2. eauto. }
  change (length (ldap_tree tb ≫= inner) <= 1).
  clearbody inner.
  induction (ldap_tree tb) as [| t l IH]; [simpl; lia |].
  rewrite fmap_cons in Hnt. apply NoDup_cons in Hnt as [Hna Hnt].
  rewrite bind_cons, length_app.
  destruct (inner t) as [| x k] eqn:Hx; [simpl; by apply IH |].
  rewrite bind_nil_forall.
  - specialize (Hinner_len t). rewrite Hx in Hinner_len. simpl in *. lia.
  - intros t' Ht'. destruct (inner t') as [| x' k'] eqn:Hx'; [reflexivity |].
    exfalso.
    destruct (Hinner_in t) as (e & He & Hid & Hp); [by rewrite Hx |].
    destruct (Hinner_in t') as (e' & He' & Hid' & Hp'); [by rewrite Hx' |].
    assert (e = e') as <- by (eapply NoDup_fmap_eq; eauto; congruence).
    apply Hna. replace (tree_id t) with (tree_id t') by congruence.
    by apply list_elem_of_fmap_2.
Qed.

(** ** The invariant of the tables *)

Lemma Materialized_in_tree tb id path :
  Materialized tb id path -> mkTreeRow id path ∈ ldap_tree tb.
Proof. destruct 1; assumption. Qed.

Lemma Materialized_mono tb tb' id path :
  (forall e, e ∈ ldap_entry tb -> e ∈ ldap_entry tb') ->
  (forall t, t ∈ ldap_tree tb -> t ∈ ldap_tree tb') ->
  Materialized tb id path -> Materialized tb' id path.
Proof.
  intros He Ht. induction 1.
  - apply Materialized_root; auto.
  - eapply Materialized_child; eauto.
Qed.

Lemma wf_seq_mono tb seq seq' : (seq <= seq')%Z -> wf tb seq -> wf tb seq'.
Proof.
  intros Hle [H1 H2 H3 H4]. split; auto.
  intros e He. specialize (H1 e He). lia.
Qed.

Lemma wf_add_entry tb seq row :
  entry_id row = seq -> wf tb seq ->
  wf (mkTables (ldap_entry tb ++ [row]) (ldap_tree tb)) (seq + 1).
Proof.
  intros Hid [H1 H2 H3 H4]. split; simpl.
  - intros e He. apply elem_of_app in He as [He | He].
    + specialize (H1 e He). lia.
    + apply list_elem_of_singleton in He as ->. lia.
  - rewrite fmap_app. apply NoDup_app. split; [exact H2 |]. split; [| apply NoDup_singleton].
    intros x Hx Hx'. simpl in Hx'. apply list_elem_of_singleton in Hx' as ->.
    apply list_elem_of_fmap_1 in Hx as (e & Heq & He). specialize (H1 e He). lia.
  - exact H3.
  - intros t Ht. eapply Materialized_mono; [| | apply H4; exact Ht]; simpl; auto.
    intros e He. apply elem_of_app. by left.
Qed.

Lemma promoted_rows_id tb id isRoot t :
  t ∈ promoted_rows tb id isRoot -> tree_id t = id.
Proof.
  intros Ht. unfold promoted_rows in Ht. destruct isRoot.
  - by apply list_elem_of_singleton in Ht as ->.
  - apply list_elem_of_fmap_1 in Ht as (p & -> & _). reflexivity.
Qed.

Lemma promoted_rows_length tb id isRoot :
  NoDup (entry_id <$> ldap_entry tb) -> NoDup (tree_id <$> ldap_tree tb) ->
  length (promoted_rows tb id isRoot) <= 1.
Proof.
  intros Hne Hnt. unfold promoted_rows. destruct isRoot; [simpl; lia |].
  rewrite length_map. by apply parent_tree_rows_length.
Qed.

(** The conditional insert keeps [id] a key of ldap_tree. *)
Lemma NoDup_promoted tb id isRoot :
  NoDup (entry_id <$> ldap_entry tb) -> NoDup (tree_id <$> ldap_tree tb) ->
  tree_exists tb id = false ->
  NoDup (tree_id <$> (ldap_tree tb ++ promoted_rows tb id isRoot)).
Proof.
  intros Hne Hnt Hex. pose proof (promoted_rows_length tb id isRoot Hne Hnt) as Hlen.
  rewrite fmap_app. apply NoDup_app. split; [exact Hnt |]. split.
  - intros x Hx Hx'. apply list_elem_of_fmap_1 in Hx as (t & -> & Ht).
    apply list_elem_of_fmap_1 in Hx' as (t' & Heq & Ht').
    apply promoted_rows_id in Ht'. eapply tree_exists_false; eauto. congruence.
  - destruct (promoted_rows tb id isRoot) as [| a [| b l]]; simpl in *;
      [apply NoDup_nil_2 | apply NoDup_singleton | lia].
Qed.

Lemma wf_add_tree_rows tb seq id isRoot :
  wf tb seq ->
  tree_exists tb id = false ->
  (isRoot = true ->
   exists e, e ∈ ldap_entry tb /\ entry_id e = id /\ entry_parent_id e = None) ->
  wf (mkTables (ldap_entry tb) (ldap_tree tb ++ promoted_rows tb id isRoot)) seq.
Proof.
  intros Hwf Hex Hroot.
  destruct Hwf as [H1 H2 H3 H4]. split; simpl; auto.
  - by apply NoDup_promoted.
  - intros t Ht. apply elem_of_app in Ht as [Ht | Ht].
    + eapply Materialized_mono; [| | apply H4; exact Ht]; simpl; auto.
      intros t' Ht'. apply elem_of_app. by left.
    + assert (Hin : t ∈ ldap_tree tb ++ promoted_rows tb id isRoot)
        by (apply elem_of_app; by right).
      unfold promoted_rows in Ht. destruct isRoot.
      * apply list_elem_of_singleton in Ht as ->. simpl.
        destruct Hroot as (e & He & <- & Hp); [reflexivity |].
        apply Materialized_root; auto.
      * apply list_elem_of_fmap_1 in Ht as (p & -> & Hp). simpl.
        apply elem_of_parent_tree_rows in Hp as (Hp & e & He & <- & Hpar).
        eapply Materialized_child; eauto.
        eapply Materialized_mono; [| | apply H4; exact Hp]; simpl; auto.
        intros t' Ht'. apply elem_of_app. by left.
Qed.

(** ** The invariant along a transaction *)

Lemma tx_wf_with_entry tx row :
  entry_id row = tx_entry_seq tx -> tx_wf tx -> tx_wf (with_entry tx row).
Proof.
  intros Hid [Hb Hw]. split; simpl.
  - eapply wf_seq_mono; [| exact Hb]. lia.
  - by apply wf_add_entry.
Qed.

Lemma insertRootEntry_wf r entry tx : tx_wf tx -> tx_wf (fst (insertRootEntry r entry tx)).
Proof.
  intros Hwf. destruct (insertRootEntry_cases r entry tx) as [[-> _] | (dbEntry & _ & _ & -> & _)];
    [exact Hwf |].
  by apply tx_wf_with_entry.
Qed.

Lemma insertTree_wf r id isRoot tx :
  (isRoot = true ->
   exists e, e ∈ ldap_entry (tx_work tx) /\ entry_id e = id /\ entry_parent_id e = None) ->
  tx_wf tx -> tx_wf (fst (insertTree r id isRoot tx)).
Proof.
  intros Hroot Hwf. destruct (insertTree_cases r id isRoot tx) as [-> | [Hex ->]]; [exact Hwf |].
  destruct Hwf as [Hb Hw]. split; simpl; [exact Hb |].
  by apply wf_add_tree_rows.
Qed.

Lemma insertEntryAndTree_wf r entry tx :
  root_resolves_to_root r -> tx_wf tx -> tx_wf (fst (insertEntryAndTree r entry tx)).
Proof.
  intros Hres Hwf. unfold insertEntryAndTree.
  destruct (IsRoot (entry_DN entry)); [exact Hwf |].
  unfold bind at 1.
  destruct (insertEntry_cases r entry tx)
    as [[Hst Hno] | (q & pid & dbEntry & _ & Hq & Hpid & _ & Hst & Hres1)];
    destruct (insertEntry r entry tx) as [tx1 res1]; simpl in *; subst tx1.
  - destruct res1 as [v | e | msg]; simpl; try exact Hwf. by destruct (Hno v).
  - assert (Hwf1 : tx_wf (with_entry tx (child_row entry dbEntry (tx_entry_seq tx) pid)))
      by (by apply tx_wf_with_entry).
    destruct Hres1 as [-> | [e ->]]; [| exact Hwf1].
    unfold bind at 1. unfold entry_ParentDN in *.
    destruct (ParentDN (entry_DN entry)) as [pdn |]; simpl; [| exact Hwf1].
    unfold bind at 1.
    pose proof (insertTree_wf r pid (IsRoot pdn)
                  (with_entry tx (child_row entry dbEntry (tx_entry_seq tx) pid))) as HT.
    destruct (insertTree r pid (IsRoot pdn) _) as [tx2 [[] | e | msg]]; simpl in *;
      apply HT; auto; intros Hroot;
      destruct (Hres pdn _ q (tx_work tx) pid Hq Hpid Hroot) as (e0 & He0 & Hid0 & Hp0);
      exists e0; (split; [apply elem_of_app; by left | auto]).
Qed.

Lemma rollback_wf tx : tx_wf tx -> tx_wf (rollback tx).
Proof. intros [Hb Hw]. split; exact Hb. Qed.

Lemma Commit_wf r tx : tx_wf tx -> tx_wf (fst (Commit r tx)).
Proof. intros Hwf. unfold Commit. destruct (fault r SiteCommit); exact Hwf. Qed.

Lemma insertWithTx_wf r entry tx :
  root_resolves_to_root r -> tx_wf tx -> tx_wf (fst (insertWithTx r entry tx)).
Proof.
  intros Hres Hwf. unfold insertWithTx. cbv zeta.
  set (step := if IsRoot (entry_DN entry) then insertRootEntry r entry
               else ids <- insertEntryAndTree r entry ;; ret (fst ids)).
  assert (Hstep : tx_wf (fst (step tx))).
  { subst step. destruct (IsRoot (entry_DN entry)); [by apply insertRootEntry_wf |].
    pose proof (insertEntryAndTree_wf r entry tx Hres Hwf) as H.
    unfold bind, ret. destruct (insertEntryAndTree r entry tx) as [tx1 [v | e | msg]]; exact H. }
  destruct (step tx) as [tx1 [v | e | msg]]; simpl in *.
  - pose proof (Commit_wf r tx1 Hstep) as HC.
    destruct (Commit r tx1) as [tx2 [err |]]; simpl in *; [by apply rollback_wf | exact HC].
  - by apply rollback_wf.
  - exact Hstep.
Qed.

Lemma Insert_wf r entry db :
  root_resolves_to_root r -> db_wf db -> db_wf (database_after (fst (Insert r entry db))).
Proof.
  intros Hres Hdb. unfold Insert.
  assert (tx_wf (MustBegin db)) as Hwf by (split; exact Hdb).
  pose proof (insertWithTx_wf r entry (MustBegin db) Hres Hwf) as [Hb Hw].
  unfold db_wf, database_after. simpl.
  destruct (tx_status _); assumption.
Qed.

Lemma reachable_wf r db : root_resolves_to_root r -> reachable r db -> db_wf db.
Proof.
  intros Hres. induction 1 as [seq | db entry Hreach IH].
  - split; simpl; try apply NoDup_nil_2; intros x Hx; by apply elem_of_nil in Hx.
  - by apply Insert_wf.
Qed.

Lemma wf_path_of_parent tb seq e t :
  wf tb seq -> e ∈ ldap_entry tb -> t ∈ ldap_tree tb -> tree_id t = entry_id e ->
  path_of_parent tb e t /\ Materialized tb (tree_id t) (tree_path t).
Proof.
  intros Hwf He Ht Hid. pose proof (wf_paths _ _ Hwf t Ht) as HM. split; [| exact HM].
  unfold path_of_parent. inversion HM as [e' He' Hp' Hin' Hid' Hpath' | e' pid ppath He' Hp' HM' Hin' Hid' Hpath'].
  - assert (e' = e) as -> by (eapply NoDup_fmap_eq; [apply Hwf | | |]; eauto; congruence).
    rewrite Hp'. reflexivity.
  - assert (e' = e) as -> by (eapply NoDup_fmap_eq; [apply Hwf | | |]; eauto; congruence).
    rewrite Hp'. exists (mkTreeRow pid ppath). split; [by apply Materialized_in_tree |].
    split; reflexivity.
Qed.

(** ** Promotion and the key of ldap_tree *)

Lemma filter_key_length {A : Type} (f : A -> Z) (a : Z) (l : list A) :
  NoDup (f <$> l) -> length (filter (fun x => f x = a) l) <= 1.
Proof.
  induction l as [| x l IH]; intros Hnd; [simpl; lia |].
  rewrite fmap_cons in Hnd. apply NoDup_cons in Hnd as [Hna Hnd].
  rewrite filter_cons. destruct (decide (f x = a)) as [Hx | Hx]; [| by apply IH].
  assert (filter (fun y => f y = a) l = []) as ->; [| simpl; lia].
  destruct (filter (fun y => f y = a) l) as [| y k] eqn:Hk; [reflexivity |].
  exfalso. assert (y ∈ filter (fun y => f y = a) l) as Hy by (rewrite Hk; apply list_elem_of_here).
  apply list_elem_of_filter in Hy as [Hya Hy]. apply Hna.
  rewrite Hx, <- Hya. by apply list_elem_of_fmap_2.
Qed.

Lemma tree_exists_count tb id :
  NoDup (tree_id <$> ldap_tree tb) -> tree_exists tb id = true -> count_tree tb id = 1.
Proof.
  intros Hnd Hex. pose proof (filter_key_length tree_id id (ldap_tree tb) Hnd) as Hle.
  unfold count_tree. apply existsb_exists in Hex as (t & Ht & Hid).
  apply bool_decide_eq_true_1 in Hid. apply list_elem_of_In in Ht.
  destruct (filter (fun t => tree_id t = id) (ldap_tree tb)) as [| y k] eqn:Hk.
  - exfalso. assert (t ∈ filter (fun t => tree_id t = id) (ldap_tree tb)) as Hin
      by (by apply list_elem_of_filter).
    rewrite Hk in Hin. by apply elem_of_nil in Hin.
  - simpl in *. lia.
Qed.

Lemma insertTree_exists r id isRoot tx :
  fault r SitePrepareInsertTree = None ->
  fault r SiteQueryInsertTree = None ->
  tree_exists (tx_work tx) id = true ->
  insertTree r id isRoot tx = (tx, Ok tt).
Proof.
  intros H1 H2 Hex. unfold insertTree, driver_call, queryx. unfold_monad.
  rewrite H1, H2.
  destruct isRoot; unfold insertRootTreeStmt, insertChildTreeStmt; by rewrite Hex.
Qed.

Lemma insertTree_keys r id isRoot tx :
  NoDup (entry_id <$> ldap_entry (tx_work tx)) ->
  NoDup (tree_id <$> ldap_tree (tx_work tx)) ->
  NoDup (entry_id <$> ldap_entry (tx_work (fst (insertTree r id isRoot tx))))
  /\ NoDup (tree_id <$> ldap_tree (tx_work (fst (insertTree r id isRoot tx)))).
Proof.
  intros Hne Hnt. destruct (insertTree_cases r id isRoot tx) as [-> | [Hex ->]]; [by split |].
  simpl. split; [exact Hne | by apply NoDup_promoted].
Qed.

Lemma promotions_idempotent r id flags tx :
  fault r SitePrepareInsertTree = None ->
  fault r SiteQueryInsertTree = None ->
  fault r SiteScanInsertTree = None ->
  NoDup (entry_id <$> ldap_entry (tx_work tx)) ->
  NoDup (tree_id <$> ldap_tree (tx_work tx)) ->
  snd (forM_ flags (insertTree r id) tx) = Ok tt
  /\ count_tree (tx_work (fst (forM_ flags (insertTree r id) tx))) id <= 1
  /\ (tree_exists (tx_work tx) id = true ->
      fst (forM_ flags (insertTree r id) tx) = tx /\ count_tree (tx_work tx) id = 1).
Proof.
  intros H1 H2 H3. revert tx. induction flags as [| b flags IH]; intros tx Hne Hnt.
  - simpl. split; [reflexivity |]. split; [by apply filter_key_length |].
    intros Hex. split; [reflexivity | by apply tree_exists_count].
  - simpl. unfold bind.
    pose proof (insertTree_ok r id b tx H1 H2 H3) as Hok.
    pose proof (insertTree_keys r id b tx Hne Hnt) as [Hne' Hnt'].
    pose proof (insertTree_exists r id b tx H1 H2) as Hsame.
    destruct (insertTree r id b tx) as [tx1 res]; simpl in *; subst res.
    destruct (IH tx1 Hne' Hnt') as (Hres & Hcount & Hidem).
    split; [exact Hres |]. split; [exact Hcount |].
    intros Hex. specialize (Hsame Hex). injection Hsame as ->.
    destruct (Hidem Hex) as [-> Hc]. by split.
Qed.

(** ** Root entries *)

#[export] Instance keeps_refl P : Reflexive (keeps P).
Proof. intros tx H. exact H. Qed.

#[export] Instance keeps_trans P : Transitive (keeps P).
Proof. intros a b c H1 H2 H. auto. Qed.

Lemma root_exists_false tb rdn e :
  root_exists tb rdn = false -> e ∈ ldap_entry tb -> entry_parent_id e = None ->
  entry_rdn_norm e <> rdn.
Proof.
  intros Hex He Hp Hr. eapply existsb_false_forall in Hex; [| exact He].
  simpl in Hex. by rewrite !bool_decide_eq_true_2 in Hex.
Qed.

Lemma roots_unique_add_root tb id rn ro an ao :
  root_exists tb rn = false -> roots_unique tb ->
  roots_unique (mkTables (ldap_entry tb ++ [mkEntryRow id None rn ro an ao]) (ldap_tree tb)).
Proof.
  intros Hex Hu. unfold roots_unique in *. simpl.
  rewrite filter_app, fmap_app. apply NoDup_app. split; [exact Hu |].
  rewrite filter_cons_True by reflexivity. rewrite filter_nil. simpl.
  split; [| apply NoDup_singleton].
  intros x Hx Hx'. apply list_elem_of_singleton in Hx' as ->.
  apply list_elem_of_fmap_1 in Hx as (e & Heq & He).
  apply list_elem_of_filter in He as [Hp He].
  by eapply root_exists_false.
Qed.

Lemma roots_unique_add_child tb id pid rn ro an ao :
  roots_unique tb ->
  roots_unique (mkTables (ldap_entry tb ++ [mkEntryRow id (Some pid) rn ro an ao]) (ldap_tree tb)).
Proof.
  intros Hu. unfold roots_unique in *. simpl.
  rewrite filter_app, filter_cons_False by discriminate.
  rewrite filter_nil, app_nil_r. exact Hu.
Qed.

Lemma insertWithTx_roots_unique r entry :
  steps (keeps tx_roots_unique) (insertWithTx r entry).
Proof.
  intros tx. unfold insertWithTx. cbv zeta.
  set (step := if IsRoot (entry_DN entry) then insertRootEntry r entry
               else ids <- insertEntryAndTree r entry ;; ret (fst ids)).
  assert (Hstep : steps (keeps tx_roots_unique) step).
  { subst step. destruct (IsRoot (entry_DN entry)).
    - apply insertRootEntry_steps; try typeclasses eauto.
      intros rn ro an ao tx0 [Hb Hw]. unfold insertRootEntryStmt.
      destruct (root_exists (tx_work tx0) rn) eqn:Hex; simpl; [by split |].
      split; simpl; [exact Hb | by apply roots_unique_add_root].
    - apply steps_bind; [typeclasses eauto | | intros; apply steps_ret; typeclasses eauto].
      unfold insertEntryAndTree.
      destruct (IsRoot (entry_DN entry)); [apply steps_fail; typeclasses eauto |].
      apply steps_bind; [typeclasses eauto | |].
      { apply insertEntry_steps; try typeclasses eauto.
        intros q rn ro an ao tx0 [Hb Hw]. unfold insertEntryStmt.
        destruct (q (tx_work tx0)); simpl; [| by split].
        destruct (sibling_exists _ _ _); simpl; [by split |].
        split; simpl; [exact Hb | by apply roots_unique_add_child]. }
      intros [newID parentId].
      apply steps_bind; [typeclasses eauto | apply steps_deref; typeclasses eauto |].
      intros parentDN. apply steps_bind; [typeclasses eauto | |].
      { apply insertTree_steps; try typeclasses eauto.
        - intros tx0 Hu. unfold insertRootTreeStmt.
          destruct (tree_exists _ _); simpl; exact Hu.
        - intros tx0 Hu. unfold insertChildTreeStmt.
          destruct (tree_exists _ _); simpl; exact Hu. }
      intros _. apply steps_ret. typeclasses eauto. }
  specialize (Hstep tx). intros Hu. specialize (Hstep Hu).
  destruct (step tx) as [tx1 [v | e | msg]]; simpl in *.
  - unfold Commit. destruct (fault r SiteCommit); simpl; [| exact Hstep].
    destruct Hstep as [Hb Hw]. by split.
  - destruct Hstep as [Hb Hw]. by split.
  - exact Hstep.
Qed.

Lemma reachable_roots_unique r db : reachable r db -> roots_unique (db_tables db).
Proof.
  induction 1 as [seq | db entry Hreach IH].
  - apply NoDup_nil_2.
  - unfold Insert.
    assert (tx_roots_unique (MustBegin db)) as Hu by (split; exact IH).
    pose proof (insertWithTx_roots_unique r entry (MustBegin db) Hu) as [Hb Hw].
    unfold database_after. simpl. destruct (tx_status _); assumption.
Qed.

End Part000Facts.

(** * repo_create.go: the shape of every outcome *)
Module RepoCreateFacts.
Import RepoCreate RepoCreateSpec.

#[export] Instance repo_same_frame_refl : Reflexive same_frame.
Proof. intros tx. by split. Qed.

#[export] Instance repo_same_frame_trans : Transitive same_frame.
Proof. intros a b c [H1 H2] [H3 H4]. split; congruence. Qed.

Lemma repo_driver_call_pure r site msg : pure_in (driver_call r site msg).
Proof. intros tx. unfold driver_call. destruct (fault r site); reflexivity. Qed.

Lemma repo_steps_queryx {Row : Type} (R : Tx -> Tx -> Prop) r site msg (stmt : Tx -> Tx * list Row) :
  Reflexive R -> (forall tx, R tx (fst (stmt tx))) -> steps R (queryx r site msg stmt).
Proof.
  intros HR Hs tx. unfold queryx. destruct (fault r site).
  - apply HR.
  - specialize (Hs tx). destruct (stmt tx). exact Hs.
Qed.

(** Peeling a computation apart, one combinator at a time. *)
Ltac steps_frame :=
  repeat first
    [ apply steps_ret; typeclasses eauto
    | apply steps_fail; typeclasses eauto
    | apply steps_lift; typeclasses eauto
    | apply steps_deref; typeclasses eauto
    | apply pure_in_steps; [typeclasses eauto | apply repo_driver_call_pure]
    | apply steps_discard
    | apply steps_forM_; [typeclasses eauto | typeclasses eauto | intros ?]
    | apply steps_bind; [typeclasses eauto | | intros ?]
    | apply repo_steps_queryx; [typeclasses eauto | intros ?]
    | match goal with
      | |- steps _ (if ?b then _ else _) => destruct b
      | |- steps _ (match ?x with _ => _ end) => destruct x
      | |- steps _ (let (_, _) := ?x in _) => destruct x
      end ].

Lemma found_or_nil_pure r site (stmt : Tables -> list DBEntryRecord) :
  pure_in (fun tx : Tx => (tx, found_or_nil (get r site stmt tx))).
Proof. intros tx. reflexivity. Qed.

Lemma findDCDBEntryRecord_pure r dn : pure_in (findDCDBEntryRecord r dn).
Proof.
  intros tx. unfold findDCDBEntryRecord, driver_call. unfold_monad.
  destruct (negb (IsDC dn)); [reflexivity |].
  destruct (NormalizeDN r (server_GetSuffix r)); [reflexivity |].
  destruct (ParentDN d); [| reflexivity].
  destruct (fault r SitePrepareFindDC); reflexivity.
Qed.

Lemma findDBEntryRecord_pure r dn : pure_in (findDBEntryRecord r dn).
Proof.
  intros tx. unfold findDBEntryRecord. unfold bind at 1. unfold deref, ret, lift.
  destruct dn as [dn |]; [| reflexivity].
  destruct (IsDC dn); [apply findDCDBEntryRecord_pure |].
  unfold driver_call. unfold_monad. destruct (fault r SitePrepareFind); reflexivity.
Qed.

Lemma findParent_pure r dn : pure_in (findParent r dn).
Proof. apply findDBEntryRecord_pure. Qed.

Lemma insertTree_frame r id pp pdo : steps same_frame (insertTree r id pp pdo).
Proof.
  intros tx. unfold insertTree. destruct (fault r SiteExecInsertTree); [by split |].
  simpl. unfold insertTreeStmt. destruct (existsb _ _); by split.
Qed.

Lemma insertDCEntry_frame r entry : steps same_frame (insertDCEntry r entry).
Proof.
  unfold insertDCEntry. steps_frame.
  unfold insertDCStmt. destruct (sibling_exists _ _ _); by split.
Qed.

Lemma insertUnderDCEntry_frame r entry : steps same_frame (insertUnderDCEntry r entry).
Proof.
  unfold insertUnderDCEntry. steps_frame.
  unfold insertUnderDCStmt. destruct (filter _ _); [by split |].
  destruct (sibling_exists _ _ _); by split.
Qed.

Lemma insertEntry_frame r parent entry : steps same_frame (insertEntry r parent entry).
Proof.
  unfold insertEntry. apply steps_bind; [typeclasses eauto | steps_frame |].
  intros parentDN. destruct (IsDC parentDN); [apply insertUnderDCEntry_frame |].
  apply steps_bind; [typeclasses eauto | steps_frame |]. intros dbEntry.
  apply steps_bind; [typeclasses eauto | steps_frame |]. intros _ tx.
  destruct (fault r SiteQueryInsertEntry) as [err |].
  - destruct err as [code | |]; simpl; try (by split).
    destruct (bool_decide (code = "23505")); by split.
  - unfold insertEntryStmt. destruct (sibling_exists _ _ _); simpl; by split.
Qed.

Lemma collectNodeNormByParentID_pure r parentID : pure_in (collectNodeNormByParentID r parentID).
Proof.
  intros tx. unfold collectNodeNormByParentID, queryx. unfold_monad.
  destruct (bool_decide _); [reflexivity |].
  destruct (fault r SiteQueryCollect); [reflexivity |]. simpl.
  destruct (fault r SiteRowsErrCollect); reflexivity.
Qed.

Lemma insertSubMembers_frame r subjectID dn members dnIDCache :
  steps same_frame (insertSubMembers r subjectID dn members dnIDCache).
Proof.
  unfold insertSubMembers. steps_frame.
  - by split.
  - intros tx0. by split.
Qed.

Lemma insertMember_frame r subjectID entry : steps same_frame (insertMember r subjectID entry).
Proof.
  unfold insertMember. destruct (length (entry_Member entry) =? 0);
    [apply steps_ret; typeclasses eauto |].
  apply steps_bind; [typeclasses eauto | apply pure_in_steps; [typeclasses eauto | by intros tx] |].
  intros dc. apply steps_bind;
    [typeclasses eauto
    | apply pure_in_steps; [typeclasses eauto | apply collectNodeNormByParentID_pure] |].
  intros nodeNorms. cbv zeta.
  apply steps_bind; [typeclasses eauto | |].
  { apply steps_forM_; try typeclasses eauto. intros i.
    apply steps_discard, insertSubMembers_frame. }
  intros _. apply steps_bind; [typeclasses eauto | |].
  { destruct (0 <? _); [apply steps_discard, insertSubMembers_frame |].
    apply steps_ret. typeclasses eauto. }
  intros _. apply steps_ret. typeclasses eauto.
Qed.

Lemma insertWithTx_frame r entry : steps same_frame (insertWithTx r entry).
Proof.
  unfold insertWithTx. destruct (entry_IsDC entry).
  - apply steps_bind; [typeclasses eauto | apply insertDCEntry_frame |]. intros newID.
    apply steps_bind; [typeclasses eauto | apply insertTree_frame |]. intros _.
    apply steps_ret. typeclasses eauto.
  - apply steps_bind;
      [typeclasses eauto | apply pure_in_steps; [typeclasses eauto | apply findParent_pure] |].
    intros [parent |]; [| apply steps_fail; typeclasses eauto].
    apply steps_bind; [typeclasses eauto | |].
    { destruct (negb (HasChildren parent)); [| apply steps_ret; typeclasses eauto].
      apply steps_bind; [typeclasses eauto | apply steps_lift; typeclasses eauto |].
      intros pp. apply insertTree_frame. }
    intros _. apply steps_bind; [typeclasses eauto | apply insertEntry_frame |].
    intros ids. cbv zeta.
    apply steps_bind; [typeclasses eauto | apply insertMember_frame |].
    intros _. apply steps_ret. typeclasses eauto.
Qed.

End RepoCreateFacts.

(** * The properties of the insertion protocol *)

(** ** Tree paths (part_000) *)

Lemma sample_root_resolves_to_root fault :
  Part000Spec.root_resolves_to_root (Sample.part000 fault).
Proof.
  intros pdn opt q tb pid Hq Hpid Hroot. simpl in Hq. injection Hq as <-.
  unfold Sample.resolve in Hpid.
  destruct (List.find _ _) as [e |] eqn:Hfind; [| discriminate].
  simpl in Hpid. injection Hpid as <-.
  apply find_some in Hfind as [Hin Hp]. apply andb_prop in Hp as [_ Hp].
  rewrite Hroot in Hp. apply eqb_prop in Hp. apply bool_decide_eq_true_1 in Hp.
  exists e. split; [by apply list_elem_of_In | by split].
Qed.

(** C5. In every database that Insert builds, the path stored in the
    TreeNode of an entry is the path of the TreeNode of its parent followed
    by the entry's own id, and so on up to a root entry, whose path is its
    own id. *)
Theorem tree_path_invariant (r : Part000.Repository) (db : Part000.Database)
    (e : Part000.EntryRow) (t : Part000.TreeRow) :
  Part000Spec.root_resolves_to_root r ->
  Part000Spec.reachable r db ->
  e ∈ Part000.ldap_entry (Part000.db_tables db) ->
  t ∈ Part000.ldap_tree (Part000.db_tables db) ->
  Part000.tree_id t = Part000.entry_id e ->
  Part000Spec.path_of_parent (Part000.db_tables db) e t
  /\ Part000Spec.Materialized (Part000.db_tables db) (Part000.tree_id t) (Part000.tree_path t).
Proof.
  intros Hres Hreach He Ht Hid.
  eapply Part000Facts.wf_path_of_parent; eauto.
  exact (Part000Facts.reachable_wf r db Hres Hreach).
Qed.

Lemma tree_path_invariant_witness :
  Part000Spec.path_of_parent (Part000.db_tables Sample.directory000)
    (Part000.mkEntryRow 2 (Some 1%Z) "ou=people" "ou=people" "{}" "{}")
    (Part000.mkTreeRow 2 "12")
  /\ Part000Spec.Materialized (Part000.db_tables Sample.directory000) 2 "12".
Proof.
  apply (tree_path_invariant Sample.healthy000 Sample.directory000
           (Part000.mkEntryRow 2 (Some 1%Z) "ou=people" "ou=people" "{}" "{}")
           (Part000.mkTreeRow 2 "12")).
  - apply sample_root_resolves_to_root.
  - repeat apply Part000Spec.reachable_Insert. apply Part000Spec.reachable_empty.
  - apply list_elem_of_In. vm_compute. auto.
  - apply list_elem_of_In. vm_compute. auto.
  - reflexivity.
Defined.

(** ** Promotion (part_000) *)

(** C6. When the driver does not fail, promoting a node any number of times
    returns no error and leaves at most one TreeNode row for it; when a row
    for the node is already there, the promotions insert nothing, and
    exactly one row remains. *)
Theorem promotion_idempotent (r : Part000.Repository) (id : Z) (flags : list bool)
    (tx : Part000.Tx) :
  Part000.fault r Part000.SitePrepareInsertTree = None ->
  Part000.fault r Part000.SiteQueryInsertTree = None ->
  Part000.fault r Part000.SiteScanInsertTree = None ->
  NoDup (Part000.entry_id <$> Part000.ldap_entry (Part000.tx_work tx)) ->
  NoDup (Part000.tree_id <$> Part000.ldap_tree (Part000.tx_work tx)) ->
  snd (forM_ flags (Part000.insertTree r id) tx) = Ok tt
  /\ Part000Spec.count_tree
       (Part000.tx_work (fst (forM_ flags (Part000.insertTree r id) tx))) id <= 1
  /\ (Part000.tree_exists (Part000.tx_work tx) id = true ->
      (forall isRoot, Part000.insertTree r id isRoot tx = (tx, Ok tt))
      /\ fst (forM_ flags (Part000.insertTree r id) tx) = tx
      /\ Part000Spec.count_tree (Part000.tx_work tx) id = 1).
Proof.
  intros H1 H2 H3 Hne Hnt.
  destruct (Part000Facts.promotions_idempotent r id flags tx H1 H2 H3 Hne Hnt)
    as (Hres & Hcount & Hidem).
  split; [exact Hres |]. split; [exact Hcount |].
  intros Hex. destruct (Hidem Hex) as [Hst Hc].
  split; [| by split].
  intros isRoot. by apply Part000Facts.insertTree_exists.
Qed.

Lemma promotion_idempotent_witness :
  let tx := Part000.MustBegin Sample.directory000 in
  snd (forM_ [true; false; true] (Part000.insertTree Sample.healthy000 1) tx) = Ok tt
  /\ Part000Spec.count_tree
       (Part000.tx_work
          (fst (forM_ [true; false; true] (Part000.insertTree Sample.healthy000 1) tx))) 1 <= 1
  /\ (Part000.tree_exists (Part000.tx_work tx) 1 = true ->
      (forall isRoot, Part000.insertTree Sample.healthy000 1 isRoot tx = (tx, Ok tt))
      /\ fst (forM_ [true; false; true] (Part000.insertTree Sample.healthy000 1) tx) = tx
      /\ Part000Spec.count_tree (Part000.tx_work tx) 1 = 1).
Proof.
  intros tx.
  apply (promotion_idempotent Sample.healthy000 1 [true; false; true] tx);
    try reflexivity.
  - apply NoDup_ListNoDup. vm_compute. repeat constructor; simpl; intuition discriminate.
  - apply NoDup_ListNoDup. vm_compute. repeat constructor; simpl; intuition discriminate.
Defined.

(** ** The root entry (part_000) *)

(** C7. In every database that Insert builds there is at most one entry
    without a parent per rdn_norm; inserting a root entry whose rdn_norm a
    root row already carries changes nothing and returns no id, and it
    returns AlreadyExists when the mapper and the driver do not fail. *)
Theorem root_entry_singular (r : Part000.Repository) (entry : AddEntry) (tx : Part000.Tx) :
  Part000.root_exists (Part000.tx_work tx) (entry_RDNNorm entry) = true ->
  (forall db, Part000Spec.reachable r db -> Part000Spec.roots_unique (Part000.db_tables db))
  /\ fst (Part000.insertRootEntry r entry tx) = tx
  /\ (forall id, snd (Part000.insertRootEntry r entry tx) <> Ok id)
  /\ (IsRoot (entry_DN entry) = true ->
      (exists dbEntry,
         Part000.AddEntryToDBEntry r (Part000.tx_work tx) entry = inr dbEntry) ->
      Part000.fault r Part000.SitePrepareInsertRoot = None ->
      Part000.fault r Part000.SiteQueryInsertRoot = None ->
      Part000.insertRootEntry r entry tx = (tx, Err AlreadyExists)).
Proof.
  intros Hex. split; [intros db; apply Part000Facts.reachable_roots_unique |].
  destruct (Part000Facts.insertRootEntry_cases r entry tx)
    as [[Hst Hno] | (dbEntry & _ & Hex' & _)]; [| congruence].
  split; [exact Hst |]. split; [exact Hno |].
  intros Hroot [dbEntry Hmap] H1 H2.
  unfold Part000.insertRootEntry, Part000.driver_call, Part000.queryx,
    Part000.insertRootEntryStmt. unfold_monad.
  rewrite Hroot; simpl. rewrite Hmap, H1, H2. by rewrite Hex.
Qed.

Lemma root_entry_singular_witness :
  let tx := Part000.MustBegin Sample.directory000 in
  (forall db, Part000Spec.reachable Sample.healthy000 db ->
              Part000Spec.roots_unique (Part000.db_tables db))
  /\ fst (Part000.insertRootEntry Sample.healthy000 (Sample.entryOf Sample.dcDN) tx) = tx
  /\ (forall id, snd (Part000.insertRootEntry Sample.healthy000
                        (Sample.entryOf Sample.dcDN) tx) <> Ok id)
  /\ Part000.insertRootEntry Sample.healthy000 (Sample.entryOf Sample.dcDN) tx
     = (tx, Err AlreadyExists).
Proof.
  intros tx.
  destruct (root_entry_singular Sample.healthy000 (Sample.entryOf Sample.dcDN) tx)
    as (H1 & H2 & H3 & H4); [reflexivity |].
  split; [exact H1 |]. split; [exact H2 |]. split; [exact H3 |].
  apply H4; try reflexivity. by eexists.
Defined.

(** ** The dispatch on the root DN (part_000) *)

Lemma insertEntry_no_Errorf r entry tx msg :
  IsRoot (entry_DN entry) = false ->
  snd (Part000.insertEntry r entry tx) <> Err (Errorf msg).
Proof.
  intros Hroot. unfold Part000.insertEntry, Part000.driver_call, Part000.queryx.
  unfold_monad. rewrite Hroot.
  destruct (Part000.AddEntryToDBEntry r _ entry); [discriminate |].
  destruct (Part000.createFindBasePathByDNSQL r _ _); [discriminate |].
  destruct (Part000.fault r Part000.SitePrepareInsertEntry); [discriminate |].
  destruct (Part000.fault r Part000.SiteQueryInsertEntry); [discriminate |].
  destruct (Part000.insertEntryStmt _ _ _ _ _ tx) as [tx' [| [id pid] rows]]; [discriminate |].
  destruct (Part000.fault r Part000.SiteScanInsertEntry); discriminate.
Qed.

Lemma insertTree_no_Errorf r id isRoot tx msg :
  snd (Part000.insertTree r id isRoot tx) <> Err (Errorf msg).
Proof.
  unfold Part000.insertTree, Part000.driver_call, Part000.queryx. unfold_monad.
  destruct (Part000.fault r Part000.SitePrepareInsertTree); [discriminate |].
  destruct (Part000.fault r Part000.SiteQueryInsertTree); [discriminate |].
  destruct ((if isRoot then _ else _) tx) as [tx' [| row rows]]; [discriminate |].
  destruct (Part000.fault r Part000.SiteScanInsertTree); discriminate.
Qed.

Lemma insertRootEntry_no_Errorf r entry tx msg :
  IsRoot (entry_DN entry) = true ->
  snd (Part000.insertRootEntry r entry tx) <> Err (Errorf msg).
Proof.
  intros Hroot. unfold Part000.insertRootEntry, Part000.driver_call, Part000.queryx.
  unfold_monad. rewrite Hroot. simpl.
  destruct (Part000.AddEntryToDBEntry r _ entry); [discriminate |].
  destruct (Part000.fault r Part000.SitePrepareInsertRoot); [discriminate |].
  destruct (Part000.fault r Part000.SiteQueryInsertRoot); [discriminate |].
  destruct (Part000.insertRootEntryStmt _ _ _ _ tx) as [tx' [| id rows]]; [discriminate |].
  destruct (Part000.fault r Part000.SiteScanInsertRoot); discriminate.
Qed.

(** C10. The function for the root refuses every other entry, the two
    functions for children refuse the root, each without touching the
    transaction; and as insertWithTx dispatches on the same test, no
    refusal of this kind ever comes out of it. *)
Theorem dispatch_guarded (r : Part000.Repository) (entry : AddEntry) (tx : Part000.Tx) :
  (if IsRoot (entry_DN entry) then
     Part000.insertEntry r entry tx = (tx, Err Part000Spec.guard_not_root)
     /\ Part000.insertEntryAndTree r entry tx = (tx, Err Part000Spec.guard_not_root)
   else
     Part000.insertRootEntry r entry tx = (tx, Err Part000Spec.guard_root))
  /\ (forall msg, snd (Part000.insertWithTx r entry tx) <> Err (Errorf msg)).
Proof.
  split.
  - unfold Part000.insertEntry, Part000.insertEntryAndTree, Part000.insertRootEntry.
    destruct (IsRoot (entry_DN entry)); simpl; [split |]; reflexivity.
  - intros msg. unfold Part000.insertWithTx. cbv zeta.
    destruct (IsRoot (entry_DN entry)) eqn:Hroot.
    + pose proof (insertRootEntry_no_Errorf r entry tx msg Hroot) as Hno.
      destruct (Part000.insertRootEntry r entry tx) as [tx1 [v | e | m]]; simpl in *.
      * destruct (Part000.Commit r tx1) as [tx2 [err |]]; simpl; discriminate.
      * congruence.
      * discriminate.
    + unfold Part000.insertEntryAndTree. rewrite Hroot. unfold bind at 1 2.
      pose proof (insertEntry_no_Errorf r entry tx msg Hroot) as Hno.
      destruct (Part000.insertEntry r entry tx) as [tx1 [[newID parentId] | e | m]];
        simpl in *; [| congruence | discriminate].
      unfold bind at 1. unfold deref, ret, lift.
      destruct (entry_ParentDN entry) as [pdn |]; simpl; [| discriminate].
      unfold bind at 1.
      pose proof (insertTree_no_Errorf r parentId (IsRoot pdn) tx1 msg) as Hno'.
      destruct (Part000.insertTree r parentId (IsRoot pdn) tx1) as [tx2 [[] | e | m]];
        simpl in *; [| congruence | discriminate].
      destruct (Part000.Commit r tx2) as [tx3 [err |]]; simpl; discriminate.
Qed.

(** ** Failure and rollback (both files) *)

Lemma dispatch000_frame r entry : steps Part000Spec.same_frame (Part000Spec.dispatch000 r entry).
Proof.
  unfold Part000Spec.dispatch000. destruct (IsRoot (entry_DN entry)).
  - apply Part000Facts.insertRootEntry_frame.
  - apply steps_bind;
      [apply Part000Facts.same_frame_trans | apply Part000Facts.insertEntryAndTree_frame |].
    intros ids. apply steps_ret, Part000Facts.same_frame_refl.
Qed.

Lemma rollback000_restores db tx1 :
  Part000Spec.same_frame (Part000.MustBegin db) tx1 ->
  Part000.db_tables (Part000.database_after (Part000.rollback tx1)) = Part000.db_tables db.
Proof. intros [Hb _]. simpl. exact Hb. Qed.

Lemma Rollback_restores db tx1 :
  RepoCreateSpec.same_frame (RepoCreate.MustBegin db) tx1 ->
  RepoCreate.db_tables (RepoCreate.database_after (RepoCreate.Rollback tx1))
  = RepoCreate.db_tables db.
Proof. intros [Hb _]. simpl. exact Hb. Qed.

(** C3, as the code has it.  When a step of Insert returns an error, the
    transaction is rolled back, that error is returned and the tables are
    as before.  When the steps succeed and the commit fails, the tables are
    as before as well; part_000 returns Unavailable, repo_create.go returns
    the error of the commit itself. *)
Theorem insert_failure_leaves_no_trace :
  (forall (r : Part000.Repository) entry db tx1,
      (forall e, Part000Spec.dispatch000 r entry (Part000.MustBegin db) = (tx1, Err e) ->
         Part000.Insert r entry db = (Part000.rollback tx1, Err e)
         /\ Part000.db_tables (Part000.database_after (Part000.rollback tx1))
            = Part000.db_tables db)
      /\ (forall id err,
            Part000Spec.dispatch000 r entry (Part000.MustBegin db) = (tx1, Ok id) ->
            Part000.fault r Part000.SiteCommit = Some err ->
            Part000.Insert r entry db = (Part000.rollback tx1, Err Unavailable)
            /\ Part000.db_tables (Part000.database_after (Part000.rollback tx1))
               = Part000.db_tables db))
  /\ (forall (r : RepoCreate.Repository) entry db tx1,
        (forall e, RepoCreate.insertWithTx r entry (RepoCreate.MustBegin db) = (tx1, Err e) ->
           RepoCreate.Insert r entry db = (RepoCreate.Rollback tx1, Err e)
           /\ RepoCreate.db_tables (RepoCreate.database_after (RepoCreate.Rollback tx1))
              = RepoCreate.db_tables db)
        /\ (forall id err,
              RepoCreate.insertWithTx r entry (RepoCreate.MustBegin db) = (tx1, Ok id) ->
              RepoCreate.fault r RepoCreate.SiteCommit = Some err ->
              RepoCreate.Insert r entry db = (tx1, Err (Driver err))
              /\ RepoCreate.db_tables (RepoCreate.database_after tx1)
                 = RepoCreate.db_tables db)).
Proof.
  split.
  - intros r entry db tx1.
    pose proof (dispatch000_frame r entry (Part000.MustBegin db)) as Hframe.
    split.
    + intros e Hstep. rewrite Hstep in Hframe. simpl in Hframe.
      split; [| by apply rollback000_restores].
      unfold Part000.Insert, Part000.insertWithTx. cbv zeta.
      fold (Part000Spec.dispatch000 r entry). by rewrite Hstep.
    + intros id err Hstep Hfault. rewrite Hstep in Hframe. simpl in Hframe.
      split; [| by apply rollback000_restores].
      unfold Part000.Insert, Part000.insertWithTx. cbv zeta.
      fold (Part000Spec.dispatch000 r entry). rewrite Hstep.
      unfold Part000.Commit. by rewrite Hfault.
  - intros r entry db tx1.
    pose proof (RepoCreateFacts.insertWithTx_frame r entry (RepoCreate.MustBegin db)) as Hframe.
    split.
    + intros e Hstep. rewrite Hstep in Hframe. simpl in Hframe.
      split; [| by apply Rollback_restores].
      unfold RepoCreate.Insert. by rewrite Hstep.
    + intros id err Hstep Hfault. rewrite Hstep in Hframe. simpl in Hframe.
      split.
      * unfold RepoCreate.Insert. rewrite Hstep. unfold RepoCreate.Commit. by rewrite Hfault.
      * destruct Hframe as [Hb Hs]. unfold RepoCreate.database_after. simpl.
        rewrite Hs. simpl. exact Hb.
Qed.

(** In the sample directory: alice is there already (a step fails), and a
    commit that fails after the root entry went in. *)
Lemma insert_failure_leaves_no_trace_witness :
  (Part000.Insert Sample.healthy000 (Sample.entryOf Sample.aliceDN) Sample.directory000
   = (Part000.rollback (Part000.MustBegin Sample.directory000), Err AlreadyExists)
   /\ Part000.db_tables
        (Part000.database_after (Part000.rollback (Part000.MustBegin Sample.directory000)))
      = Part000.db_tables Sample.directory000)
  /\ (RepoCreate.Insert Sample.healthy (Sample.entryOf Sample.aliceDN) Sample.directory
      = (RepoCreate.Rollback (RepoCreate.MustBegin Sample.directory), Err AlreadyExists)
      /\ RepoCreate.db_tables
           (RepoCreate.database_after (RepoCreate.Rollback (RepoCreate.MustBegin Sample.directory)))
         = RepoCreate.db_tables Sample.directory)
  /\ (snd (RepoCreate.Insert Sample.commit_fails (Sample.entryOf Sample.dcDN) Sample.empty)
      = Err (Driver (ErrDriver "connection reset by peer"))
      /\ RepoCreate.db_tables
           (RepoCreate.database_after
              (fst (RepoCreate.Insert Sample.commit_fails (Sample.entryOf Sample.dcDN)
                      Sample.empty)))
         = RepoCreate.db_tables Sample.empty).
Proof.
  destruct insert_failure_leaves_no_trace as [H000 Hrepo].
  split; [| split].
  - apply (H000 Sample.healthy000 (Sample.entryOf Sample.aliceDN) Sample.directory000).
    vm_compute. reflexivity.
  - apply (Hrepo Sample.healthy (Sample.entryOf Sample.aliceDN) Sample.directory).
    vm_compute. reflexivity.
  - destruct (Hrepo Sample.commit_fails (Sample.entryOf Sample.dcDN) Sample.empty
                (fst (RepoCreate.insertWithTx Sample.commit_fails (Sample.entryOf Sample.dcDN)
                        (RepoCreate.MustBegin Sample.empty)))) as [_ Hcommit].
    destruct (Hcommit 1%Z (ErrDriver "connection reset by peer")) as [Hres Htb];
      [vm_compute; reflexivity | reflexivity |].
    split; [by rewrite Hres | by rewrite Hres].
Defined.

(** C3 as stated fails on repo_create.go: every step succeeds, the commit
    fails, and Insert returns the error of the driver, not Unavailable. *)
Lemma commit_failure_is_not_Unavailable :
  snd (RepoCreate.insertWithTx Sample.commit_fails (Sample.entryOf Sample.dcDN)
         (RepoCreate.MustBegin Sample.empty)) = Ok 1%Z
  /\ RepoCreate.fault Sample.commit_fails RepoCreate.SiteCommit
     = Some (ErrDriver "connection reset by peer")
  /\ snd (RepoCreate.Insert Sample.commit_fails (Sample.entryOf Sample.dcDN) Sample.empty)
     = Err (Driver (ErrDriver "connection reset by peer"))
  /\ snd (RepoCreate.Insert Sample.commit_fails (Sample.entryOf Sample.dcDN) Sample.empty)
     <> Err Unavailable.
Proof.
  split; [vm_compute; reflexivity |]. split; [reflexivity |].
  split; [vm_compute; reflexivity |]. vm_compute. discriminate.
Qed.

(** ** The parent that is not there (repo_create.go) *)

(** The lookup of the parent finds nothing exactly when its SELECT has no
    row, for a parent that is not the domain-component entry. *)
Lemma findParent_no_row r dn pdn tx :
  ParentDN dn = Some pdn -> IsDC pdn = false ->
  RepoCreate.fault r RepoCreate.SitePrepareFind = None ->
  RepoCreate.fault r RepoCreate.SiteGetFind = None ->
  RepoCreate.findDBEntryRecordStmt
    (match ParentDN pdn with Some p => ParentPath p | None => "/" end)
    (match ParentDN pdn with Some p => RDNNormStr p | None => "" end)
    (RDNNormStr pdn) (RepoCreate.tx_work tx) = [] ->
  RepoCreate.findParent r dn tx = (tx, Ok None).
Proof.
  intros Hp Hdc H1 H2 Hrows.
  unfold RepoCreate.findParent, RepoCreate.findDBEntryRecord, RepoCreate.driver_call,
    RepoCreate.get. unfold_monad.
  rewrite Hp. unfold ret. cbn beta iota. rewrite Hdc, H1. cbn beta iota. rewrite H2.
  by rewrite Hrows.
Qed.

(** C4. When the lookup of the parent of an entry that is not the
    domain-component entry finds no row, Insert returns NoSuchObject, the
    transaction is rolled back without a statement having run, and the
    three tables are what they were. *)
Theorem missing_parent_NoSuchObject (r : RepoCreate.Repository) (entry : AddEntry)
    (db : RepoCreate.Database) (tx1 : RepoCreate.Tx) :
  entry_IsDC entry = false ->
  RepoCreate.findParent r (entry_DN entry) (RepoCreate.MustBegin db) = (tx1, Ok None) ->
  RepoCreate.Insert r entry db
  = (RepoCreate.Rollback (RepoCreate.MustBegin db), Err NoSuchObject)
  /\ tx1 = RepoCreate.MustBegin db
  /\ RepoCreate.db_tables (RepoCreate.database_after (fst (RepoCreate.Insert r entry db)))
     = RepoCreate.db_tables db
  /\ RepoCreate.db_entry_seq (RepoCreate.database_after (fst (RepoCreate.Insert r entry db)))
     = RepoCreate.db_entry_seq db.
Proof.
  intros Hdc Hfind.
  pose proof (RepoCreateFacts.findParent_pure r (entry_DN entry) (RepoCreate.MustBegin db))
    as Hpure.
  rewrite Hfind in Hpure. simpl in Hpure. subst tx1.
  assert (RepoCreate.Insert r entry db
          = (RepoCreate.Rollback (RepoCreate.MustBegin db), Err NoSuchObject)) as HI.
  { unfold RepoCreate.Insert, RepoCreate.insertWithTx. rewrite Hdc.
    unfold bind at 1. by rewrite Hfind. }
  rewrite HI. by repeat split.
Qed.

Lemma missing_parent_NoSuchObject_witness :
  let entry := Sample.entryOf (Sample.childDN "cn=bob" (Sample.childDN "ou=nowhere" Sample.dcDN)) in
  RepoCreate.Insert Sample.healthy entry Sample.directory
  = (RepoCreate.Rollback (RepoCreate.MustBegin Sample.directory), Err NoSuchObject)
  /\ RepoCreate.MustBegin Sample.directory = RepoCreate.MustBegin Sample.directory
  /\ RepoCreate.db_tables
       (RepoCreate.database_after (fst (RepoCreate.Insert Sample.healthy entry Sample.directory)))
     = RepoCreate.db_tables Sample.directory
  /\ RepoCreate.db_entry_seq
       (RepoCreate.database_after (fst (RepoCreate.Insert Sample.healthy entry Sample.directory)))
     = RepoCreate.db_entry_seq Sample.directory.
Proof.
  intros entry.
  apply (missing_parent_NoSuchObject Sample.healthy entry Sample.directory
           (RepoCreate.MustBegin Sample.directory)).
  - reflexivity.
  - apply (findParent_no_row Sample.healthy (entry_DN entry)
             (Sample.childDN "ou=nowhere" Sample.dcDN)); reflexivity.
Defined.

(** ** The sibling that is there already (both files) *)





(** What insertUnderDCEntry does with an error of the driver, whichever it
    is: it wraps it. *)
Lemma insertUnderDCEntry_wraps_driver_error r entry tx dbEntry err :
  RepoCreate.AddEntryToDBEntry r entry = inr dbEntry ->
  RepoCreate.fault r RepoCreate.SiteQueryInsertUnderDC = Some err ->
  RepoCreate.insertUnderDCEntry r entry tx
  = (tx, Err (Wrapf "Failed to insert entry record." (Driver err))).
Proof.
  intros Hmap Hfault. unfold RepoCreate.insertUnderDCEntry, RepoCreate.queryx.
  unfold_monad. by rewrite Hmap, Hfault.
Qed.



(** ** Members (repo_create.go) *)

Lemma forM__discard_no_error {S A B : Type} (xs : list A) (c : A -> M S B) (s : S) (e : error) :
  snd (forM_ xs (fun x => discard (c x)) s) <> Err e.
Proof.
  revert s. induction xs as [| x xs IH]; intros s; simpl; [discriminate |].
  unfold bind, discard at 1.
  destruct (c x s) as [s' [b | e' | msg]]; simpl; try apply IH. discriminate.
Qed.

(** No failure of a batch comes out of insertMember: what it returns is
    nil, or an error of the two lookups that fill the cache. *)
Lemma insertMember_never_InvalidDNSyntax r subjectID entry tx :
  snd (RepoCreate.insertMember r subjectID entry tx) <> Err InvalidDNSyntax.
Proof.
  unfold RepoCreate.insertMember.
  destruct (length (entry_Member entry) =? 0); [discriminate |].
  unfold bind at 1. unfold external.
  destruct (RepoCreate.getDCDNOrig r (RepoCreate.tx_work tx)) as [msg | dc]; [discriminate |].
  unfold bind at 1.
  assert (Hcollect : snd (RepoCreate.collectNodeNormByParentID r (RepoCreate.dc_ID dc) tx)
                     <> Err InvalidDNSyntax).
  { unfold RepoCreate.collectNodeNormByParentID, RepoCreate.queryx. unfold_monad.
    destruct (bool_decide _); [discriminate |].
    destruct (RepoCreate.fault r RepoCreate.SiteQueryCollect); [discriminate |]. simpl.
    destruct (RepoCreate.fault r RepoCreate.SiteRowsErrCollect); discriminate. }
  destruct (RepoCreate.collectNodeNormByParentID r (RepoCreate.dc_ID dc) tx)
    as [tx1 [nodeNorms | e | msg]]; simpl in *; [| congruence | discriminate].
  unfold bind at 1.
  match goal with
  | |- context [forM_ ?xs (fun i => discard (@?c i)) tx1] =>
      pose proof (forM__discard_no_error xs c tx1) as Hloop;
      destruct (forM_ xs (fun i => discard (c i)) tx1) as [tx2 [[] | e | msg]]
  end; simpl in *; [| by destruct (Hloop e) | discriminate].
  unfold bind at 1.
  destruct (0 <? _); [| discriminate].
  unfold discard.
  destruct (RepoCreate.insertSubMembers _ _ _ _ _ tx2) as [tx3 [[] | e | msg]]; discriminate.
Qed.

(** C2, at the failing input.  cn=admins,ou=groups is added with the single
    member cn=ghost,ou=people, which is no entry of the directory.  The
    batch returns InvalidDNSyntax; insertMember drops it; Insert commits the
    entry without a MembershipEdge and returns its id. *)
Theorem unresolved_member_goes_unnoticed :
  snd (RepoCreate.insertSubMembers Sample.healthy 5 Sample.adminsDN
         (entry_Member Sample.admins_of_ghost)
         (<["ou=people,dc=example,dc=com" := 2%Z]> ∅)
         (RepoCreate.MustBegin Sample.directory))
  = Err InvalidDNSyntax
  /\ snd (RepoCreate.Insert Sample.healthy Sample.admins_of_ghost Sample.directory) = Ok 5%Z
  /\ RepoCreate.tx_status
       (fst (RepoCreate.Insert Sample.healthy Sample.admins_of_ghost Sample.directory))
     = TxCommitted
  /\ RepoCreate.ldap_member
       (RepoCreate.db_tables (Sample.after Sample.healthy Sample.admins_of_ghost Sample.directory))
     = []
  /\ RepoCreate.entry_id <$>
       RepoCreate.ldap_entry
         (RepoCreate.db_tables
            (Sample.after Sample.healthy Sample.admins_of_ghost Sample.directory))
     = [1; 2; 3; 4; 5]%Z
  /\ (forall r subjectID entry tx,
        snd (RepoCreate.insertMember r subjectID entry tx) <> Err InvalidDNSyntax).
Proof.
  split; [vm_compute; reflexivity |].
  split; [vm_compute; reflexivity |].
  split; [vm_compute; reflexivity |].
  split; [vm_compute; reflexivity |].
  split; [vm_compute; reflexivity |].
  exact insertMember_never_InvalidDNSyntax.
Qed.

(** The same entry with a member that is there gets its edge. *)
Example resolved_member_is_attached :
  snd (RepoCreate.Insert Sample.healthy Sample.admins_of_alice Sample.directory) = Ok 5%Z
  /\ RepoCreate.ldap_member
       (RepoCreate.db_tables (Sample.after Sample.healthy Sample.admins_of_alice Sample.directory))
     = [RepoCreate.mkMemberRow 5 "member" 4].
Proof. split; vm_compute; reflexivity. Qed.

(** Two references to one entry: the lookup has one row for two references,
    the batch returns InvalidDNSyntax, and that goes unnoticed as well. *)
Example same_member_twice_goes_unnoticed :
  snd (RepoCreate.insertSubMembers Sample.healthy 5 Sample.adminsDN
         (entry_Member Sample.admins_of_alice_twice)
         (<["ou=people,dc=example,dc=com" := 2%Z]> ∅)
         (RepoCreate.MustBegin Sample.directory))
  = Err InvalidDNSyntax
  /\ snd (RepoCreate.Insert Sample.healthy Sample.admins_of_alice_twice Sample.directory)
     = Ok 5%Z
  /\ RepoCreate.ldap_member
       (RepoCreate.db_tables
          (Sample.after Sample.healthy Sample.admins_of_alice_twice Sample.directory))
     = [].
Proof. repeat split; vm_compute; reflexivity. Qed.

(** ** Batches of members (repo_create.go) *)

Lemma forM__app {S A : Type} (xs ys : list A) (body : A -> M S unit) (s : S) :
  forM_ (xs ++ ys) body s = (_ <- forM_ xs body ;; forM_ ys body) s.
Proof.
  revert s. induction xs as [| x xs IH]; intros s; simpl; [reflexivity |].
  unfold bind. destruct (body x s) as [s' [[] | e | msg]]; [| reflexivity..].
  rewrite IH. reflexivity.
Qed.

Lemma forM__map {S A B : Type} (g : A -> B) (xs : list A) (body : B -> M S unit) (s : S) :
  forM_ (map g xs) body s = forM_ xs (fun x => body (g x)) s.
Proof.
  revert s. induction xs as [| x xs IH]; intros s; simpl; [reflexivity |].
  unfold bind. destruct (body (g x) s) as [s' [[] | e | msg]]; [| reflexivity..].
  apply IH.
Qed.

Lemma batches_loop {S A : Type} (members : list A) (h : list A -> M S unit) (s : S) :
  (_ <- forM_ (seq 0 (length members / 100))
          (fun i => h (RepoCreate.slice members (i * 100) (i * 100 + 100))) ;;
   _ <- (if 0 <? length members mod 100
         then h (RepoCreate.slice members (length members / 100 * 100)
                   (length members / 100 * 100 + length members mod 100))
         else ret tt) ;;
   ret tt) s
  = (_ <- forM_ (RepoCreateSpec.memberBatches members) h ;; ret tt) s.
Proof.
  unfold RepoCreateSpec.memberBatches. cbv zeta. unfold bind at 3. rewrite forM__app.
  unfold bind at 3. rewrite forM__map. unfold bind at 1.
  destruct (forM_ (seq 0 (length members / 100)) _ s) as [s1 [[] | e | msg]];
    [| reflexivity..].
  destruct (0 <? length members mod 100); simpl; [| reflexivity].
  unfold bind, ret. destruct (h _ s1) as [s2 [[] | e | msg]]; reflexivity.
Qed.

Lemma bind_ext {S A B : Type} (c : M S A) (k1 k2 : A -> M S B) (s : S) :
  (forall a s', k1 a s' = k2 a s') -> bind c k1 s = bind c k2 s.
Proof. intros H. unfold bind. destruct (c s) as [s' [a | e | msg]]; auto. Qed.

Lemma insertMember_runs_batches r subjectID entry tx :
  RepoCreate.insertMember r subjectID entry tx = RepoCreateSpec.insertMember_by_batches r subjectID entry tx.
Proof.
  unfold RepoCreate.insertMember, RepoCreateSpec.insertMember_by_batches. cbv zeta.
  destruct (length (entry_Member entry) =? 0); [reflexivity |].
  apply bind_ext. intros dc tx1. apply bind_ext. intros nodeNorms tx2.
  apply (batches_loop (entry_Member entry)
           (fun m => discard (RepoCreate.insertSubMembers r subjectID (entry_DN entry) m _))).
Qed.

Lemma slice_full_length {A : Type} (l : list A) (i g : nat) :
  i < g -> g * 100 <= length l ->
  length (RepoCreate.slice l (i * 100) (i * 100 + 100)) = 100.
Proof.
  intros Hi Hg. unfold RepoCreate.slice. rewrite length_take, length_drop. lia.
Qed.

Lemma full_batches_concat {A : Type} (l : list A) (g : nat) :
  g * 100 <= length l ->
  concat (map (fun i => RepoCreate.slice l (i * 100) (i * 100 + 100)) (seq 0 g))
  = take (g * 100) l.
Proof.
  induction g as [| g IH]; intros Hg; [reflexivity |].
  rewrite seq_S, map_app, concat_app, IH by lia. simpl. rewrite app_nil_r.
  unfold RepoCreate.slice.
  replace (g * 100 + 100 - g * 100) with 100 by lia.
  rewrite take_take_drop. f_equal. lia.
Qed.

Lemma full_batches_Forall {A : Type} (l : list A) (g : nat) :
  g * 100 <= length l ->
  Forall (fun b => length b = 100)
    (map (fun i => RepoCreate.slice l (i * 100) (i * 100 + 100)) (seq 0 g)).
Proof.
  intros Hg. apply Forall_forall. intros b Hb.
  apply list_elem_of_fmap_1 in Hb as (i & -> & Hi).
  apply list_elem_of_In, in_seq in Hi.
  apply (slice_full_length l i g); lia.
Qed.

Example member_batches_lengths :
  length <$> RepoCreateSpec.memberBatches (seq 0 250) = [100; 100; 50]
  /\ length <$> RepoCreateSpec.memberBatches (seq 0 200) = [100; 100]
  /\ RepoCreateSpec.memberBatches [7; 8; 9] = [[7; 8; 9]]
  /\ RepoCreateSpec.memberBatches (A := nat) [] = [].
Proof. repeat split; vm_compute; reflexivity. Qed.

(** C9. The batches of insertMember are: length/100 slices of exactly 100
    members, then one slice of the length mod 100 members that are left, if
    any; put end to end they are the list of members, each member once; no
    batch has more than 100 members or none; and insertMember runs
    insertSubMembers on these batches, in this order, on one transaction. *)
Theorem member_batches_partition (r : RepoCreate.Repository) (subjectID : Z)
    (entry : AddEntry) :
  let members := entry_Member entry in
  let n := length members in
  concat (RepoCreateSpec.memberBatches members) = members
  /\ (exists full rest,
        RepoCreateSpec.memberBatches members = full ++ rest
        /\ length full = n / 100
        /\ Forall (fun b => length b = 100) full
        /\ (if n mod 100 =? 0 then rest = []
            else exists b, rest = [b] /\ length b = n mod 100))
  /\ Forall (fun b => 0 < length b <= 100) (RepoCreateSpec.memberBatches members)
  /\ (forall tx, RepoCreate.insertMember r subjectID entry tx
                 = RepoCreateSpec.insertMember_by_batches r subjectID entry tx).
Proof.
  intros members n. split; [| split; [| split]];
    [| | | intros tx; apply insertMember_runs_batches];
    unfold RepoCreateSpec.memberBatches; cbv zeta; fold n;
    pose proof (Nat.div_mod_eq n 100) as Hdiv;
    pose proof (Nat.mod_upper_bound n 100 ltac:(lia)) as Hmod;
    set (g := n / 100) in *; set (rem := n mod 100) in *; clearbody g rem;
    assert (Hg : g * 100 <= length members) by (fold n; lia);
    assert (Hfull := full_batches_Forall members g Hg);
    assert (Hlast : length (RepoCreate.slice members (g * 100) (g * 100 + rem)) = rem)
      by (unfold RepoCreate.slice; rewrite length_take, length_drop; fold n; lia).
  - rewrite concat_app, full_batches_concat by exact Hg.
    destruct (0 <? rem) eqn:Hrem; simpl.
    + rewrite app_nil_r. unfold RepoCreate.slice.
      rewrite (take_ge (drop _ _)) by (rewrite length_drop; fold n; lia).
      apply take_drop.
    + apply Nat.ltb_ge in Hrem. rewrite app_nil_r.
      apply take_ge. fold n. lia.
  - eexists _, _. split; [reflexivity |].
    split; [by rewrite length_map, length_seq |].
    split; [exact Hfull |].
    destruct rem as [| k]; simpl; [reflexivity |].
    eexists. split; [reflexivity |]. exact Hlast.
  - apply Forall_app. split.
    + eapply Forall_impl; [exact Hfull |]. simpl. intros b ->. lia.
    + destruct (0 <? rem) eqn:Hrem; [| apply Forall_nil_2].
      apply Nat.ltb_lt in Hrem. apply Forall_cons. split; [| apply Forall_nil_2].
      rewrite Hlast. lia.
Qed.

(** * Reasoning about the errors of computations *)

Lemma raises_ret {S A : Type} (P : error -> Prop) (a : A) : raises (S := S) P (ret a).
Proof. intros s e. discriminate. Qed.

Lemma raises_fail {S A : Type} (P : error -> Prop) (e : error) :
  P e -> raises (S := S) (A := A) P (fail e).
Proof. intros HP s e' [= <-]. exact HP. Qed.

Lemma raises_deref {S A : Type} (P : error -> Prop) (p : option A) :
  raises (S := S) P (deref p).
Proof. intros s e. destruct p; discriminate. Qed.

Lemma raises_external {S A : Type} (P : error -> Prop) (f : S -> string + A) :
  (forall msg, P (External msg)) -> raises P (fun s => (s, external (f s))).
Proof. intros HP s e. simpl. destruct (f s); intros [= <-]. apply HP. Qed.

Lemma raises_bind {S A B : Type} (P : error -> Prop) (c : M S A) (k : A -> M S B) :
  raises P c -> (forall a, raises P (k a)) -> raises P (bind c k).
Proof.
  intros Hc Hk s e. unfold bind. specialize (Hc s).
  destruct (c s) as [s' [a | e' | msg]]; simpl in *.
  - apply Hk.
  - intros [= <-]. by apply Hc.
  - discriminate.
Qed.

Lemma raises_discard {S A : Type} (P : error -> Prop) (c : M S A) : raises P (discard c).
Proof. intros s e. unfold discard. destruct (c s) as [s' [a | e' | msg]]; discriminate. Qed.

Lemma raises_forM_ {S A : Type} (P : error -> Prop) (xs : list A) (body : A -> M S unit) :
  (forall x, raises P (body x)) -> raises P (forM_ xs body).
Proof.
  intros Hb. induction xs as [| x xs IH]; simpl; [apply raises_ret |].
  apply raises_bind; auto.
Qed.

(** * More about part_000: what a call of Insert leaves behind *)
Module Part000More.
Import Part000 Part000Spec Part000Facts.

(** Promotion that returns nil has found the TreeNode or has run its
    conditional insert. *)
Lemma insertTree_Ok_cases r id isRoot tx :
  snd (insertTree r id isRoot tx) = Ok tt ->
  (tree_exists (tx_work tx) id = true /\ fst (insertTree r id isRoot tx) = tx)
  \/ (tree_exists (tx_work tx) id = false /\
      fst (insertTree r id isRoot tx)
        = with_tree_rows tx (promoted_rows (tx_work tx) id isRoot)).
Proof.
  unfold insertTree, driver_call, queryx, promoted_rows. unfold_monad.
  destruct (fault r SitePrepareInsertTree); [discriminate |].
  destruct (fault r SiteQueryInsertTree); [discriminate |].
  destruct isRoot; unfold insertRootTreeStmt, insertChildTreeStmt;
    destruct (tree_exists (tx_work tx) id) eqn:Hex; simpl; intros Hres;
    try (by left); right; split; try done.
  - by destruct (fault r SiteScanInsertTree).
  - destruct (map _ (map _ _)); [reflexivity |].
    by destruct (fault r SiteScanInsertTree).
Qed.

(** The step of insertWithTx returns no id, or has added the root row, or
    has added the child row and promoted the parent. *)
Lemma dispatch000_shape r entry tx :
  ((forall id, snd (dispatch000 r entry tx) <> Ok id)
   /\ same_frame tx (fst (dispatch000 r entry tx)))
  \/ (exists dbEntry,
        IsRoot (entry_DN entry) = true
        /\ root_exists (tx_work tx) (entry_RDNNorm entry) = false
        /\ dispatch000 r entry tx
           = (with_entry tx (root_row entry dbEntry (tx_entry_seq tx)), Ok (tx_entry_seq tx)))
  \/ (exists q pid dbEntry pdn,
        IsRoot (entry_DN entry) = false
        /\ entry_ParentDN entry = Some pdn
        /\ createFindBasePathByDNSQL r (entry_ParentDN entry) {| Lock := true |} = inr q
        /\ q (tx_work tx) = Some pid
        /\ sibling_exists (tx_work tx) pid (entry_RDNNorm entry) = false
        /\ snd (dispatch000 r entry tx) = Ok (tx_entry_seq tx)
        /\ same_frame tx (fst (dispatch000 r entry tx))
        /\ tx_entry_seq (fst (dispatch000 r entry tx)) = (tx_entry_seq tx + 1)%Z
        /\ tx_work (fst (dispatch000 r entry tx))
           = tables_after_child (tx_work tx)
               (child_row entry dbEntry (tx_entry_seq tx) pid) pid (IsRoot pdn)).
Proof.
  pose proof (dispatch000_frame r entry tx) as Hframe.
  unfold dispatch000 in *. destruct (IsRoot (entry_DN entry)) eqn:Hroot.
  - destruct (insertRootEntry_cases r entry tx)
      as [[Hst Hno] | (dbEntry & _ & Hex & Hst & Hres)].
    + left. by split.
    + destruct Hres as [Hres | [e Hres]].
      * right. left. exists dbEntry. split; [reflexivity |]. split; [exact Hex |].
        destruct (insertRootEntry r entry tx); simpl in *. congruence.
      * left. split; [| exact Hframe]. intros id. rewrite Hres. discriminate.
  - unfold insertEntryAndTree in *. rewrite Hroot in *.
    unfold bind, ret, deref, lift in *.
    destruct (insertEntry_cases r entry tx)
      as [[Hst Hno] | (q & pid & dbEntry & _ & Hq & Hpid & Hsib & Hst & Hres)];
      destruct (insertEntry r entry tx) as [tx1 res1]; simpl in Hst; subst tx1.
    + left. split; [| exact Hframe].
      destruct res1 as [v | e | msg]; simpl in *; [by destruct (Hno v) | discriminate..].
    + simpl in Hres. destruct Hres as [-> | [e ->]]; simpl in *;
        [| left; split; [discriminate | exact Hframe]].
      destruct (entry_ParentDN entry) as [pdn |] eqn:Hpdn; simpl in *;
        [| left; split; [discriminate | exact Hframe]].
      set (tx1 := with_entry tx (child_row entry dbEntry (tx_entry_seq tx) pid)) in *.
      pose proof (insertTree_Ok_cases r pid (IsRoot pdn) tx1) as HT.
      destruct (insertTree r pid (IsRoot pdn) tx1) as [tx2 [[] | e | msg]]; simpl in *;
        [| left; split; [discriminate | exact Hframe]..].
      right. right. exists q, pid, dbEntry, pdn.
      split; [reflexivity |]. split; [reflexivity |]. split; [exact Hq |].
      split; [exact Hpid |]. split; [exact Hsib |]. split; [reflexivity |].
      split; [exact Hframe |].
      unfold tables_after_child. cbv zeta.
      destruct (HT eq_refl) as [[Hex ->] | [Hex ->]]; simpl in Hex; rewrite Hex;
        by split.
Qed.

(** The three ways a call of Insert can end. *)
Lemma Insert_shape r entry db :
  ((forall id, snd (Insert r entry db) <> Ok id)
   /\ db_tables (database_after (fst (Insert r entry db))) = db_tables db)
  \/ (exists dbEntry,
        IsRoot (entry_DN entry) = true
        /\ snd (Insert r entry db) = Ok (db_entry_seq db)
        /\ tx_status (fst (Insert r entry db)) = TxCommitted
        /\ db_entry_seq (database_after (fst (Insert r entry db))) = (db_entry_seq db + 1)%Z
        /\ root_exists (db_tables db) (entry_RDNNorm entry) = false
        /\ db_tables (database_after (fst (Insert r entry db)))
           = mkTables (ldap_entry (db_tables db) ++ [root_row entry dbEntry (db_entry_seq db)])
               (ldap_tree (db_tables db)))
  \/ (exists q pid dbEntry pdn,
        IsRoot (entry_DN entry) = false
        /\ snd (Insert r entry db) = Ok (db_entry_seq db)
        /\ tx_status (fst (Insert r entry db)) = TxCommitted
        /\ db_entry_seq (database_after (fst (Insert r entry db))) = (db_entry_seq db + 1)%Z
        /\ entry_ParentDN entry = Some pdn
        /\ createFindBasePathByDNSQL r (entry_ParentDN entry) {| Lock := true |} = inr q
        /\ q (db_tables db) = Some pid
        /\ sibling_exists (db_tables db) pid (entry_RDNNorm entry) = false
        /\ db_tables (database_after (fst (Insert r entry db)))
           = tables_after_child (db_tables db)
               (child_row entry dbEntry (db_entry_seq db) pid) pid (IsRoot pdn)).
Proof.
  unfold Insert, insertWithTx. cbv zeta. fold (dispatch000 r entry).
  set (tx := MustBegin db).
  destruct (dispatch000_shape r entry tx)
    as [[Hno [Hb Hs]] | [(dbEntry & Hroot & Hex & Hstep)
                        | (q & pid & dbEntry & pdn & Hroot & Hpdn & Hq & Hpid & Hsib
                           & Hres & [Hb Hs] & Hseq & Hwork)]].
  - left. destruct (dispatch000 r entry tx) as [tx1 [v | e | msg]]; simpl in *.
    + by destruct (Hno v).
    + split; [discriminate | exact Hb].
    + split; [discriminate |]. by rewrite Hs, Hb.
  - rewrite Hstep. unfold Commit. destruct (fault r SiteCommit); simpl.
    + left. split; [discriminate | reflexivity].
    + right. left. exists dbEntry. by repeat split.
  - destruct (dispatch000 r entry tx) as [tx1 res]; simpl in *. subst res.
    unfold Commit. destruct (fault r SiteCommit); simpl.
    + left. split; [discriminate | exact Hb].
    + right. right. exists q, pid, dbEntry, pdn. by repeat split.
Qed.

(** ** The errors of part_000 *)

Lemma not_foreign_Wrapf msg cause : not_foreign (Wrapf msg cause).
Proof. intros [H | H]; discriminate. Qed.

Lemma raises_driver_call (P : error -> Prop) r site msg :
  (forall m c, P (Wrapf m c)) -> raises P (driver_call r site msg).
Proof.
  intros HP tx e. unfold driver_call, fail, ret. destruct (fault r site); intros [= <-]. apply HP.
Qed.

Lemma raises_queryx {Row : Type} (P : error -> Prop) r site msg (stmt : Tx -> Tx * list Row) :
  (forall m c, P (Wrapf m c)) -> raises P (queryx r site msg stmt).
Proof.
  intros HP tx e. unfold queryx, fail. destruct (fault r site).
  - intros [= <-]. apply HP.
  - destruct (stmt tx). discriminate.
Qed.

Lemma dispatch000_not_foreign r entry : raises not_foreign (dispatch000 r entry).
Proof.
  assert (HW := not_foreign_Wrapf).
  assert (HE : forall msg, not_foreign (External msg)) by (intros msg [H | H]; discriminate).
  assert (HA : not_foreign AlreadyExists) by (intros [H | H]; discriminate).
  assert (HF : forall msg, not_foreign (Errorf msg)) by (intros msg [H | H]; discriminate).
  assert (Hentry : raises not_foreign (insertEntry r entry)).
  { unfold insertEntry. destruct (IsRoot (entry_DN entry)); [by apply raises_fail |].
    apply raises_bind; [by apply (raises_external not_foreign) |]. intros dbEntry.
    apply raises_bind.
    { destruct (createFindBasePathByDNSQL _ _ _); [by apply raises_fail | apply raises_ret]. }
    intros q. apply raises_bind; [by apply raises_driver_call |]. intros _.
    apply raises_bind; [by apply raises_queryx |].
    intros [| [id pid] rows]; [by apply raises_fail |].
    apply raises_bind; [by apply raises_driver_call | intros; apply raises_ret]. }
  unfold dispatch000. destruct (IsRoot (entry_DN entry)) eqn:Hroot.
  - unfold insertRootEntry. rewrite Hroot. simpl.
    apply raises_bind; [by apply (raises_external not_foreign) |]. intros dbEntry.
    apply raises_bind; [by apply raises_driver_call |]. intros _.
    apply raises_bind; [by apply raises_queryx |].
    intros [| id rows]; [by apply raises_fail |].
    apply raises_bind; [by apply raises_driver_call | intros; apply raises_ret].
  - apply raises_bind; [| intros; apply raises_ret].
    unfold insertEntryAndTree. rewrite Hroot.
    apply raises_bind; [exact Hentry |]. intros [newID parentId].
    apply raises_bind; [apply raises_deref |]. intros parentDN.
    apply raises_bind; [| intros; apply raises_ret].
    unfold insertTree. apply raises_bind; [by apply raises_driver_call |]. intros _.
    apply raises_bind; [by apply raises_queryx |].
    intros [| row rows]; [apply raises_ret | by apply raises_driver_call].
Qed.

Lemma Insert_not_foreign r entry db e :
  snd (Insert r entry db) = Err e -> not_foreign e.
Proof.
  unfold Insert, insertWithTx. cbv zeta. fold (dispatch000 r entry).
  pose proof (dispatch000_not_foreign r entry (MustBegin db)) as Hstep.
  destruct (dispatch000 r entry (MustBegin db)) as [tx1 [v | e' | msg]]; simpl in *.
  - unfold Commit. destruct (fault r SiteCommit); simpl; [| discriminate].
    intros [= <-] [H | H]; discriminate.
  - intros [= <-]. by apply Hstep.
  - discriminate.
Qed.

(** ** Invariants of the databases that Insert builds *)

Lemma sibling_exists_false_key tb pid rdn :
  sibling_exists tb pid rdn = false -> (Some pid, rdn) ∉ sibling_key <$> ldap_entry tb.
Proof.
  intros Hex Hin. apply list_elem_of_fmap_1 in Hin as (e & Hkey & He).
  eapply existsb_false_forall in Hex; [| exact He].
  unfold sibling_key in Hkey. injection Hkey as Hp Hr.
  simpl in Hex. by rewrite !bool_decide_eq_true_2 in Hex.
Qed.

Lemma root_exists_false_key tb rdn :
  root_exists tb rdn = false -> (None, rdn) ∉ sibling_key <$> ldap_entry tb.
Proof.
  intros Hex Hin. apply list_elem_of_fmap_1 in Hin as (e & Hkey & He).
  eapply existsb_false_forall in Hex; [| exact He].
  unfold sibling_key in Hkey. injection Hkey as Hp Hr.
  simpl in Hex. by rewrite !bool_decide_eq_true_2 in Hex.
Qed.

Lemma NoDup_snoc_fresh {A : Type} (l : list A) (x : A) : x ∉ l -> NoDup l -> NoDup (l ++ [x]).
Proof.
  intros Hx Hl. apply NoDup_app. split; [exact Hl |]. split; [| apply NoDup_singleton].
  intros y Hy Hy'. apply list_elem_of_singleton in Hy' as ->. by apply Hx.
Qed.

Lemma tables_after_child_entries tb row pid isRoot :
  ldap_entry (tables_after_child tb row pid isRoot) = ldap_entry tb ++ [row].
Proof. unfold tables_after_child. cbv zeta. by destruct (tree_exists _ _). Qed.

Lemma tables_after_child_tree tb row pid isRoot :
  exists rows,
    ldap_tree (tables_after_child tb row pid isRoot) = ldap_tree tb ++ rows
    /\ (forall t, t ∈ rows -> tree_id t = pid)
    /\ (tree_exists (mkTables (ldap_entry tb ++ [row]) (ldap_tree tb)) pid = true -> rows = [])
    /\ (tree_exists (mkTables (ldap_entry tb ++ [row]) (ldap_tree tb)) pid = false ->
        rows = promoted_rows (mkTables (ldap_entry tb ++ [row]) (ldap_tree tb)) pid isRoot).
Proof.
  unfold tables_after_child. cbv zeta.
  destruct (tree_exists _ pid) eqn:Hex.
  - exists []. simpl. rewrite app_nil_r. repeat split; try done.
    intros t Ht. by apply elem_of_nil in Ht.
  - eexists. simpl. split; [reflexivity |]. split; [| done].
    intros t Ht. by eapply promoted_rows_id.
Qed.

Lemma reachable_siblings_unique r db : reachable r db -> siblings_unique (db_tables db).
Proof.
  induction 1 as [seq | db entry Hreach IH]; [apply NoDup_nil_2 |].
  destruct (Insert_shape r entry db)
    as [[_ ->] | [(dbEntry & _ & _ & _ & _ & Hex & ->)
                 | (q & pid & dbEntry & pdn & _ & _ & _ & _ & _ & _ & _ & Hsib & ->)]];
    [exact IH | |]; unfold siblings_unique in *.
  - simpl. rewrite fmap_app. apply NoDup_snoc_fresh; [| exact IH].
    by apply root_exists_false_key.
  - rewrite tables_after_child_entries, fmap_app.
    apply NoDup_snoc_fresh; [| exact IH]. by apply sibling_exists_false_key.
Qed.

Lemma reachable_promoted_have_children r db :
  reachable r db -> promoted_have_children (db_tables db).
Proof.
  induction 1 as [seq | db entry Hreach IH];
    [intros t Ht; by apply elem_of_nil in Ht |].
  destruct (Insert_shape r entry db)
    as [[_ ->] | [(dbEntry & _ & _ & _ & _ & Hex & ->)
                 | (q & pid & dbEntry & pdn & _ & _ & _ & _ & _ & _ & _ & Hsib & ->)]];
    [exact IH | |].
  - intros t Ht. simpl in Ht. destruct (IH t Ht) as (c & Hc & Hp).
    exists c. split; [| exact Hp]. simpl. apply elem_of_app. by left.
  - intros t Ht.
    destruct (tables_after_child_tree (db_tables db)
                (child_row entry dbEntry (db_entry_seq db) pid) pid (IsRoot pdn))
      as (rows & Htree & Hids & _).
    rewrite tables_after_child_entries. rewrite Htree in Ht.
    apply elem_of_app in Ht as [Ht | Ht].
    + destruct (IH t Ht) as (c & Hc & Hp). exists c. split; [| exact Hp].
      apply elem_of_app. by left.
    + exists (child_row entry dbEntry (db_entry_seq db) pid).
      split; [apply elem_of_app; right; apply list_elem_of_here |].
      simpl. by rewrite (Hids t Ht).
Qed.

Lemma reachable_parents_promoted r db :
  child_resolves_to_child r -> reachable r db -> parents_promoted (db_tables db).
Proof.
  intros Hres. induction 1 as [seq | db entry Hreach IH];
    [intros c pid Hc; by apply elem_of_nil in Hc |].
  destruct (Insert_shape r entry db)
    as [[_ ->] | [(dbEntry & _ & _ & _ & _ & Hex & ->)
                 | (q & pid & dbEntry & pdn & _ & _ & _ & _ & Hpdn & Hq & Hpid & Hsib & ->)]];
    [exact IH | |].
  - intros c pid Hc Hp. simpl in Hc. apply elem_of_app in Hc as [Hc | Hc].
    + exact (IH c pid Hc Hp).
    + apply list_elem_of_singleton in Hc as ->. discriminate.
  - set (row := child_row entry dbEntry (db_entry_seq db) pid).
    set (tb1 := mkTables (ldap_entry (db_tables db) ++ [row]) (ldap_tree (db_tables db))).
    destruct (tables_after_child_tree (db_tables db) row pid (IsRoot pdn))
      as (rows & Htree & Hids & Hthere & Hnew).
    intros c p Hc Hp. rewrite tables_after_child_entries in Hc. rewrite Htree.
    apply elem_of_app in Hc as [Hc | Hc].
    + destruct (IH c p Hc Hp) as (t & Ht & Hid). exists t. split; [| exact Hid].
      apply elem_of_app. by left.
    + apply list_elem_of_singleton in Hc as ->. simpl in Hp. injection Hp as <-.
      destruct (tree_exists tb1 pid) eqn:Hex.
      * apply existsb_exists in Hex as (t & Ht & Hid).
        apply bool_decide_eq_true_1 in Hid. apply list_elem_of_In in Ht.
        exists t. split; [| exact Hid]. apply elem_of_app. by left.
      * rewrite (Hnew Hex). unfold promoted_rows.
        destruct (IsRoot pdn) eqn:Hroot.
        -- eexists. split; [apply elem_of_app; right; apply list_elem_of_here | reflexivity].
        -- rewrite Hpdn in Hq.
           destruct (Hres pdn _ q (db_tables db) pid Hq Hpid Hroot) as (e & g & He & Hid & Hg).
           destruct (IH e g He Hg) as (tg & Htg & Hidg).
           exists (mkTreeRow pid (tree_path tg +:+ pretty pid)). split; [| reflexivity].
           apply elem_of_app. right.
           apply (list_elem_of_fmap_2 (fun p => mkTreeRow pid (tree_path p +:+ pretty pid))).
           apply elem_of_parent_tree_rows. split; [exact Htg |].
           exists e. split; [simpl; apply elem_of_app; by left |]. split; [exact Hid |].
           by rewrite Hidg.
Qed.

Lemma seq_le_refl : Reflexive seq_le.
Proof. intros tx. unfold seq_le. lia. Qed.

Lemma seq_le_trans : Transitive seq_le.
Proof. intros a b c. unfold seq_le. lia. Qed.

Lemma dispatch000_seq_le r entry : steps seq_le (dispatch000 r entry).
Proof.
  pose proof seq_le_refl as HR. pose proof seq_le_trans as HT.
  unfold dispatch000. destruct (IsRoot (entry_DN entry)).
  - apply insertRootEntry_steps; [exact HR | exact HT |].
    intros rn ro an ao tx. unfold insertRootEntryStmt, seq_le.
    destruct (root_exists _ _); simpl; lia.
  - apply steps_bind; [exact HT | | intros; by apply steps_ret].
    unfold insertEntryAndTree. destruct (IsRoot (entry_DN entry)); [by apply steps_fail |].
    apply steps_bind; [exact HT | |].
    { apply insertEntry_steps; [exact HR | exact HT |].
      intros q rn ro an ao tx. unfold insertEntryStmt, seq_le.
      destruct (q (tx_work tx)); simpl; [| lia].
      destruct (sibling_exists _ _ _); simpl; lia. }
    intros [newID parentId]. apply steps_bind; [exact HT | by apply steps_deref |].
    intros parentDN. apply steps_bind; [exact HT | | intros; by apply steps_ret].
    apply insertTree_steps; [exact HR | exact HT | |]; intros tx;
      unfold insertRootTreeStmt, insertChildTreeStmt, seq_le;
      destruct (tree_exists _ _); simpl; lia.
Qed.

Lemma Insert_seq_mono r entry db :
  (db_entry_seq db <= db_entry_seq (database_after (fst (Insert r entry db))))%Z.
Proof.
  unfold Insert, insertWithTx. cbv zeta. fold (dispatch000 r entry).
  pose proof (dispatch000_seq_le r entry (MustBegin db)) as Hstep. unfold seq_le in Hstep.
  destruct (dispatch000 r entry (MustBegin db)) as [tx1 [v | e | msg]]; simpl in *; try exact Hstep.
  unfold Commit. destruct (fault r SiteCommit); simpl; exact Hstep.
Qed.

Lemma Insert_extends r entry db :
  extends (db_tables db) (db_tables (database_after (fst (Insert r entry db)))).
Proof.
  destruct (Insert_shape r entry db)
    as [[_ ->] | [(dbEntry & _ & _ & _ & _ & Hex & ->)
                 | (q & pid & dbEntry & pdn & _ & _ & _ & _ & _ & _ & _ & Hsib & ->)]].
  - by split.
  - split; simpl; [by apply prefix_app_r | done].
  - destruct (tables_after_child_tree (db_tables db)
                (child_row entry dbEntry (db_entry_seq db) pid) pid (IsRoot pdn))
      as (rows & Htree & _).
    split; [rewrite tables_after_child_entries | rewrite Htree]; by apply prefix_app_r.
Qed.

End Part000More.

(** * Further properties of part_000 *)

(** X1. In every database that Insert builds, no two entries have the same
    parent and the same rdn_norm, roots included: the pairs (parent_id,
    rdn_norm) of the rows of ldap_entry are pairwise different. *)
Theorem part000_siblings_unique (r : Part000.Repository) (db : Part000.Database) :
  Part000Spec.reachable r db ->
  NoDup ((fun e => (Part000.entry_parent_id e, Part000.entry_rdn_norm e))
           <$> Part000.ldap_entry (Part000.db_tables db)).
Proof. apply Part000More.reachable_siblings_unique. Qed.

Lemma part000_siblings_unique_witness :
  NoDup ((fun e => (Part000.entry_parent_id e, Part000.entry_rdn_norm e))
           <$> Part000.ldap_entry (Part000.db_tables Sample.directory000)).
Proof.
  apply (part000_siblings_unique Sample.healthy000 Sample.directory000).
  repeat apply Part000Spec.reachable_Insert. apply Part000Spec.reachable_empty.
Defined.

(** X2. In every database that Insert builds, a TreeNode row belongs to a
    node that has a child: a node without children is never promoted. *)
Theorem part000_tree_node_has_child (r : Part000.Repository) (db : Part000.Database)
    (t : Part000.TreeRow) :
  Part000Spec.reachable r db ->
  t ∈ Part000.ldap_tree (Part000.db_tables db) ->
  exists c, c ∈ Part000.ldap_entry (Part000.db_tables db)
            /\ Part000.entry_parent_id c = Some (Part000.tree_id t).
Proof. intros Hreach Ht. by apply (Part000More.reachable_promoted_have_children r db). Qed.

Lemma part000_tree_node_has_child_witness :
  exists c, c ∈ Part000.ldap_entry (Part000.db_tables Sample.directory000)
            /\ Part000.entry_parent_id c = Some 2%Z.
Proof.
  apply (part000_tree_node_has_child Sample.healthy000 Sample.directory000
           (Part000.mkTreeRow 2 "12")).
  - repeat apply Part000Spec.reachable_Insert. apply Part000Spec.reachable_empty.
  - apply list_elem_of_In. vm_compute. auto.
Defined.

Lemma sample_child_resolves_to_child fault :
  Part000Spec.child_resolves_to_child (Sample.part000 fault).
Proof.
  intros pdn opt q tb pid Hq Hpid Hroot. simpl in Hq. injection Hq as <-.
  unfold Sample.resolve in Hpid.
  destruct (List.find _ _) as [e |] eqn:Hfind; [| discriminate].
  simpl in Hpid. injection Hpid as <-.
  apply find_some in Hfind as [Hin Hp]. apply andb_prop in Hp as [_ Hp].
  rewrite Hroot in Hp. apply eqb_prop in Hp. apply bool_decide_eq_false_1 in Hp.
  destruct (Part000.entry_parent_id e) as [g |] eqn:Hg; [| done].
  exists e, g. split; [by apply list_elem_of_In | by split].
Qed.

(** X3. When the resolver of the parent answers a DN that is not the root
    with an entry that has a parent, every node with a child has a TreeNode
    row in every database that Insert builds. *)
Theorem part000_parent_has_tree_node (r : Part000.Repository) (db : Part000.Database)
    (c : Part000.EntryRow) (pid : Z) :
  Part000Spec.child_resolves_to_child r ->
  Part000Spec.reachable r db ->
  c ∈ Part000.ldap_entry (Part000.db_tables db) ->
  Part000.entry_parent_id c = Some pid ->
  exists t, t ∈ Part000.ldap_tree (Part000.db_tables db) /\ Part000.tree_id t = pid.
Proof.
  intros Hres Hreach Hc Hp.
  by apply (Part000More.reachable_parents_promoted r db Hres Hreach c pid).
Qed.

Lemma part000_parent_has_tree_node_witness :
  exists t, t ∈ Part000.ldap_tree (Part000.db_tables Sample.directory000)
            /\ Part000.tree_id t = 2%Z.
Proof.
  apply (part000_parent_has_tree_node Sample.healthy000 Sample.directory000
           (Part000.mkEntryRow 3 (Some 2%Z) "cn=alice" "cn=alice" "{}" "{}") 2).
  - apply sample_child_resolves_to_child.
  - repeat apply Part000Spec.reachable_Insert. apply Part000Spec.reachable_empty.
  - apply list_elem_of_In. vm_compute. auto.
  - reflexivity.
Defined.

(** X4. When the sub-select for the parent has no row, the conditional
    insert of part_000 returns no row either: insertEntry reports the
    missing parent as AlreadyExists and leaves the transaction alone. *)
Theorem part000_missing_parent_AlreadyExists (r : Part000.Repository) (entry : AddEntry)
    (tx : Part000.Tx) (q : Part000.Tables -> option Z) (dbEntry : Part000.DBEntry) :
  IsRoot (entry_DN entry) = false ->
  Part000.AddEntryToDBEntry r (Part000.tx_work tx) entry = inr dbEntry ->
  Part000.createFindBasePathByDNSQL r (entry_ParentDN entry) {| Part000.Lock := true |}
    = inr q ->
  Part000.fault r Part000.SitePrepareInsertEntry = None ->
  Part000.fault r Part000.SiteQueryInsertEntry = None ->
  q (Part000.tx_work tx) = None ->
  Part000.insertEntry r entry tx = (tx, Err AlreadyExists)
  /\ Part000.insertEntryAndTree r entry tx = (tx, Err AlreadyExists).
Proof.
  intros Hroot Hmap Hq H1 H2 Hnone.
  assert (Part000.insertEntry r entry tx = (tx, Err AlreadyExists)) as Hentry.
  { unfold Part000.insertEntry, Part000.driver_call, Part000.queryx, Part000.insertEntryStmt.
    unfold_monad. rewrite Hroot, Hmap, Hq, H1, H2. by rewrite Hnone. }
  split; [exact Hentry |].
  unfold Part000.insertEntryAndTree. rewrite Hroot. unfold bind. by rewrite Hentry.
Qed.

Lemma part000_missing_parent_AlreadyExists_witness :
  let entry := Sample.entryOf (Sample.childDN "cn=bob" (Sample.childDN "ou=nowhere" Sample.dcDN)) in
  let tx := Part000.MustBegin Sample.directory000 in
  Part000.insertEntry Sample.healthy000 entry tx = (tx, Err AlreadyExists)
  /\ Part000.insertEntryAndTree Sample.healthy000 entry tx = (tx, Err AlreadyExists).
Proof.
  intros entry tx.
  apply (part000_missing_parent_AlreadyExists Sample.healthy000 entry tx
           (Sample.resolve (entry_ParentDN entry)) (Part000.mkDBEntry "{}" "{}"));
    reflexivity.
Defined.

(** X5. A call of part_000's Insert that returns an id has committed; the
    id is the next value of the sequence, which moves on by one; the entry
    table has one more row, at its end, with this id and the names of the
    entry; a root row comes with no change of ldap_tree, a child row lies
    under the row that the sub-select for the parent picked, and every
    TreeNode row that came with it is one of that parent. *)
Theorem part000_Insert_success (r : Part000.Repository) (entry : AddEntry)
    (db : Part000.Database) (tx' : Part000.Tx) (id : Z) :
  Part000.Insert r entry db = (tx', Ok id) ->
  Part000.tx_status tx' = TxCommitted
  /\ id = Part000.db_entry_seq db
  /\ Part000.db_entry_seq (Part000.database_after tx') = (id + 1)%Z
  /\ exists row rows,
       Part000.ldap_entry (Part000.db_tables (Part000.database_after tx'))
       = Part000.ldap_entry (Part000.db_tables db) ++ [row]
       /\ Part000.ldap_tree (Part000.db_tables (Part000.database_after tx'))
          = Part000.ldap_tree (Part000.db_tables db) ++ rows
       /\ Part000.entry_id row = id
       /\ Part000.entry_rdn_norm row = entry_RDNNorm entry
       /\ Part000.entry_rdn_orig row = entry_RDNOrig entry
       /\ match Part000.entry_parent_id row with
          | None => IsRoot (entry_DN entry) = true /\ rows = []
          | Some pid =>
              IsRoot (entry_DN entry) = false
              /\ (exists q,
                    Part000.createFindBasePathByDNSQL r (entry_ParentDN entry)
                      {| Part000.Lock := true |} = inr q
                    /\ q (Part000.db_tables db) = Some pid)
              /\ (forall t, t ∈ rows -> Part000.tree_id t = pid)
          end.
Proof.
  intros HI.
  destruct (Part000More.Insert_shape r entry db)
    as [[Hno _] | [(dbEntry & Hroot & Hres & Hst & Hseq & Hex & Htb)
                  | (q & pid & dbEntry & pdn & Hroot & Hres & Hst & Hseq & Hpdn & Hq & Hpid
                     & Hsib & Htb)]];
    rewrite HI in *; simpl in *.
  - by destruct (Hno id).
  - injection Hres as ->. split; [exact Hst |]. split; [reflexivity |]. split; [exact Hseq |].
    eexists _, []. rewrite Htb. simpl. rewrite app_nil_r. by repeat split.
  - injection Hres as ->. split; [exact Hst |]. split; [reflexivity |]. split; [exact Hseq |].
    destruct (Part000More.tables_after_child_tree (Part000.db_tables db)
                (Part000Spec.child_row entry dbEntry (Part000.db_entry_seq db) pid) pid
                (IsRoot pdn)) as (rows & Htree & Hids & _).
    eexists _, rows. rewrite Htb, Part000More.tables_after_child_entries, Htree. simpl.
    repeat split; try done. by exists q.
Qed.

Lemma part000_Insert_success_witness :
  let res := Part000.Insert Sample.healthy000 (Sample.entryOf Sample.ghostDN)
               Sample.directory000 in
  Part000.tx_status (fst res) = TxCommitted
  /\ 4%Z = Part000.db_entry_seq Sample.directory000
  /\ Part000.db_entry_seq (Part000.database_after (fst res)) = (4 + 1)%Z
  /\ exists row rows,
       Part000.ldap_entry (Part000.db_tables (Part000.database_after (fst res)))
       = Part000.ldap_entry (Part000.db_tables Sample.directory000) ++ [row]
       /\ Part000.ldap_tree (Part000.db_tables (Part000.database_after (fst res)))
          = Part000.ldap_tree (Part000.db_tables Sample.directory000) ++ rows
       /\ Part000.entry_id row = 4%Z
       /\ Part000.entry_rdn_norm row = "cn=ghost"
       /\ Part000.entry_rdn_orig row = "cn=ghost"
       /\ match Part000.entry_parent_id row with
          | None => IsRoot Sample.ghostDN = true /\ rows = []
          | Some pid =>
              IsRoot Sample.ghostDN = false
              /\ (exists q,
                    Part000.createFindBasePathByDNSQL Sample.healthy000
                      (Some Sample.peopleDN) {| Part000.Lock := true |} = inr q
                    /\ q (Part000.db_tables Sample.directory000) = Some pid)
              /\ (forall t, t ∈ rows -> Part000.tree_id t = pid)
          end.
Proof.
  intros res.
  apply (part000_Insert_success Sample.healthy000 (Sample.entryOf Sample.ghostDN)
           Sample.directory000 (fst res) 4).
  vm_compute. reflexivity.
Defined.

(** X6. Whatever a call of part_000's Insert returns, the rows that were in
    ldap_entry and ldap_tree before are there afterwards, unchanged and in
    their place: Insert appends rows or does nothing. *)
Theorem part000_Insert_append_only (r : Part000.Repository) (entry : AddEntry)
    (db : Part000.Database) :
  Part000.ldap_entry (Part000.db_tables db)
    `prefix_of` Part000.ldap_entry
                  (Part000.db_tables (Part000.database_after (fst (Part000.Insert r entry db))))
  /\ Part000.ldap_tree (Part000.db_tables db)
       `prefix_of` Part000.ldap_tree
                     (Part000.db_tables (Part000.database_after (fst (Part000.Insert r entry db))))
  /\ (Part000.db_entry_seq db
      <= Part000.db_entry_seq (Part000.database_after (fst (Part000.Insert r entry db))))%Z.
Proof.
  destruct (Part000More.Insert_extends r entry db) as [He Ht].
  split; [exact He |]. split; [exact Ht |].
  apply Part000More.Insert_seq_mono.
Qed.

(** X7. part_000's Insert never returns NoSuchObject or InvalidDNSyntax,
    whatever the entry, the database and the failures of the driver. *)
Theorem part000_Insert_never_NoSuchObject (r : Part000.Repository) (entry : AddEntry)
    (db : Part000.Database) :
  snd (Part000.Insert r entry db) <> Err NoSuchObject
  /\ snd (Part000.Insert r entry db) <> Err InvalidDNSyntax.
Proof.
  split; intros H; apply Part000More.Insert_not_foreign in H; apply H; [by left | by right].
Qed.

(** X20. In part_000, the promotion of a node that is not a root, while the
    parent of the node has no row in ldap_tree, returns nil and writes
    nothing: the INSERT ... SELECT has no row to take the path from, and
    insertTree reads "no row" as "the tree entry already exists". *)
Theorem part000_promotion_without_parent_node (r : Part000.Repository) (id : Z)
    (tx : Part000.Tx) :
  Part000.fault r Part000.SitePrepareInsertTree = None ->
  Part000.fault r Part000.SiteQueryInsertTree = None ->
  Part000.parent_tree_rows (Part000.tx_work tx) id = [] ->
  snd (Part000.insertTree r id false tx) = Ok tt
  /\ Part000.tx_work (fst (Part000.insertTree r id false tx)) = Part000.tx_work tx
  /\ Part000.tx_entry_seq (fst (Part000.insertTree r id false tx)) = Part000.tx_entry_seq tx.
Proof.
  intros H1 H2 Hrows.
  unfold Part000.insertTree, Part000.driver_call, Part000.queryx, Part000.insertChildTreeStmt.
  unfold_monad. rewrite H1, H2, Hrows.
  destruct (Part000.tree_exists (Part000.tx_work tx) id); simpl; [done |].
  rewrite app_nil_r. by destruct (Part000.tx_work tx).
Qed.

Lemma part000_promotion_without_parent_node_witness :
  let tb := Part000.mkTables (Part000.ldap_entry (Part000.db_tables Sample.directory000)) [] in
  let tx := Part000.mkTx tb tb 4 TxOpen in
  snd (Part000.insertTree Sample.healthy000 2 false tx) = Ok tt
  /\ Part000.tx_work (fst (Part000.insertTree Sample.healthy000 2 false tx)) = Part000.tx_work tx
  /\ Part000.tx_entry_seq (fst (Part000.insertTree Sample.healthy000 2 false tx))
     = Part000.tx_entry_seq tx.
Proof.
  intros tb tx.
  apply (part000_promotion_without_parent_node Sample.healthy000 2 tx); reflexivity.
Defined.

(** * More about repo_create.go: what its functions leave behind *)
Module RepoCreateMore.
Import RepoCreate RepoCreateSpec RepoCreateFacts.

(** ** Moving a transaction along a relation *)

Section Along.
Variable R : Tx -> Tx -> Prop.
Hypothesis HR : Reflexive R.
Hypothesis HT : Transitive R.

Lemma insertTree_along r id pp pdo :
  (forall tx, R tx (insertTreeStmt id pp pdo tx)) -> steps R (insertTree r id pp pdo).
Proof using HR.
  intros Hs tx. unfold insertTree. destruct (fault r SiteExecInsertTree); [apply HR |].
  apply Hs.
Qed.

Lemma insertDCEntry_along r entry :
  (forall root rn ro d tx, R tx (fst (insertDCStmt root rn ro d tx))) ->
  steps R (insertDCEntry r entry).
Proof using HR HT. intros Hs. unfold insertDCEntry. steps_frame. apply Hs. Qed.

Lemma insertUnderDCEntry_along r entry :
  (forall root rn ro d tx, R tx (fst (insertUnderDCStmt root rn ro d tx))) ->
  steps R (insertUnderDCEntry r entry).
Proof using HR HT. intros Hs. unfold insertUnderDCEntry. steps_frame. apply Hs. Qed.

Lemma insertEntry_along r parent entry :
  (forall root rn ro d tx, R tx (fst (insertUnderDCStmt root rn ro d tx))) ->
  (forall pid rn ro d tx, R tx (fst (insertEntryStmt pid rn ro d tx))) ->
  steps R (insertEntry r parent entry).
Proof using HR HT.
  intros Hdc Hs. unfold insertEntry.
  apply steps_bind; [exact HT | by apply steps_deref |].
  intros parentDN. destruct (IsDC parentDN); [by apply insertUnderDCEntry_along |].
  apply steps_bind; [exact HT | by apply steps_lift |]. intros dbEntry.
  apply steps_bind; [exact HT | apply pure_in_steps; [exact HR | apply repo_driver_call_pure] |].
  intros _ tx.
  destruct (fault r SiteQueryInsertEntry) as [err |].
  - destruct err as [code | |]; simpl; try apply HR.
    destruct (bool_decide (code = "23505")); apply HR.
  - specialize (Hs (ID parent) (entry_RDNNorm entry) (entry_RDNOrig entry) dbEntry tx).
    destruct (insertEntryStmt _ _ _ _ tx) as [tx' [err | rows]]; simpl in *.
    + destruct err as [code | |]; simpl; try exact Hs.
      destruct (bool_decide (code = "23505")); exact Hs.
    + destruct rows as [| [id pid] rows]; exact Hs.
Qed.

Lemma insertSubMembers_along r subjectID dn members dnIDCache :
  (forall values tx, R tx (insertMembersStmt subjectID values tx)) ->
  steps R (insertSubMembers r subjectID dn members dnIDCache).
Proof using HR HT.
  intros Hs. unfold insertSubMembers. steps_frame.
  - apply HR.
  - intros tx0. apply Hs.
Qed.

Lemma insertMember_along r subjectID entry :
  (forall values tx, R tx (insertMembersStmt subjectID values tx)) ->
  steps R (insertMember r subjectID entry).
Proof using HR HT.
  intros Hs. unfold insertMember.
  destruct (length (entry_Member entry) =? 0); [by apply steps_ret |].
  apply steps_bind; [exact HT | apply pure_in_steps; [exact HR | by intros tx] |].
  intros dc. apply steps_bind;
    [exact HT | apply pure_in_steps; [exact HR | apply collectNodeNormByParentID_pure] |].
  intros nodeNorms. cbv zeta.
  apply steps_bind; [exact HT | |].
  { apply steps_forM_; [exact HR | exact HT |]. intros i.
    by apply steps_discard, insertSubMembers_along. }
  intros _. apply steps_bind; [exact HT | | intros; by apply steps_ret].
  destruct (0 <? _); [by apply steps_discard, insertSubMembers_along | by apply steps_ret].
Qed.

Lemma insertWithTx_along r entry :
  (forall root rn ro d tx, R tx (fst (insertDCStmt root rn ro d tx))) ->
  (forall root rn ro d tx, R tx (fst (insertUnderDCStmt root rn ro d tx))) ->
  (forall pid rn ro d tx, R tx (fst (insertEntryStmt pid rn ro d tx))) ->
  (forall id pp pdo tx, R tx (insertTreeStmt id pp pdo tx)) ->
  (forall subjectID values tx, R tx (insertMembersStmt subjectID values tx)) ->
  steps R (insertWithTx r entry).
Proof using HR HT.
  intros H1 H2 H3 H4 H5. unfold insertWithTx. destruct (entry_IsDC entry).
  - apply steps_bind; [exact HT | by apply insertDCEntry_along |]. intros newID.
    apply steps_bind; [exact HT | by apply insertTree_along |]. intros _.
    by apply steps_ret.
  - apply steps_bind;
      [exact HT | apply pure_in_steps; [exact HR | apply findParent_pure] |].
    intros [parent |]; [| by apply steps_fail].
    apply steps_bind; [exact HT | |].
    { destruct (negb (HasChildren parent)); [| by apply steps_ret].
      apply steps_bind; [exact HT | by apply steps_lift |].
      intros pp. by apply insertTree_along. }
    intros _. apply steps_bind; [exact HT | by apply insertEntry_along |].
    intros ids. cbv zeta.
    apply steps_bind; [exact HT | by apply insertMember_along |].
    intros _. by apply steps_ret.
Qed.
End Along.


Lemma bind_Ok {S A B : Type} (c : M S A) (k : A -> M S B) (s s' : S) (b : B) :
  bind c k s = (s', Ok b) -> exists s1 a, c s = (s1, Ok a) /\ k a s1 = (s', Ok b).
Proof.
  unfold bind. destruct (c s) as [s1 [a | e | msg]]; [eauto | discriminate | discriminate].
Qed.

Lemma findDBEntryRecordStmt_elem gpp prn rn tb rec :
  rec ∈ findDBEntryRecordStmt gpp prn rn tb ->
  HasSubordinates rec = "TRUE"
  /\ exists e pt, e ∈ ldap_entry tb /\ pt ∈ ldap_tree tb
       /\ tree_id pt = entry_parent_id e /\ entry_rdn_norm e = rn
       /\ ID rec = entry_id e /\ ParentID rec = entry_parent_id e.
Proof.
  unfold findDBEntryRecordStmt. intros H.
  apply list_elem_of_bind in H as (e & H & He).
  apply list_elem_of_bind in H as (pt & H & Hpt).
  apply list_elem_of_bind in H as (pe & H & Hpe).
  apply list_elem_of_bind in H as (t & H & Ht).
  apply list_elem_of_filter in Hpt as [Hpt1 Hpt].
  destruct (_ && _) eqn:Hc; [| by apply elem_of_nil in H].
  apply list_elem_of_singleton in H as ->. simpl. split; [reflexivity |].
  apply andb_prop in Hc as [_ Hc]. apply bool_decide_eq_true_1 in Hc.
  exists e, pt. by repeat split.
Qed.

Lemma head_bind_singleton {A B : Type} (f : A -> B) (l : list A) :
  head (l ≫= fun a => [f a]) = f <$> head l.
Proof. by destruct l. Qed.

Lemma first_dc_elem r tb e :
  first_dc r tb = Some e -> e ∈ ldap_entry tb /\ entry_parent_id e = ROOT_ID r.
Proof.
  unfold first_dc. intros H. apply head_Some_elem_of in H.
  apply list_elem_of_filter in H as [H1 H2]. by split.
Qed.

Lemma get_head {Row : Type} r site (stmt : Tables -> list Row) tx row :
  get r site stmt tx = inr row -> head (stmt (tx_work tx)) = Some row.
Proof.
  unfold get. destruct (fault r site); [discriminate |].
  destruct (stmt (tx_work tx)); [discriminate |]. by intros [= ->].
Qed.

Lemma found_or_nil_Some res rec : found_or_nil res = Ok (Some rec) -> res = inr rec.
Proof. destruct res as [[] |]; simpl; try discriminate. by intros [= ->]. Qed.

Lemma findDBEntryRecord_found r dn tx rec :
  snd (findDBEntryRecord r (Some dn) tx) = Ok (Some rec) ->
  HasChildren rec = true /\ found_for r (tx_work tx) dn rec.
Proof.
  unfold findDBEntryRecord. unfold bind at 1. unfold deref, ret. cbn beta iota.
  destruct (IsDC dn) eqn:Hdc.
  - unfold findDCDBEntryRecord, driver_call. rewrite Hdc. unfold_monad. simpl.
    destruct (NormalizeDN r (server_GetSuffix r)) as [msg | dcdn]; [discriminate |].
    destruct (ParentDN dcdn) as [dcParent |]; [| discriminate].
    destruct (fault r SitePrepareFindDC); [discriminate |]. simpl.
    intros H. apply found_or_nil_Some, get_head in H.
    unfold findDCDBEntryRecordStmt in H. rewrite head_bind_singleton in H.
    destruct (head _) as [e |] eqn:He; [| discriminate]. simpl in H. injection H as <-.
    split; [reflexivity |]. exists e. rewrite Hdc.
    split; [by apply (first_dc_elem r) |]. by split.
  - unfold driver_call. unfold_monad.
    destruct (fault r SitePrepareFind); [discriminate |]. simpl.
    intros H. apply found_or_nil_Some, get_head, head_Some_elem_of in H.
    apply findDBEntryRecordStmt_elem in H as (Hs & e & pt & He & Hpt & H1 & H2 & H3 & H4).
    split; [unfold HasChildren; by rewrite Hs |].
    exists e. rewrite Hdc. repeat split; try done. by exists pt.
Qed.


Lemma insertTree_Ok r id pp pdo tx tx1 u :
  insertTree r id pp pdo tx = (tx1, Ok u) -> tx1 = insertTreeStmt id pp pdo tx.
Proof.
  unfold insertTree. destruct (fault r SiteExecInsertTree); [discriminate |].
  by intros [= <-].
Qed.

Lemma insertTreeStmt_rows id pp pdo tx :
  exists trees,
    insertTreeStmt id pp pdo tx
    = with_work tx (mkTables (ldap_entry (tx_work tx)) (ldap_tree (tx_work tx) ++ trees)
                      (ldap_member (tx_work tx))) (tx_entry_seq tx)
    /\ (forall t, t ∈ trees -> t = mkTreeRow id pp pdo)
    /\ exists t, t ∈ ldap_tree (tx_work tx) ++ trees /\ tree_id t = id.
Proof.
  unfold insertTreeStmt. destruct (existsb _ _) eqn:Hex.
  - exists []. rewrite app_nil_r. split; [by destruct tx as [b [] s st] |].
    split; [by intros t Ht%elem_of_nil |].
    apply existsb_exists in Hex as (t & Ht & Hid). exists t.
    split; [by apply list_elem_of_In |]. by apply bool_decide_eq_true_1 in Hid.
  - exists [mkTreeRow id pp pdo]. split; [reflexivity |].
    split; [by intros t ->%list_elem_of_singleton |].
    exists (mkTreeRow id pp pdo). split; [| reflexivity].
    apply elem_of_app. right. apply list_elem_of_here.
Qed.

Lemma insertDCEntry_Ok r entry tx tx1 id :
  insertDCEntry r entry tx = (tx1, Ok id) ->
  exists dbEntry,
    sibling_exists (tx_work tx) (ROOT_ID r) (entry_RDNNorm entry) = false
    /\ id = tx_entry_seq tx
    /\ tx1 = with_work tx (add_entry (tx_work tx) (new_row entry dbEntry id (ROOT_ID r)))
               (id + 1).
Proof.
  unfold insertDCEntry, queryx, driver_call, insertDCStmt. unfold_monad.
  destruct (AddEntryToDBEntry r entry) as [msg | dbEntry]; [discriminate |].
  destruct (fault r SiteQueryInsertDC); [discriminate |].
  destruct (sibling_exists _ _ _) eqn:Hs; [discriminate |].
  destruct (fault r SiteScanInsertDC); [discriminate |]. intros [= <- <-].
  by exists dbEntry.
Qed.

Lemma insertUnderDCEntry_Ok r entry tx tx1 id pid :
  insertUnderDCEntry r entry tx = (tx1, Ok (id, pid)) ->
  exists dbEntry dc,
    first_dc r (tx_work tx) = Some dc /\ pid = entry_id dc
    /\ sibling_exists (tx_work tx) pid (entry_RDNNorm entry) = false
    /\ id = tx_entry_seq tx
    /\ tx1 = with_work tx (add_entry (tx_work tx) (new_row entry dbEntry id pid)) (id + 1).
Proof.
  unfold insertUnderDCEntry, queryx, driver_call, insertUnderDCStmt, first_dc. unfold_monad.
  destruct (AddEntryToDBEntry r entry) as [msg | dbEntry]; [discriminate |].
  destruct (fault r SiteQueryInsertUnderDC); [discriminate |].
  destruct (filter _ _) as [| dc rest]; [discriminate |].
  destruct (sibling_exists _ _ _) eqn:Hs; [discriminate |].
  destruct (fault r SiteScanInsertUnderDC); [discriminate |]. intros [= <- <- <-].
  by exists dbEntry, dc.
Qed.

Lemma insertEntry_Ok r parent entry tx tx1 id pid :
  insertEntry r parent entry tx = (tx1, Ok (id, pid)) ->
  exists dbEntry pdn,
    entry_ParentDN entry = Some pdn
    /\ (if IsDC pdn then exists dc, first_dc r (tx_work tx) = Some dc /\ pid = entry_id dc
        else pid = ID parent)
    /\ sibling_exists (tx_work tx) pid (entry_RDNNorm entry) = false
    /\ id = tx_entry_seq tx
    /\ tx1 = with_work tx (add_entry (tx_work tx) (new_row entry dbEntry id pid)) (id + 1).
Proof.
  unfold insertEntry. unfold bind at 1. unfold deref, ret, lift.
  destruct (entry_ParentDN entry) as [pdn |]; [| discriminate]. cbn beta iota.
  destruct (IsDC pdn) eqn:Hdc.
  - intros (dbEntry & dc & H1 & H2 & H3 & H4 & H5)%insertUnderDCEntry_Ok.
    exists dbEntry, pdn. rewrite Hdc. repeat split; try done. by exists dc.
  - unfold driver_call, insertEntryStmt. unfold_monad.
    destruct (AddEntryToDBEntry r entry) as [msg | dbEntry]; [discriminate |].
    destruct (fault r SitePrepareInsertEntry); [discriminate |].
    destruct (fault r SiteQueryInsertEntry) as [[code | |] |]; try discriminate.
    { destruct (bool_decide _); discriminate. }
    destruct (sibling_exists _ _ _) eqn:Hs; [discriminate |].
    intros [= <- <- <-]. exists dbEntry, pdn. by rewrite Hdc.
Qed.


Lemma resolveMemberParents_Ok r cache members w c w' c' :
  resolveMemberParents r cache members w c = Ok (w', c') ->
  exists keys,
    w' = w ++ keys
    /\ Forall2 (member_resolves r cache) members keys
    /\ forall k a, c' !! k = Some a ->
         c !! k = Some a \/ exists m, m ∈ members /\ AttrNameNorm m = a.
Proof.
  revert w c. induction members as [| m rest IH]; intros w c; simpl.
  - intros [= <- <-]. exists []. rewrite app_nil_r. split; [done |].
    split; [constructor | auto].
  - destruct (server_NormalizeDN r (MemberOfDNNorm m)) as [msg | dn] eqn:Hn; [discriminate |].
    destruct (ParentDN dn) as [parent |] eqn:Hp; [| discriminate].
    destruct (cache !! DNNormStr parent) as [parentID |] eqn:Hc; [| discriminate].
    intros (keys & -> & Hall & Hcache)%IH.
    exists ((parentID, RDNNormStr dn) :: keys). rewrite <- app_assoc. split; [done |].
    split.
    + constructor; [| exact Hall]. by exists dn, parent.
    + intros k a Hk. destruct (Hcache k a Hk) as [H | (m' & Hm' & Ha)].
      * destruct (decide (k = (parentID, RDNNormStr dn))) as [-> | Hne].
        -- rewrite lookup_insert_eq in H. injection H as <-. right. exists m.
           split; [apply list_elem_of_here | done].
        -- rewrite lookup_insert_ne in H by done. by left.
      * right. exists m'. split; [by apply list_elem_of_further | done].
Qed.

Lemma collectMemberValues_Ok r c slots rows values values' :
  collectMemberValues r c slots rows values = Ok values' ->
  exists new,
    values' = values ++ new
    /\ Forall2 (fun row v => snd v = row.1.1 /\ c !! (row.1.2, row.2) = Some (fst v)) rows new.
Proof.
  revert values. induction rows as [| [[id pid] rdn] rest IH]; intros values; simpl.
  - intros [= <-]. exists []. by rewrite app_nil_r.
  - destruct (fault r SiteScanMembers); [discriminate |].
    destruct (c !! (pid, rdn)) as [memberType |] eqn:Hc; [| discriminate].
    destruct (length values <? slots); [| discriminate].
    intros (new & -> & Hall)%IH. exists ((memberType, id) :: new).
    rewrite <- app_assoc. split; [done |]. by constructor.
Qed.

Lemma fetchMembersStmt_elem w tb id pid rdn :
  (id, pid, rdn) ∈ fetchMembersStmt w tb ->
  exists e, e ∈ ldap_entry tb /\ entry_id e = id.
Proof.
  unfold fetchMembersStmt. intros H. apply list_elem_of_In, in_map_iff in H as (e & He & Hin).
  apply filter_In in Hin as [Hin _]. injection He as <- _ _.
  exists e. split; [by apply list_elem_of_In | done].
Qed.

(** What one batch does: all of it or nothing. *)
Lemma insertSubMembers_outcome r subjectID dn members cache tx :
  match snd (insertSubMembers r subjectID dn members cache tx) with
  | Ok _ =>
      exists values,
        fst (insertSubMembers r subjectID dn members cache tx)
        = insertMembersStmt subjectID values tx
        /\ length values = length members
        /\ Forall (fun v => (exists e, e ∈ ldap_entry (tx_work tx) /\ entry_id e = snd v)
                            /\ exists m, m ∈ members /\ AttrNameNorm m = fst v) values
        /\ Forall (fun m => exists key, member_resolves r cache m key) members
  | _ => fst (insertSubMembers r subjectID dn members cache tx) = tx
  end.
Proof.
  destruct (insertSubMembers r subjectID dn members cache tx) as [tx1 o] eqn:HX.
  simpl. revert HX. unfold insertSubMembers, queryx. unfold_monad.
  destruct (resolveMemberParents r cache members [] ∅) as [[w c] | e | msg] eqn:Hres;
    [| by intros [= <- <-] | by intros [= <- <-]].
  apply resolveMemberParents_Ok in Hres as (keys & Hw & Hkeys & Hcache).
  simpl in Hw. subst w.
  destruct keys as [| k keys]; [by intros [= <- <-] |].
  destruct (fault r SiteFetchMembers); [by intros [= <- <-] |].
  match goal with
  | |- context [collectMemberValues r c ?n ?rows []] =>
      destruct (collectMemberValues r c n rows []) as [values | e | msg] eqn:Hval
  end; [| by intros [= <- <-] | by intros [= <- <-]].
  apply collectMemberValues_Ok in Hval as (new & Hv & Hnew). simpl in Hv. subst values.
  rewrite length_map.
  destruct (length new =? length members) eqn:Hlen; simpl; [| by intros [= <- <-]].
  apply Nat.eqb_eq in Hlen.
  destruct (fault r SiteInsertMembers); simpl; intros [= <- <-]; [reflexivity |].
  exists new. split; [reflexivity |]. split; [exact Hlen |]. split.
  - apply Forall_forall. intros v Hv.
    apply list_elem_of_lookup in Hv as [i Hv].
    destruct (Forall2_lookup_r _ _ _ _ _ Hnew Hv) as ([[id pid] rdn] & Hrow & Hid & Hc).
    simpl in *. split.
    + apply list_elem_of_lookup_2, fetchMembersStmt_elem in Hrow. by rewrite Hid.
    + destruct (Hcache _ _ Hc) as [H | H]; [by rewrite lookup_empty in H | exact H].
  - apply Forall_forall. intros m Hm.
    apply list_elem_of_lookup in Hm as [i Hm].
    destruct (Forall2_lookup_l _ _ _ _ _ Hkeys Hm) as (key & _ & Hkey). by exists key.
Qed.


Lemma edge_of_entries s members members' tb tb' row :
  ldap_entry tb' = ldap_entry tb -> (forall m, m ∈ members -> m ∈ members') ->
  edge_of s members tb row -> edge_of s members' tb' row.
Proof.
  intros He Hm (Hs & Ho & (m & Hin & Ha)). split; [exact Hs |]. split.
  - by rewrite He.
  - exists m. split; [by apply Hm | exact Ha].
Qed.

Lemma only_edges_refl s members : Reflexive (only_edges s members).
Proof.
  intros tx. repeat split. exists []. by rewrite app_nil_r.
Qed.

Lemma only_edges_trans s members : Transitive (only_edges s members).
Proof.
  intros a b c (He1 & Ht1 & Hs1 & e1 & Hm1 & Hf1) (He2 & Ht2 & Hs2 & e2 & Hm2 & Hf2).
  split; [congruence |]. split; [congruence |]. split; [congruence |].
  exists (e1 ++ e2). split; [by rewrite Hm2, Hm1, app_assoc |].
  apply Forall_app. split; [exact Hf1 |].
  eapply Forall_impl; [exact Hf2 |]. intros row. by apply edge_of_entries.
Qed.

Lemma slice_subseteq {A : Type} (l : list A) (lo hi : nat) (x : A) :
  x ∈ slice l lo hi -> x ∈ l.
Proof. unfold slice. intros H. by apply subseteq_take, subseteq_drop in H. Qed.

Lemma insertSubMembers_only_edges r s dn members all cache :
  (forall m, m ∈ members -> m ∈ all) ->
  steps (only_edges s all) (insertSubMembers r s dn members cache).
Proof.
  intros Hsub tx. pose proof (insertSubMembers_outcome r s dn members cache tx) as H.
  destruct (snd _) as [[] | e | msg]; try (rewrite H; apply only_edges_refl).
  destruct H as (values & -> & _ & Hvalues & _).
  unfold insertMembersStmt. repeat split. eexists. split; [reflexivity |].
  apply Forall_map. eapply Forall_impl; [exact Hvalues |].
  intros [a o] [Ho (m & Hm & Ha)]. repeat split; try done.
  exists m. split; [by apply Hsub | done].
Qed.

(** insertMember writes edges of its subject and nothing else. *)
Lemma insertMember_only_edges r subjectID entry :
  steps (only_edges subjectID (entry_Member entry)) (insertMember r subjectID entry).
Proof.
  pose proof (only_edges_refl subjectID (entry_Member entry)) as HR.
  pose proof (only_edges_trans subjectID (entry_Member entry)) as HT.
  unfold insertMember.
  destruct (length (entry_Member entry) =? 0); [by apply steps_ret |].
  apply steps_bind; [exact HT | apply pure_in_steps; [exact HR | by intros tx] |].
  intros dc. apply steps_bind;
    [exact HT | apply pure_in_steps; [exact HR | apply collectNodeNormByParentID_pure] |].
  intros nodeNorms. cbv zeta.
  apply steps_bind; [exact HT | |].
  { apply steps_forM_; [exact HR | exact HT |]. intros i.
    apply steps_discard, insertSubMembers_only_edges. intros m. apply slice_subseteq. }
  intros _. apply steps_bind; [exact HT | | intros; by apply steps_ret].
  destruct (0 <? _); [| by apply steps_ret].
  apply steps_discard, insertSubMembers_only_edges. intros m. apply slice_subseteq.
Qed.

(** An error of insertMember comes from before the first batch. *)
Lemma insertMember_Err_unchanged r subjectID entry tx e :
  snd (insertMember r subjectID entry tx) = Err e ->
  fst (insertMember r subjectID entry tx) = tx.
Proof.
  destruct (insertMember r subjectID entry tx) as [tx' o] eqn:HX. simpl. intros ->.
  revert HX. unfold insertMember.
  destruct (length (entry_Member entry) =? 0); [discriminate |].
  unfold bind at 1. unfold external.
  destruct (getDCDNOrig r (tx_work tx)) as [msg | dc]; [by intros [= <- _] |].
  unfold bind at 1.
  pose proof (collectNodeNormByParentID_pure r (dc_ID dc) tx) as Hpure.
  destruct (collectNodeNormByParentID r (dc_ID dc) tx) as [tx1 [nodeNorms | e1 | msg]];
    simpl in Hpure; subst tx1; [| by intros [= <- _] | discriminate].
  cbv zeta. intros H. exfalso. revert H.
  unfold bind at 1.
  match goal with
  | |- context [forM_ ?xs (fun i => discard (@?c i)) tx] =>
      pose proof (forM__discard_no_error xs c tx) as Hloop;
      destruct (forM_ xs (fun i => discard (c i)) tx) as [tx2 [[] | e2 | msg]]
  end; simpl in *; [| by destruct (Hloop e2) | discriminate].
  unfold bind at 1.
  destruct (0 <? _); [| discriminate].
  unfold discard.
  destruct (insertSubMembers _ _ _ _ _ tx2) as [tx3 [[] | e3 | msg]]; discriminate.
Qed.


(** The record of the parent has [HasChildren] set, whatever the tables:
    the promotion in insertWithTx is never run. *)
Lemma insertWithTx_Ok r entry tx tx1 id :
  insertWithTx r entry tx = (tx1, Ok id) -> inserted r entry tx tx1 id.
Proof.
  unfold insertWithTx, inserted. destruct (entry_IsDC entry) eqn:Hdc.
  - intros (tx2 & newID & H1 & H)%bind_Ok.
    apply bind_Ok in H as (tx3 & [] & H2 & H). injection H as <- <-.
    apply insertDCEntry_Ok in H1 as (dbEntry & Hs & -> & ->).
    apply insertTree_Ok in H2 as ->.
    destruct (insertTreeStmt_rows (tx_entry_seq tx) "/" ""
                (with_work tx (add_entry (tx_work tx)
                                 (new_row entry dbEntry (tx_entry_seq tx) (ROOT_ID r)))
                   (tx_entry_seq tx + 1))) as (trees & -> & Hrows & _).
    exists dbEntry, (ROOT_ID r), trees, []. simpl. rewrite app_nil_r. by repeat split.
  - intros (tx2 & parent & H1 & H)%bind_Ok.
    pose proof (findParent_pure r (entry_DN entry) tx) as Hp.
    rewrite H1 in Hp. simpl in Hp. subst tx2.
    destruct parent as [parent |]; [| discriminate].
    unfold findParent in H1.
    destruct (ParentDN (entry_DN entry)) as [pdn |] eqn:Hpdn; [| discriminate].
    pose proof (findDBEntryRecord_found r pdn tx parent) as Hfound.
    rewrite H1 in Hfound. destruct (Hfound eq_refl) as [Hch Hf]. clear Hfound.
    rewrite Hch in H. simpl in H.
    apply bind_Ok in H as (tx2 & [] & H0 & H). injection H0 as <-.
    apply bind_Ok in H as (tx2 & [newID pid] & H2 & H).
    apply bind_Ok in H as (tx3 & [] & H3 & H). injection H as <- <-.
    apply insertEntry_Ok in H2 as (dbEntry & pdn' & Hpdn' & Hpid & Hs & -> & ->).
    unfold entry_ParentDN in Hpdn'. rewrite Hpdn in Hpdn'. injection Hpdn' as <-.
    simpl in H3.
    pose proof (insertMember_only_edges r (tx_entry_seq tx) entry
                  (with_work tx (add_entry (tx_work tx)
                                   (new_row entry dbEntry (tx_entry_seq tx) pid))
                     (tx_entry_seq tx + 1))) as Hedges.
    rewrite H3 in Hedges. simpl in Hedges.
    destruct Hedges as (He & Ht & Hseq & edges & Hm & Hall).
    assert (pid = ID parent) as ->.
    { destruct Hf as (e & _ & Hid & Hcase). destruct (IsDC pdn); [| exact Hpid].
      destruct Hpid as (dc & Hdc' & ->). congruence. }
    exists dbEntry, (ID parent), [], edges. rewrite app_nil_r.
    split; [reflexivity |]. split; [exact Hseq |].
    split; [destruct (tx_work tx3); simpl in *; congruence |].
    split; [exact Hs |]. split; [reflexivity |]. split; [exact Hall |].
    by exists pdn, parent.
Qed.


(** ** What a call of Insert leaves behind *)

Lemma repo_Insert_outcome r entry db :
  match snd (Insert r entry db) with
  | Ok id =>
      tx_status (fst (Insert r entry db)) = TxCommitted
      /\ inserted r entry (MustBegin db) (fst (Insert r entry db)) id
  | _ => db_tables (database_after (fst (Insert r entry db))) = db_tables db
  end.
Proof.
  unfold Insert, Commit.
  pose proof (insertWithTx_frame r entry (MustBegin db)) as [Hb Hst].
  pose proof (insertWithTx_Ok r entry (MustBegin db)) as Hok.
  destruct (insertWithTx r entry (MustBegin db)) as [tx1 [id | e | msg]]; simpl in *.
  - destruct (fault r SiteCommit); simpl.
    + unfold database_after. by rewrite Hst.
    + split; [reflexivity |]. exact (Hok tx1 id eq_refl).
  - exact Hb.
  - unfold database_after. by rewrite Hst.
Qed.

Lemma repo_seq_le_along r entry :
  steps (fun tx tx' : Tx => (tx_entry_seq tx <= tx_entry_seq tx')%Z) (insertWithTx r entry).
Proof.
  apply insertWithTx_along.
  - intros tx. lia.
  - intros a b c. lia.
  - intros root rn ro d tx. unfold insertDCStmt.
    destruct (sibling_exists _ _ _); simpl; lia.
  - intros root rn ro d tx. unfold insertUnderDCStmt.
    destruct (filter _ _); [simpl; lia |]. destruct (sibling_exists _ _ _); simpl; lia.
  - intros pid rn ro d tx. unfold insertEntryStmt.
    destruct (sibling_exists _ _ _); simpl; lia.
  - intros id pp pdo tx. unfold insertTreeStmt. destruct (existsb _ _); simpl; lia.
  - intros s values tx. simpl. lia.
Qed.

Lemma repo_Insert_seq_le r entry db :
  (db_entry_seq db <= db_entry_seq (database_after (fst (Insert r entry db))))%Z.
Proof.
  unfold Insert, Commit. pose proof (repo_seq_le_along r entry (MustBegin db)) as H.
  destruct (insertWithTx r entry (MustBegin db)) as [tx1 [id | e | msg]]; simpl in *;
    [| exact H | exact H].
  destruct (fault r SiteCommit); exact H.
Qed.

Lemma repo_Insert_extends r entry db :
  extends (db_tables db) (db_tables (database_after (fst (Insert r entry db)))).
Proof.
  pose proof (repo_Insert_outcome r entry db) as H.
  destruct (snd (Insert r entry db)) as [id | e | msg];
    try (rewrite H; by repeat split).
  destruct H as (Hst & dbEntry & pid & trees & edges & _ & _ & Htb & _).
  unfold database_after. rewrite Hst, Htb. simpl.
  repeat split; by apply prefix_app_r.
Qed.

(** ** The errors of repo_create.go *)

Lemma raises_lift {S A : Type} (P : error -> Prop) (o : outcome A) :
  (forall e, o = Err e -> P e) -> raises (S := S) P (lift o).
Proof. intros H s e. simpl. apply H. Qed.

Lemma repo_raises_driver_call (P : error -> Prop) r site msg :
  (forall c, P (Wrapf msg c)) -> raises P (driver_call r site msg).
Proof.
  intros HP tx e. unfold driver_call. destruct (fault r site); [| discriminate].
  intros [= <-]. apply HP.
Qed.

Lemma repo_raises_queryx {Row : Type} (P : error -> Prop) r site msg
    (stmt : Tx -> Tx * list Row) :
  (forall c, P (Wrapf msg c)) -> raises P (queryx r site msg stmt).
Proof.
  intros HP tx e. unfold queryx. destruct (fault r site).
  - intros [= <-]. apply HP.
  - destruct (stmt tx). discriminate.
Qed.

Lemma lets_out_Wrapf msg c : lets_out (Wrapf msg c).
Proof. intros [H | H]; discriminate. Qed.

Lemma insertWithTx_lets_out r entry : raises lets_out (insertWithTx r entry).
Proof.
  assert (HW := lets_out_Wrapf).
  assert (HE : forall msg, lets_out (External msg)) by (intros msg [H | H]; discriminate).
  assert (HA : lets_out AlreadyExists) by (intros [H | H]; discriminate).
  assert (HN : lets_out NoSuchObject) by (intros [H | H]; discriminate).
  assert (HF : forall msg, lets_out (Errorf msg)) by (intros msg [H | H]; discriminate).
  assert (HD : forall d, lets_out (Driver d)) by (intros d [H | H]; discriminate).
  assert (Hmap : raises (S := Tx) lets_out (lift (external (AddEntryToDBEntry r entry)))).
  { apply raises_lift. intros e. destruct (AddEntryToDBEntry r entry); intros [= <-]. apply HE. }
  assert (Hfound : forall site stmt,
            raises lets_out (fun tx : Tx => (tx, found_or_nil (get r site stmt tx)))).
  { intros site stmt tx e. simpl. destruct (get r site stmt tx) as [[] |]; intros [= <-];
      apply HW. }
  assert (Hunder : raises lets_out (insertUnderDCEntry r entry)).
  { unfold insertUnderDCEntry. apply raises_bind; [exact Hmap |]. intros dbEntry.
    apply raises_bind; [by apply repo_raises_queryx |]. intros [| [id pid] rows].
    - by apply raises_fail.
    - apply raises_bind; [by apply repo_raises_driver_call | intros; apply raises_ret]. }
  unfold insertWithTx. destruct (entry_IsDC entry).
  - apply raises_bind.
    { unfold insertDCEntry. apply raises_bind; [exact Hmap |]. intros dbEntry.
      apply raises_bind; [by apply repo_raises_queryx |]. intros [| id rows].
      - by apply raises_fail.
      - apply raises_bind; [by apply repo_raises_driver_call | intros; apply raises_ret]. }
    intros newID. apply raises_bind; [| intros; apply raises_ret].
    intros tx e. unfold insertTree. destruct (fault r SiteExecInsertTree); [| discriminate].
    intros [= <-]. apply HW.
  - apply raises_bind.
    { unfold findParent, findDBEntryRecord. apply raises_bind; [apply raises_deref |].
      intros dn. destruct (IsDC dn).
      - unfold findDCDBEntryRecord. destruct (negb (IsDC dn)); [by apply raises_fail |].
        apply raises_bind.
        { destruct (NormalizeDN r (server_GetSuffix r)); [by apply raises_fail |].
          apply raises_ret. }
        intros dcdn. apply raises_bind; [apply raises_deref |]. intros dcParent.
        apply raises_bind; [by apply repo_raises_driver_call |]. intros _. apply Hfound.
      - apply raises_bind; [by apply repo_raises_driver_call |]. intros _. apply Hfound. }
    intros [parent |]; [| by apply raises_fail].
    apply raises_bind.
    { destruct (negb (HasChildren parent)); [| apply raises_ret].
      apply raises_bind.
      - apply raises_lift. unfold DBEntryRecord_ParentDN. intros e.
        destruct (server_NormalizeDN r (ParentDNOrig parent)); intros [= <-]. apply HW.
      - intros pp tx e. unfold insertTree.
        destruct (fault r SiteExecInsertTree); [| discriminate]. intros [= <-]. apply HW. }
    intros _. apply raises_bind.
    { unfold insertEntry. apply raises_bind; [apply raises_deref |]. intros parentDN.
      destruct (IsDC parentDN); [exact Hunder |].
      apply raises_bind; [exact Hmap |]. intros dbEntry.
      apply raises_bind; [by apply repo_raises_driver_call |]. intros _ tx e.
      destruct (fault r SiteQueryInsertEntry) as [[code | |] |]; simpl.
      - destruct (bool_decide _); intros [= <-]; [apply HA | apply HW].
      - intros [= <-]. apply HW.
      - intros [= <-]. apply HW.
      - unfold insertEntryStmt. destruct (sibling_exists _ _ _); simpl.
        + intros [= <-]. apply HA.
        + discriminate. }
    intros ids. cbv zeta. apply raises_bind; [| intros; apply raises_ret].
    unfold insertMember. destruct (length (entry_Member entry) =? 0); [apply raises_ret |].
    apply raises_bind; [by apply (raises_external lets_out) |]. intros dc.
    apply raises_bind.
    { unfold collectNodeNormByParentID. destruct (bool_decide _); [by apply raises_fail |].
      apply raises_bind; [by apply repo_raises_queryx |]. intros rows.
      destruct (fault r SiteRowsErrCollect); [by apply raises_fail | apply raises_ret]. }
    intros nodeNorms. cbv zeta.
    apply raises_bind; [apply raises_forM_; intros i; apply raises_discard |]. intros _.
    apply raises_bind; [| intros; apply raises_ret].
    destruct (0 <? _); [apply raises_discard | apply raises_ret].
Qed.

Lemma Insert_lets_out r entry db e : snd (Insert r entry db) = Err e -> lets_out e.
Proof.
  unfold Insert, Commit. pose proof (insertWithTx_lets_out r entry (MustBegin db)) as H.
  destruct (insertWithTx r entry (MustBegin db)) as [tx1 [id | e1 | msg]]; simpl in *.
  - destruct (fault r SiteCommit); simpl; [| discriminate].
    intros [= <-]. intros [Hk | Hk]; discriminate.
  - intros [= <-]. by apply H.
  - discriminate.
Qed.


(** ** The invariant of the tables *)

Lemma dc_level_mono r tb tb' id :
  ldap_entry tb `prefix_of` ldap_entry tb' -> dc_level r tb id -> dc_level r tb' id.
Proof.
  intros [k Hk] (e & He & Hid & Hp). exists e. rewrite Hk.
  split; [apply elem_of_app; by left | by split].
Qed.

Lemma shallow_mono r tb tb' e :
  ldap_entry tb `prefix_of` ldap_entry tb' -> shallow r tb e -> shallow r tb' e.
Proof.
  intros Hpre [H | [H | (p & Hp & Hid & H)]].
  - by left.
  - right. left. by apply (dc_level_mono r tb).
  - right. right. exists p. destruct Hpre as [k Hk]. rewrite Hk.
    split; [apply elem_of_app; by left |]. split; [exact Hid |].
    apply (dc_level_mono r tb); [by exists k | exact H].
Qed.

Lemma between_entries_mono tb tb' m :
  ldap_entry tb `prefix_of` ldap_entry tb' -> between_entries tb m -> between_entries tb' m.
Proof.
  intros [k Hk] [(s & Hs & Hsi) (o & Ho & Hoi)]. unfold between_entries. rewrite Hk.
  split; [exists s | exists o]; (split; [apply elem_of_app; by left | done]).
Qed.

Lemma inserted_inv r entry tx tx1 id :
  inserted r entry tx tx1 id -> db_inv r (tx_work tx) -> db_inv r (tx_work tx1).
Proof.
  intros (dbEntry & pid & trees & edges & Hid & Hseq & Htb & Hsib & Hcase)
         (Htree & Hshallow & Hedges).
  set (row := new_row entry dbEntry id pid) in *.
  assert (Hpre : ldap_entry (tx_work tx) `prefix_of` ldap_entry (tx_work tx1))
    by (rewrite Htb; by apply prefix_app_r).
  assert (Hrow : row ∈ ldap_entry (tx_work tx1))
    by (rewrite Htb; apply elem_of_app; right; apply list_elem_of_here).
  split; [| split].
  - intros t Ht. rewrite Htb in Ht. simpl in Ht. apply elem_of_app in Ht as [Ht | Ht].
    + destruct (Htree t Ht) as (e & He & Hide & Hp). exists e.
      split; [| by split]. destruct Hpre as [k ->]. apply elem_of_app. by left.
    + destruct (entry_IsDC entry).
      * destruct Hcase as (-> & _ & Hrows). rewrite (Hrows t Ht). by exists row.
      * destruct Hcase as (-> & _). by apply elem_of_nil in Ht.
  - intros e He. rewrite Htb in He. simpl in He. apply elem_of_app in He as [He | He].
    + apply (shallow_mono r (tx_work tx)); [exact Hpre | by apply Hshallow].
    + apply list_elem_of_singleton in He as ->.
      destruct (entry_IsDC entry).
      * destruct Hcase as (-> & _). by left.
      * destruct Hcase as (_ & _ & pdn & rec & Hpdn & (p & Hp & Hidp & Hfound) & ->).
        right. destruct (IsDC pdn).
        -- left. apply (dc_level_mono r (tx_work tx)); [exact Hpre |].
           apply first_dc_elem in Hfound as [_ Hroot]. by exists p.
        -- right. destruct Hfound as (_ & _ & pt & Hpt & Hptid).
           destruct (Htree pt Hpt) as (g & Hg & Hgid & Hgroot).
           exists p. split; [destruct Hpre as [k ->]; apply elem_of_app; by left |].
           split; [exact Hidp |].
           apply (dc_level_mono r (tx_work tx)); [exact Hpre |].
           exists g. split; [exact Hg |]. split; [congruence | exact Hgroot].
  - intros m Hm. rewrite Htb in Hm. simpl in Hm. apply elem_of_app in Hm as [Hm | Hm].
    + apply (between_entries_mono (tx_work tx)); [exact Hpre | by apply Hedges].
    + destruct (entry_IsDC entry).
      * destruct Hcase as (_ & -> & _). by apply elem_of_nil in Hm.
      * destruct Hcase as (_ & Hall & _).
        rewrite Forall_forall in Hall. destruct (Hall m Hm) as (Hs & (o & Ho & Hoid) & _).
        split.
        -- exists row. split; [exact Hrow | by rewrite Hs].
        -- exists o. rewrite Htb. split; [exact Ho | exact Hoid].
Qed.

Lemma reachable_inv r db : reachable r db -> db_inv r (db_tables db).
Proof.
  induction 1 as [seq | db entry Hreach IH].
  - split; [| split]; simpl; by intros x Hx%elem_of_nil.
  - pose proof (repo_Insert_outcome r entry db) as H.
    destruct (snd (Insert r entry db)) as [id | e | msg]; try (by rewrite H).
    destruct H as [Hst Hins]. unfold database_after. rewrite Hst. simpl.
    by apply (inserted_inv r entry (MustBegin db) _ id).
Qed.

(** ** The promotion of the parent is never run *)

#[local] Instance same_tree_refl : Reflexive same_tree.
Proof. by intros tx. Qed.

#[local] Instance same_tree_trans : Transitive same_tree.
Proof. intros a b c H1 H2. unfold same_tree in *. congruence. Qed.

Lemma insertWithTx_same_tree r entry tx :
  entry_IsDC entry = false -> same_tree tx (fst (insertWithTx r entry tx)).
Proof.
  intros Hdc. unfold insertWithTx. rewrite Hdc. unfold bind at 1.
  pose proof (findParent_pure r (entry_DN entry) tx) as Hpure.
  destruct (findParent r (entry_DN entry) tx) as [tx1 [[parent |] | e | msg]] eqn:Hfind;
    simpl in Hpure; subst tx1; try reflexivity.
  assert (HasChildren parent = true) as ->.
  { unfold findParent in Hfind.
    destruct (ParentDN (entry_DN entry)) as [pdn |]; [| discriminate].
    pose proof (findDBEntryRecord_found r pdn tx parent) as H.
    rewrite Hfind in H. by destruct (H eq_refl). }
  simpl negb. cbv iota.
  revert tx Hfind. 
  assert (steps same_tree (_ <- ret tt ;; ids <- insertEntry r parent entry ;;
                           _ <- insertMember r (fst ids) entry ;; ret (fst ids))) as Hsteps.
  { apply steps_bind; [typeclasses eauto | apply steps_ret; typeclasses eauto |]. intros _.
    apply steps_bind; [typeclasses eauto | |].
    - apply insertEntry_along; try typeclasses eauto.
      + intros root rn ro d tx. unfold insertUnderDCStmt.
        destruct (filter _ _); [reflexivity |]. by destruct (sibling_exists _ _ _).
      + intros pid rn ro d tx. unfold insertEntryStmt. by destruct (sibling_exists _ _ _).
    - intros ids. apply steps_bind; [typeclasses eauto | | intros; apply steps_ret;
                                                            typeclasses eauto].
      apply insertMember_along; try typeclasses eauto.
      intros values tx. reflexivity. }
  intros tx _. apply Hsteps.
Qed.

(** ** The same entry a second time *)

Lemma sibling_exists_new tb entry dbEntry id pid :
  sibling_exists (add_entry tb (new_row entry dbEntry id pid)) pid (entry_RDNNorm entry) = true.
Proof.
  unfold sibling_exists, add_entry. simpl. rewrite existsb_app. simpl.
  rewrite !bool_decide_eq_true_2 by done. apply orb_true_r.
Qed.

Lemma insertEntry_again r parent entry tx tx1 ids :
  insertEntry r parent entry tx = (tx1, Ok ids) ->
  insertEntry r parent entry tx1 = (tx1, Err AlreadyExists).
Proof.
  unfold insertEntry. unfold_monad.
  destruct (entry_ParentDN entry) as [pdn |]; [| discriminate]. unfold ret. cbn beta iota.
  destruct (IsDC pdn).
  - unfold insertUnderDCEntry, queryx, driver_call, insertUnderDCStmt. unfold_monad.
    destruct (AddEntryToDBEntry r entry) as [msg | dbEntry]; [discriminate |].
    destruct (fault r SiteQueryInsertUnderDC); [discriminate |].
    destruct (filter _ (ldap_entry (tx_work tx))) as [| dc rest] eqn:Hf; [discriminate |].
    destruct (sibling_exists _ _ _) eqn:Hs; [discriminate |].
    destruct (fault r SiteScanInsertUnderDC); [discriminate |]. intros [= <- <-].
    pose proof (sibling_exists_new (tx_work tx) entry dbEntry (tx_entry_seq tx) (entry_id dc))
      as Hnew.
    unfold with_work, add_entry, new_row in *. cbn [tx_work ldap_entry] in *.
    rewrite filter_app, Hf. cbn [app]. by rewrite Hnew.
  - unfold driver_call, insertEntryStmt. unfold_monad.
    destruct (AddEntryToDBEntry r entry) as [msg | dbEntry]; [discriminate |].
    destruct (fault r SitePrepareInsertEntry); [discriminate |].
    destruct (fault r SiteQueryInsertEntry) as [[code | |] |]; try discriminate.
    { destruct (bool_decide _); discriminate. }
    destruct (sibling_exists _ _ _) eqn:Hs; [discriminate |].
    intros [= <- <-].
    pose proof (sibling_exists_new (tx_work tx) entry dbEntry (tx_entry_seq tx) (ID parent))
      as Hnew.
    unfold with_work, add_entry, new_row in *. cbn [tx_work ldap_entry] in *.
    by rewrite Hnew.
Qed.

End RepoCreateMore.

(** * Further properties of repo_create.go *)

(** X8. A record that findParent hands back stands for an entry of the
    working tables: for a parent that is the domain component, the first
    entry directly under ROOT_ID; for any other parent, an entry of its
    rdn_norm whose own parent has a row in ldap_tree.  Its HasChildren is
    true in both cases: the CASE of findDBEntryRecord tests the id of the
    entry it has found, and findDCDBEntryRecord selects the constant. *)
Theorem repo_findParent_sound (r : RepoCreate.Repository) (dn : DN) (tx : RepoCreate.Tx)
    (rec : RepoCreate.DBEntryRecord) :
  snd (RepoCreate.findParent r dn tx) = Ok (Some rec) ->
  RepoCreate.HasChildren rec = true
  /\ exists pdn, ParentDN dn = Some pdn
                 /\ RepoCreateSpec.found_for r (RepoCreate.tx_work tx) pdn rec.
Proof.
  unfold RepoCreate.findParent. destruct (ParentDN dn) as [pdn |]; [| discriminate].
  intros H. destruct (RepoCreateMore.findDBEntryRecord_found r pdn tx rec H) as [H1 H2].
  split; [exact H1 |]. by exists pdn.
Qed.

Lemma repo_findParent_sound_witness :
  let rec := RepoCreate.mkDBEntryRecord 2 1 "ou=people" "dc=example," "TRUE" in
  RepoCreate.HasChildren rec = true
  /\ exists pdn, ParentDN Sample.aliceDN = Some pdn
                 /\ RepoCreateSpec.found_for Sample.healthy
                      (RepoCreate.tx_work (RepoCreate.MustBegin Sample.directory)) pdn rec.
Proof.
  intros rec.
  apply (repo_findParent_sound Sample.healthy Sample.aliceDN
           (RepoCreate.MustBegin Sample.directory) rec).
  vm_compute. reflexivity.
Defined.

(** X9. insertWithTx of an entry that is not the domain component leaves
    ldap_tree as it is, whatever it returns: the parent it has found always
    has HasChildren, so the promotion of the parent is never run, and no
    other statement of this branch writes to ldap_tree. *)
Theorem repo_promotion_never_runs (r : RepoCreate.Repository) (entry : AddEntry)
    (tx : RepoCreate.Tx) :
  entry_IsDC entry = false ->
  RepoCreate.ldap_tree (RepoCreate.tx_work (fst (RepoCreate.insertWithTx r entry tx)))
  = RepoCreate.ldap_tree (RepoCreate.tx_work tx).
Proof. intros Hdc. by apply RepoCreateMore.insertWithTx_same_tree. Qed.

Lemma repo_promotion_never_runs_witness :
  RepoCreate.ldap_tree
    (RepoCreate.tx_work
       (fst (RepoCreate.insertWithTx Sample.healthy (Sample.entryOf Sample.ghostDN)
               (RepoCreate.MustBegin Sample.directory))))
  = RepoCreate.ldap_tree (RepoCreate.tx_work (RepoCreate.MustBegin Sample.directory)).
Proof.
  apply (repo_promotion_never_runs Sample.healthy (Sample.entryOf Sample.ghostDN)
           (RepoCreate.MustBegin Sample.directory)).
  reflexivity.
Defined.

(** X10. One batch of insertSubMembers is all or nothing.  When it returns
    nil it has run one INSERT of exactly as many rows as the batch has
    references, each to an entry of ldap_entry and under the attribute of
    one of the references, and every reference of the batch has a DN that
    normalizes and a parent in the cache.  When it returns an error, or
    panics, the transaction is as it was. *)
Theorem repo_batch_all_or_nothing (r : RepoCreate.Repository) (subjectID : Z) (dn : DN)
    (members : list MemberEntry) (dnIDCache : gmap string Z) (tx : RepoCreate.Tx) :
  match snd (RepoCreate.insertSubMembers r subjectID dn members dnIDCache tx) with
  | Ok _ =>
      exists values,
        fst (RepoCreate.insertSubMembers r subjectID dn members dnIDCache tx)
        = RepoCreate.insertMembersStmt subjectID values tx
        /\ length values = length members
        /\ Forall (fun v =>
                     (exists e, e ∈ RepoCreate.ldap_entry (RepoCreate.tx_work tx)
                                /\ RepoCreate.entry_id e = snd v)
                     /\ exists m, m ∈ members /\ AttrNameNorm m = fst v) values
        /\ Forall (fun m => exists key, RepoCreateSpec.member_resolves r dnIDCache m key)
             members
  | _ => fst (RepoCreate.insertSubMembers r subjectID dn members dnIDCache tx) = tx
  end.
Proof. apply RepoCreateMore.insertSubMembers_outcome. Qed.

(** X11. Whatever insertMember returns, it has left ldap_entry, ldap_tree
    and the sequence alone and has appended to ldap_member only rows from
    its subject to entries of ldap_entry, under attributes of the entry's
    references.  When it returns an error, no batch has been run: the
    transaction is as it was. *)
Theorem repo_insertMember_only_edges (r : RepoCreate.Repository) (subjectID : Z)
    (entry : AddEntry) (tx : RepoCreate.Tx) :
  RepoCreateSpec.only_edges subjectID (entry_Member entry) tx
    (fst (RepoCreate.insertMember r subjectID entry tx))
  /\ forall e, snd (RepoCreate.insertMember r subjectID entry tx) = Err e ->
               fst (RepoCreate.insertMember r subjectID entry tx) = tx.
Proof.
  split; [apply RepoCreateMore.insertMember_only_edges |].
  apply RepoCreateMore.insertMember_Err_unchanged.
Qed.

(** X12. After insertEntry has inserted an entry, the same call on the
    transaction it has left returns AlreadyExists and changes nothing, on
    the path under the domain component as on the other. *)
Theorem repo_insertEntry_twice (r : RepoCreate.Repository) (parent : RepoCreate.DBEntryRecord)
    (entry : AddEntry) (tx tx1 : RepoCreate.Tx) (ids : Z * Z) :
  RepoCreate.insertEntry r parent entry tx = (tx1, Ok ids) ->
  RepoCreate.insertEntry r parent entry tx1 = (tx1, Err AlreadyExists).
Proof. apply RepoCreateMore.insertEntry_again. Qed.

Lemma repo_insertEntry_twice_witness :
  let parent := RepoCreate.mkDBEntryRecord 2 1 "ou=people" "dc=example," "TRUE" in
  let tx1 := fst (RepoCreate.insertEntry Sample.healthy parent (Sample.entryOf Sample.ghostDN)
                    (RepoCreate.MustBegin Sample.directory)) in
  RepoCreate.insertEntry Sample.healthy parent (Sample.entryOf Sample.ghostDN) tx1
  = (tx1, Err AlreadyExists).
Proof.
  intros parent tx1.
  apply (repo_insertEntry_twice Sample.healthy parent (Sample.entryOf Sample.ghostDN)
           (RepoCreate.MustBegin Sample.directory) tx1 (5, 2)%Z).
  vm_compute. reflexivity.
Defined.

(** X13. No statement of repo_create.go lets Unavailable or InvalidDNSyntax
    out of Insert: NewUnavailable is never called, and the InvalidDNSyntax
    of a batch ends at insertMember.  (The errors of the collaborators that
    are not in the sources are kept apart, as [External].) *)
Theorem repo_Insert_never_Unavailable (r : RepoCreate.Repository) (entry : AddEntry)
    (db : RepoCreate.Database) :
  snd (RepoCreate.Insert r entry db) <> Err Unavailable
  /\ snd (RepoCreate.Insert r entry db) <> Err InvalidDNSyntax.
Proof.
  split; intros H; apply RepoCreateMore.Insert_lets_out in H; apply H; [by left | by right].
Qed.

(** X14. A call of Insert that returns an id has committed.  The id is the
    next value of the sequence, which moves on by one; ldap_entry has one
    more row, at its end, with this id and the names of the entry, under a
    parent below which no row had its rdn_norm.  For the domain component
    the parent is ROOT_ID, no row of ldap_member is added and the rows added
    to ldap_tree are (id, "/", "").  For any other entry ldap_tree is
    unchanged, the parent is the entry that findDBEntryRecord has found for
    the parent DN, and the rows added to ldap_member go from the new entry
    to entries of the table. *)
Theorem repo_Insert_success (r : RepoCreate.Repository) (entry : AddEntry)
    (db : RepoCreate.Database) (tx' : RepoCreate.Tx) (id : Z) :
  RepoCreate.Insert r entry db = (tx', Ok id) ->
  RepoCreate.tx_status tx' = TxCommitted
  /\ RepoCreate.database_after tx'
     = RepoCreate.mkDatabase (RepoCreate.tx_work tx') (id + 1)
  /\ RepoCreateSpec.inserted r entry (RepoCreate.MustBegin db) tx' id.
Proof.
  intros HI. pose proof (RepoCreateMore.repo_Insert_outcome r entry db) as H.
  rewrite HI in H. simpl in H. destruct H as [Hst Hins].
  split; [exact Hst |]. split; [| exact Hins].
  destruct Hins as (_ & _ & _ & _ & _ & Hseq & _).
  unfold RepoCreate.database_after. by rewrite Hst, Hseq.
Qed.

Lemma repo_Insert_success_witness :
  let tx' := fst (RepoCreate.Insert Sample.healthy Sample.admins_of_alice Sample.directory) in
  RepoCreate.tx_status tx' = TxCommitted
  /\ RepoCreate.database_after tx'
     = RepoCreate.mkDatabase (RepoCreate.tx_work tx') (5 + 1)
  /\ RepoCreateSpec.inserted Sample.healthy Sample.admins_of_alice
       (RepoCreate.MustBegin Sample.directory) tx' 5.
Proof.
  intros tx'.
  apply (repo_Insert_success Sample.healthy Sample.admins_of_alice Sample.directory tx' 5).
  vm_compute. reflexivity.
Defined.

(** X15. Whatever a call of Insert returns, the rows that were in
    ldap_entry, ldap_tree and ldap_member before are there afterwards,
    unchanged and in their place, and the sequence has not gone back. *)
Theorem repo_Insert_append_only (r : RepoCreate.Repository) (entry : AddEntry)
    (db : RepoCreate.Database) :
  RepoCreateSpec.extends (RepoCreate.db_tables db)
    (RepoCreate.db_tables (RepoCreate.database_after (fst (RepoCreate.Insert r entry db))))
  /\ (RepoCreate.db_entry_seq db
      <= RepoCreate.db_entry_seq
           (RepoCreate.database_after (fst (RepoCreate.Insert r entry db))))%Z.
Proof.
  split; [apply RepoCreateMore.repo_Insert_extends | apply RepoCreateMore.repo_Insert_seq_le].
Qed.

(** X16. In every database that Insert builds, each row of ldap_tree
    belongs to an entry directly under ROOT_ID: insertTree is reached for
    the domain component only. *)
Theorem repo_tree_rows_under_root (r : RepoCreate.Repository) (db : RepoCreate.Database) :
  RepoCreateSpec.reachable r db ->
  RepoCreateSpec.tree_only_dc r (RepoCreate.db_tables db).
Proof. intros Hreach. by destruct (RepoCreateMore.reachable_inv r db Hreach). Qed.

Lemma repo_tree_rows_under_root_witness :
  RepoCreateSpec.tree_only_dc Sample.healthy (RepoCreate.db_tables Sample.directory).
Proof.
  apply (repo_tree_rows_under_root Sample.healthy Sample.directory).
  repeat apply RepoCreateSpec.reachable_Insert. apply RepoCreateSpec.reachable_empty.
Defined.

(** X17. In every database that Insert builds, each entry lies directly
    under ROOT_ID, or under such an entry, or under a child of such an
    entry: findDBEntryRecord joins the parent with the row of ldap_tree of
    the parent's parent, and only entries directly under ROOT_ID have one,
    so no entry is ever inserted further down. *)
Theorem repo_entries_are_shallow (r : RepoCreate.Repository) (db : RepoCreate.Database)
    (e : RepoCreate.EntryRow) :
  RepoCreateSpec.reachable r db ->
  e ∈ RepoCreate.ldap_entry (RepoCreate.db_tables db) ->
  RepoCreateSpec.shallow r (RepoCreate.db_tables db) e.
Proof.
  intros Hreach He. destruct (RepoCreateMore.reachable_inv r db Hreach) as (_ & H & _).
  by apply H.
Qed.

Lemma repo_entries_are_shallow_witness :
  RepoCreateSpec.shallow Sample.healthy (RepoCreate.db_tables Sample.directory)
    (RepoCreate.mkEntryRow 4 2 "cn=alice" "cn=alice" "uuid" "now" "now" "{}" "{}").
Proof.
  apply (repo_entries_are_shallow Sample.healthy Sample.directory).
  - repeat apply RepoCreateSpec.reachable_Insert. apply RepoCreateSpec.reachable_empty.
  - apply list_elem_of_In. vm_compute. auto.
Defined.

(** X18. In every database that Insert builds, both ends of each row of
    ldap_member are entries of ldap_entry. *)
Theorem repo_edges_between_entries (r : RepoCreate.Repository) (db : RepoCreate.Database)
    (m : RepoCreate.MemberRow) :
  RepoCreateSpec.reachable r db ->
  m ∈ RepoCreate.ldap_member (RepoCreate.db_tables db) ->
  RepoCreateSpec.between_entries (RepoCreate.db_tables db) m.
Proof.
  intros Hreach Hm. destruct (RepoCreateMore.reachable_inv r db Hreach) as (_ & _ & H).
  by apply H.
Qed.

Lemma repo_edges_between_entries_witness :
  RepoCreateSpec.between_entries
    (RepoCreate.db_tables (Sample.after Sample.healthy Sample.admins_of_alice Sample.directory))
    (RepoCreate.mkMemberRow 5 "member" 4).
Proof.
  apply (repo_edges_between_entries Sample.healthy
           (Sample.after Sample.healthy Sample.admins_of_alice Sample.directory)).
  - repeat apply RepoCreateSpec.reachable_Insert. apply RepoCreateSpec.reachable_empty.
  - apply list_elem_of_In. vm_compute. auto.
Defined.

(** X19. When insertWithTx returns the id of a new domain-component entry,
    ldap_tree has a row of that id: the tree row of the domain component is
    always asked for, right after the entry. *)
Theorem repo_DC_entry_has_tree_row (r : RepoCreate.Repository) (entry : AddEntry)
    (tx tx1 : RepoCreate.Tx) (id : Z) :
  entry_IsDC entry = true ->
  RepoCreate.insertWithTx r entry tx = (tx1, Ok id) ->
  exists t, t ∈ RepoCreate.ldap_tree (RepoCreate.tx_work tx1) /\ RepoCreate.tree_id t = id.
Proof.
  intros Hdc. unfold RepoCreate.insertWithTx. rewrite Hdc.
  intros (tx2 & newID & H1 & H)%RepoCreateMore.bind_Ok.
  apply RepoCreateMore.bind_Ok in H as (tx3 & [] & H2 & H). injection H as <- <-.
  apply RepoCreateMore.insertTree_Ok in H2 as ->.
  destruct (RepoCreateMore.insertTreeStmt_rows newID "/" "" tx2) as (trees & -> & _ & Hrow).
  exact Hrow.
Qed.

Lemma repo_DC_entry_has_tree_row_witness :
  exists t,
    t ∈ RepoCreate.ldap_tree
          (RepoCreate.tx_work
             (fst (RepoCreate.insertWithTx Sample.healthy (Sample.entryOf Sample.dcDN)
                     (RepoCreate.MustBegin Sample.empty))))
    /\ RepoCreate.tree_id t = 1%Z.
Proof.
  apply (repo_DC_entry_has_tree_row Sample.healthy (Sample.entryOf Sample.dcDN)
           (RepoCreate.MustBegin Sample.empty)).
  - reflexivity.
  - vm_compute. reflexivity.
Defined.
